(** * Order canonicalisation pipeline of [examples/OrderExample.tsx]

    A shallow embedding of the order encoder of the example: the client
    order id ([Cloid]), the canonical decimal encoder ([floatToWire]), the
    order type normaliser ([orderTypeToWire]), the order encoder
    ([orderRequestToOrderWire]) and the action assembler
    ([orderWiresToOrderAction]).

    JavaScript numbers are IEEE 754 binary64 values.  They are modelled
    exactly: a finite number is a sign, an integer significand and a binary
    exponent, every operation computes the exact result over the integers and
    rounds it to nearest, ties to even.  The built-ins the source calls
    ([Number.prototype.toFixed], [parseFloat], [Math.abs], the subtraction and
    [>=] on numbers, [String.prototype.startsWith], [slice], [padStart],
    [Number.prototype.toString]) follow ECMA-262; [Decimal] follows the
    constructor and [toString] of decimal.js 10 with its default
    configuration ([toExpNeg = -7], [toExpPos = 21]). *)

From Stdlib Require Import ZArith Lia List String Ascii Bool.
Import ListNotations.
Local Open Scope Z_scope.

(** ** Binary64 numbers *)

Module Number.

(** [Fin neg m e] denotes [(-1)^neg * m * 2^e]. *)
Inductive number : Type :=
  | NaN
  | Inf (neg : bool)
  | Fin (neg : bool) (m e : Z).

Definition emin : Z := -1074.
Definition emax : Z := 971.

(** The doubles, each in its one canonical form: a subnormal (or zero) has the
    least exponent, a normal number a 53-bit significand. *)
Definition canonical (m e : Z) : Prop :=
  (e = emin /\ 0 <= m < 2 ^ 52) \/ (emin <= e <= emax /\ 2 ^ 52 <= m < 2 ^ 53).

Definition wf (x : number) : Prop :=
  match x with
  | Fin _ m e => canonical m e
  | _ => True
  end.

Definition canonicalb (m e : Z) : bool :=
  ((e =? emin) && (0 <=? m) && (m <? 2 ^ 52))
  || ((emin <=? e) && (e <=? emax) && (2 ^ 52 <=? m) && (m <? 2 ^ 53)).

Definition is_finite (x : number) : bool :=
  match x with Fin _ _ _ => true | _ => false end.

(** A positive rational [p / q] divided by [2^e], again as a fraction. *)
Definition shift_ratio (p q e : Z) : Z * Z :=
  if 0 <=? e then (p, q * 2 ^ e) else (p * 2 ^ (- e), q).

(** The integer [l] with [2^l <= p / q < 2^(l+1)], for [p, q > 0]. *)
Definition floor_log2 (p q : Z) : Z :=
  let d := Z.log2 p - Z.log2 q in
  let '(a, b) := shift_ratio p q d in
  if b <=? a then d else d - 1.

(** [a / b] rounded to the nearest integer, ties to the even one. *)
Definition rne_div (a b : Z) : Z :=
  let q := a / b in
  let r := a mod b in
  if 2 * r <? b then q
  else if b <? 2 * r then q + 1
  else if Z.even q then q else q + 1.

(** The double nearest to [(-1)^neg * p / q] (round to nearest, ties to even;
    overflow to infinity), for [0 <= p] and [0 < q]. *)
Definition fl (neg : bool) (p q : Z) : number :=
  if p =? 0 then Fin neg 0 emin
  else
    let l := floor_log2 p q in
    let e := Z.max (l - 52) emin in
    let '(a, b) := shift_ratio p q e in
    let m := rne_div a b in
    let '(m', e') := if m =? 2 ^ 53 then (2 ^ 52, e + 1) else (m, e) in
    if emax <? e' then Inf neg else Fin neg m' e'.

(** The Number value of the decimal [(-1)^neg * c * 10^k]: what a numeric
    literal or a parsed decimal string denotes. *)
Definition of_decimal (neg : bool) (c k : Z) : number :=
  if 0 <=? k then fl neg (c * 10 ^ k) 1 else fl neg c (10 ^ (- k)).

(** The Number value of the dyadic [(-1)^neg * c * 2^k]. *)
Definition of_dyadic (neg : bool) (c k : Z) : number :=
  if 0 <=? k then fl neg (c * 2 ^ k) 1 else fl neg c (2 ^ (- k)).

Definition signed (neg : bool) (m : Z) : Z := if neg then - m else m.

(** Two finite numbers over their common (least) exponent. *)
Definition align (m1 e1 m2 e2 : Z) : Z * Z * Z :=
  let e0 := Z.min e1 e2 in
  (m1 * 2 ^ (e1 - e0), m2 * 2 ^ (e2 - e0), e0).

(** [x - y] on Numbers. *)
Definition sub (x y : number) : number :=
  match x, y with
  | NaN, _ | _, NaN => NaN
  | Inf s1, Inf s2 => if Bool.eqb s1 s2 then NaN else Inf s1
  | Inf s1, Fin _ _ _ => Inf s1
  | Fin _ _ _, Inf s2 => Inf (negb s2)
  | Fin s1 m1 e1, Fin s2 m2 e2 =>
      let '(a, b, e0) := align (signed s1 m1) e1 (signed s2 m2) e2 in
      let d := a - b in
      if d =? 0 then Fin (s1 && negb s2) 0 emin
      else of_dyadic (d <? 0) (Z.abs d) e0
  end.

(** [Math.abs]. *)
Definition abs (x : number) : number :=
  match x with
  | NaN => NaN
  | Inf _ => Inf false
  | Fin _ m e => Fin false m e
  end.

(** The order of two Numbers: [None] when one of them is NaN. *)
Definition compare (x y : number) : option comparison :=
  match x, y with
  | NaN, _ | _, NaN => None
  | Inf s1, Inf s2 =>
      Some (if Bool.eqb s1 s2 then Eq else if s1 then Lt else Gt)
  | Inf s1, Fin _ _ _ => Some (if s1 then Lt else Gt)
  | Fin _ _ _, Inf s2 => Some (if s2 then Gt else Lt)
  | Fin s1 m1 e1, Fin s2 m2 e2 =>
      let '(a, b, _) := align (signed s1 m1) e1 (signed s2 m2) e2 in
      Some (a ?= b)
  end.

(** [x >= y]. *)
Definition geb (x y : number) : bool :=
  match compare x y with
  | Some Gt | Some Eq => true
  | _ => false
  end.

(** [x == y] (and [===]) on Numbers: NaN differs from itself, the two zeros
    are equal. *)
Definition eqb (x y : number) : bool :=
  match compare x y with
  | Some Eq => true
  | _ => false
  end.

End Number.

Import Number.

(** ** Decimal digits and strings *)

Local Open Scope string_scope.
Local Open Scope Z_scope.

Definition is_digit (c : ascii) : bool :=
  let n := nat_of_ascii c in (48 <=? n)%nat && (n <=? 57)%nat.

Definition digit_val (c : ascii) : Z := Z.of_nat (nat_of_ascii c) - 48.

Definition digit_char (d : Z) : ascii := ascii_of_nat (Z.to_nat (48 + d)).

Fixpoint string_of_digits (ds : list Z) : string :=
  match ds with
  | [] => EmptyString
  | d :: r => String (digit_char d) (string_of_digits r)
  end.

(** The integer a digit sequence denotes, most significant digit first. *)
Definition value_of_digits (ds : list Z) : Z :=
  fold_left (fun a d => 10 * a + d) ds 0.

(** The [w] low decimal digits of [n], most significant first. *)
Fixpoint fixed_digits (w : nat) (n : Z) : list Z :=
  match w with
  | O => []
  | S w' => (n / 10 ^ Z.of_nat w') mod 10 :: fixed_digits w' n
  end.

Fixpoint num_digits_fuel (fuel : nat) (n : Z) : nat :=
  match fuel with
  | O => 1
  | S f => if n <? 10 then 1%nat else S (num_digits_fuel f (n / 10))
  end.

(** The number of decimal digits of [n >= 0] (one for zero). *)
Definition num_digits (n : Z) : nat := num_digits_fuel (Z.to_nat (Z.log2 n)) n.

(** The decimal representation of [n >= 0]. *)
Definition digits (n : Z) : list Z := fixed_digits (num_digits n) n.

(** The decimal representation of an integer, as [String(n)] gives it. *)
Definition string_of_Z (n : Z) : string :=
  if n <? 0 then "-" ++ string_of_digits (digits (- n))
  else string_of_digits (digits n).

Definition zeros (k : nat) : list Z := repeat 0 k.

(** ** Number.prototype.toString for large values *)

(** ECMA-262, Number::toString, for a finite [x >= 10^21] given as the integer
    [X]: the integers [s], [k], [n] with [10^(k-1) <= s < 10^k], such that
    [s * 10^(n-k)] rounds to [x] and [k] is as small as possible; of two
    candidates the one nearer to [x] (the even one on a tie).  With all the
    [d] digits of [X] the value is [X] itself. *)
Fixpoint shortest_from (x : number) (X d : Z) (fuel : nat) (k : Z) : Z * Z * Z :=
  match fuel with
  | O => (X, d, d)
  | S f =>
      let u := 10 ^ (d - k) in
      let lo := X / u in
      let hi := lo + 1 in
      let ok_lo := Number.eqb (fl false (lo * u) 1) x in
      let ok_hi := Number.eqb (fl false (hi * u) 1) x in
      let up := if hi =? 10 ^ k then (1, 1, d + 1) else (hi, k, d) in
      if ok_lo && ok_hi then
        match (X - lo * u) ?= (hi * u - X) with
        | Lt => (lo, k, d)
        | Gt => up
        | Eq => if Z.even lo then (lo, k, d) else up
        end
      else if ok_lo then (lo, k, d)
      else if ok_hi then up
      else shortest_from x X d f (k + 1)
  end.

Definition shortest (m e : Z) : Z * Z * Z :=
  let X := m * 2 ^ e in
  let d := Z.of_nat (num_digits X) in
  shortest_from (Fin false m e) X d (Z.to_nat (d - 1)) 1.

(** The exponential form Number::toString takes when [n > 21]. *)
Definition toString_large (m e : Z) : string :=
  let '(s, k, n) := shortest m e in
  match fixed_digits (Z.to_nat k) s with
  | [] => EmptyString
  | d :: rest =>
      string_of_digits [d]
      ++ (match rest with [] => EmptyString | _ => "." ++ string_of_digits rest end)
      ++ "e+" ++ string_of_Z (n - 1)
  end.

(** ** Number.prototype.toFixed(8) *)

(** The integer [n] for which [n / 10^8 - m * 2^e] is as close to zero as
    possible, the larger one of two. *)
Definition scaled8 (m e : Z) : Z :=
  if 0 <=? e then m * 2 ^ e * 10 ^ 8
  else (2 * m * 10 ^ 8 + 2 ^ (- e)) / 2 ^ (- e + 1).

(** The digits of [n] with the decimal point eight places from the right,
    padded with zeros to at least one integer digit. *)
Definition fixed8_digits (n : Z) : list Z * list Z :=
  let m := digits n in
  let k := List.length m in
  let m := if (k <=? 8)%nat then (zeros (8 + 1 - k) ++ m)%list else m in
  let k := List.length m in
  (firstn (k - 8) m, skipn (k - 8) m).

Definition toFixed8 (x : number) : string :=
  match x with
  | NaN => "NaN"
  | Inf neg => if neg then "-Infinity" else "Infinity"
  | Fin neg m e =>
      let s := if neg && (0 <? m) then "-" else EmptyString in
      if (0 <=? e) && (10 ^ 21 <=? m * 2 ^ e) then s ++ toString_large m e
      else
        let '(a, b) := fixed8_digits (scaled8 m e) in
        s ++ string_of_digits a ++ "." ++ string_of_digits b
  end.

(** ** parseFloat *)

Definition is_space (c : ascii) : bool :=
  let n := nat_of_ascii c in
  ((9 <=? n)%nat && (n <=? 13)%nat) || (n =? 32)%nat.

Fixpoint trimStart (s : string) : string :=
  match s with
  | String c r => if is_space c then trimStart r else s
  | EmptyString => s
  end.

(** The longest prefix of decimal digits, and the rest. *)
Fixpoint span_digits (s : string) : list Z * string :=
  match s with
  | String c r =>
      if is_digit c then
        let '(ds, r') := span_digits r in (digit_val c :: ds, r')
      else ([], s)
  | EmptyString => ([], s)
  end.

Definition parse_sign (s : string) : bool * string :=
  match s with
  | String "-" r => (true, r)
  | String "+" r => (false, r)
  | _ => (false, s)
  end.

Definition is_e (c : ascii) : bool :=
  match c with
  | "e"%char | "E"%char => true
  | _ => false
  end.

(** The exponent part at the head of [s] and what follows it; none when no
    digit follows the [e] and its sign. *)
Definition parse_exponent (s : string) : option (Z * string) :=
  match s with
  | String c r =>
      if is_e c then
        let '(neg, r1) := parse_sign r in
        match span_digits r1 with
        | ([], _) => None
        | (ds, r2) => Some (signed neg (value_of_digits ds), r2)
        end
      else None
  | EmptyString => None
  end.

(** The fraction after the integer digits: a point and its digits. *)
Definition parse_fraction (s : string) : option (list Z * string) :=
  match s with
  | String "." r => Some (span_digits r)
  | _ => None
  end.

(** What the longest prefix of a string that is a decimal literal denotes:
    nothing when there is no such prefix, an infinity, or the decimal
    [(-1)^neg * c * 10^k]. *)
Inductive literal : Type :=
  | NoLiteral
  | InfinityLiteral (neg : bool)
  | DecimalLiteral (neg : bool) (c k : Z).

Definition StrDecimalLiteral (s : string) : literal :=
  let '(neg, r) := parse_sign s in
  if prefix "Infinity" r then InfinityLiteral neg
  else
    let '(ip, r1) := span_digits r in
    let '(fp, r2) :=
      match parse_fraction r1 with Some f => f | None => ([], r1) end in
    match (ip ++ fp)%list with
    | [] => NoLiteral
    | ds =>
        let ex := match parse_exponent r2 with Some (x, _) => x | None => 0 end in
        DecimalLiteral neg (value_of_digits ds) (ex - Z.of_nat (List.length fp))
    end.

(** [parseFloat]: the Number nearest to the decimal literal at the head of
    the trimmed string, NaN when there is none. *)
Definition parseFloat (s : string) : number :=
  match StrDecimalLiteral (trimStart s) with
  | NoLiteral => NaN
  | InfinityLiteral neg => Inf neg
  | DecimalLiteral neg c k => of_decimal neg c k
  end.

(** ** Thrown errors *)

(** A call returns a value or throws [new Error(msg)]. *)
Inductive result (A : Type) : Type :=
  | Ok (v : A)
  | Throw (msg : string).
Arguments Ok {A} v.
Arguments Throw {A} msg.

Definition bind {A B : Type} (r : result A) (k : A -> result B) : result B :=
  match r with
  | Ok v => k v
  | Throw msg => Throw msg
  end.

Notation "x <- r ;; k" := (bind r (fun x => k))
  (at level 61, r at next level, right associativity).

(** ** decimal.js *)

Module DecimalJs.

(** A finite [Decimal] is a sign, the digits [d] of its coefficient (most
    significant first, without leading or trailing zeros; the single digit 0
    for zero) and the exponent [e] of the first digit: the value is
    [d1.d2d3... * 10^e]. *)
Inductive Decimal : Type :=
  | DNaN
  | DInf (neg : bool)
  | DFin (neg : bool) (d : list Z) (e : Z).

Definition toExpNeg : Z := -7.
Definition toExpPos : Z := 21.
Definition maxE : Z := 9 * 10 ^ 15.
Definition minE : Z := - (9 * 10 ^ 15).

Fixpoint strip_leading_zeros (ds : list Z) : list Z :=
  match ds with
  | 0 :: r => strip_leading_zeros r
  | _ => ds
  end.

Definition strip_trailing_zeros (ds : list Z) : list Z :=
  rev (strip_leading_zeros (rev ds)).

(** The regular expression [isDecimal]: digits with an optional point and
    optional fraction digits, or a point and at least one digit; then an
    optional exponent ([e] or [E], an optional sign, digits); nothing else.
    For a string it matches: the integer digits, the fraction digits when
    there is a point, and the exponent when there is one. *)
Definition match_decimal (v : string)
  : option (list Z * option (list Z) * option Z) :=
  let '(ip, r1) := span_digits v in
  let '(fp, r2) :=
    match parse_fraction r1 with
    | Some (f, r) => (Some f, r)
    | None => (None, r1)
    end in
  let '(ex, r3) :=
    match parse_exponent r2 with
    | Some (x, r) => (Some x, r)
    | None => (None, r2)
    end in
  let mantissa :=
    match ip, fp with
    | [], None | [], Some [] => false
    | _, _ => true
    end in
  if mantissa && (r3 =? EmptyString)%string then Some (ip, fp, ex) else None.

(** [parseDecimal]: the point is at index [e] of the digit string; leading and
    trailing zeros are dropped. *)
Definition parseDecimal (neg : bool) (ip : list Z) (fp : option (list Z))
    (ex : option Z) : Decimal :=
  let str := (ip ++ match fp with Some f => f | None => [] end)%list in
  let e := Z.of_nat (List.length ip)
           + match ex with Some x => x | None => 0 end in
  let str1 := strip_leading_zeros str in
  let i := Z.of_nat (List.length str) - Z.of_nat (List.length str1) in
  let str2 := strip_trailing_zeros str1 in
  match str2 with
  | [] => DFin neg [0] 0
  | _ =>
      let e := e - i - 1 in
      if maxE <? e then DInf neg
      else if e <? minE then DFin neg [0] 0
      else DFin neg str2 e
  end.

(** [new Decimal(v)] for a string [v].  Of the strings [parseOther] accepts
    only [Infinity] and [NaN] are modelled: the prefixed binary, octal and
    hexadecimal literals (which [toFixed] never produces) are outside this
    model. *)
Definition new (v : string) : result Decimal :=
  let '(neg, v') := parse_sign v in
  match match_decimal v' with
  | Some (ip, fp, ex) => Ok (parseDecimal neg ip fp ex)
  | None =>
      if (v' =? "Infinity")%string then Ok (DInf neg)
      else if (v' =? "NaN")%string then Ok DNaN
      else Throw ("[DecimalError] Invalid argument: " ++ v)
  end.

Definition isNeg (x : Decimal) : bool :=
  match x with
  | DNaN => false
  | DInf neg | DFin neg _ _ => neg
  end.

Definition isZero (x : Decimal) : bool :=
  match x with
  | DFin _ (0 :: _) _ => true
  | _ => false
  end.

(** [finiteToString(x, isExp)], unsigned. *)
Definition finiteToString (x : Decimal) (isExp : bool) : string :=
  match x with
  | DNaN => "NaN"
  | DInf _ => "Infinity"
  | DFin _ d e =>
      let len := Z.of_nat (List.length d) in
      if isExp then
        (match d with
         | d0 :: (_ :: _) as rest =>
             string_of_digits [d0] ++ "." ++ string_of_digits rest
         | _ => string_of_digits d
         end)
        ++ (if e <? 0 then "e" else "e+") ++ string_of_Z e
      else if e <? 0 then
        "0." ++ string_of_digits (zeros (Z.to_nat (- e - 1))) ++ string_of_digits d
      else if len <=? e then
        string_of_digits d ++ string_of_digits (zeros (Z.to_nat (e + 1 - len)))
      else if e + 1 <? len then
        string_of_digits (firstn (Z.to_nat (e + 1)) d)
        ++ "." ++ string_of_digits (skipn (Z.to_nat (e + 1)) d)
      else string_of_digits d
  end.

Definition exponent (x : Decimal) : option Z :=
  match x with
  | DFin _ _ e => Some e
  | _ => None
  end.

(** [Decimal.prototype.toString]: the sign of a zero is dropped. *)
Definition toString (x : Decimal) : string :=
  let isExp :=
    match exponent x with
    | Some e => (e <=? toExpNeg) || (toExpPos <=? e)
    | None => false
    end in
  let str := finiteToString x isExp in
  if isNeg x && negb (isZero x) then "-" ++ str else str.

End DecimalJs.

(** ** The source *)

(** *** Cloid *)

Definition startsWith (pre s : string) : bool := prefix pre s.

(** [s.slice(n)] for [0 <= n]. *)
Fixpoint slice (n : nat) (s : string) : string :=
  match n, s with
  | O, _ => s
  | S n', String _ r => slice n' r
  | S _, EmptyString => s
  end.

(** [s.padStart(n, "0")]. *)
Definition padStart0 (n : nat) (s : string) : string :=
  string_of_digits (zeros (n - String.length s)) ++ s.

Definition hex_char (d : Z) : ascii :=
  if d <? 10 then digit_char d else ascii_of_nat (Z.to_nat (87 + d)).

Fixpoint hex_digits (fuel : nat) (n : Z) (acc : string) : string :=
  match fuel with
  | O => acc
  | S f =>
      let acc' := String (hex_char (n mod 16)) acc in
      if n <? 16 then acc' else hex_digits f (n / 16) acc'
  end.

(** [cloid.toString(16)] for an integer-valued Number [cloid]. *)
Definition toString16 (n : Z) : string :=
  if n <? 0 then "-" ++ hex_digits (S (Z.to_nat (Z.log2 (- n)))) (- n) EmptyString
  else hex_digits (S (Z.to_nat (Z.log2 n))) n EmptyString.

Record Cloid : Type := mkCloid { _rawCloid : string }.

Definition _validate (this : Cloid) : result unit :=
  if negb (startsWith "0x" (_rawCloid this)) then
    Throw "cloid is not a hex string"
  else if negb (String.length (slice 2 (_rawCloid this)) =? 32)%nat then
    Throw "cloid is not 16 bytes"
  else Ok tt.

(** [new Cloid(rawCloid)]. *)
Definition newCloid (rawCloid : string) : result Cloid :=
  let this := mkCloid rawCloid in
  _ <- _validate this ;; Ok this.

(** [Cloid.fromInt(cloid)] for a Number [cloid] that is an integer, given
    as that integer. *)
Definition fromInt (cloid : Z) : result Cloid :=
  newCloid ("0x" ++ padStart0 32 (toString16 cloid)).

Definition fromStr (cloid : string) : result Cloid := newCloid cloid.

Definition toRaw (this : Cloid) : string := _rawCloid this.

(** *** floatToWire *)

Definition floatToWire (x : number) : result string :=
  let rounded := toFixed8 x in
  if Number.geb (Number.abs (Number.sub (parseFloat rounded) x))
                (of_decimal false 1 (-12)) then
    Throw "floatToWire causes rounding"
  else if (rounded =? "-0")%string then Ok "0"
  else d <- DecimalJs.new rounded ;; Ok (DecimalJs.toString d).

(** *** Interfaces *)

(** An optional property [k?: T] of an object: the key is absent, or it is
    present and holds [undefined] or a value. *)
Inductive optional (A : Type) : Type :=
  | Absent
  | Undefined
  | Present (v : A).
Arguments Absent {A}.
Arguments Undefined {A}.
Arguments Present {A} v.

(** ["k" in obj]. *)
Definition has_key {A : Type} (o : optional A) : bool :=
  match o with
  | Absent => false
  | _ => true
  end.

(** [obj.k]: [None] is [undefined]. *)
Definition get {A : Type} (o : optional A) : option A :=
  match o with
  | Present v => Some v
  | _ => None
  end.

(** The property of an object literal [{ k: v }]: the key is there, whatever
    the value. *)
Definition property {A : Type} (v : option A) : optional A :=
  match v with
  | Some v => Present v
  | None => Undefined
  end.

Inductive Tif : Type := Alo | Ioc | Gtc.
Inductive Tpsl : Type := tp | sl.

Record LimitOrderType : Type := mkLimit { tif : Tif }.

Module TriggerOrderTypeWire.
Record obj : Type := mk { triggerPx : string; isMarket : bool; tpsl : Tpsl }.
End TriggerOrderTypeWire.
Definition TriggerOrderTypeWire : Type := TriggerOrderTypeWire.obj.

Module OrderTypeWire.
Record obj : Type :=
  mk { limit : optional LimitOrderType; trigger : optional TriggerOrderTypeWire }.
End OrderTypeWire.
Definition OrderTypeWire : Type := OrderTypeWire.obj.

Module OrderWire.
Record obj : Type :=
  mk { a : number; b : bool; p : string; s : string; r : bool;
       t : OrderTypeWire; c : optional string }.
End OrderWire.
Definition OrderWire : Type := OrderWire.obj.

Module TriggerOrderType.
Record obj : Type := mk { triggerPx : number; isMarket : bool; tpsl : Tpsl }.
End TriggerOrderType.
Definition TriggerOrderType : Type := TriggerOrderType.obj.

Module OrderType.
Record obj : Type :=
  mk { limit : optional LimitOrderType; trigger : optional TriggerOrderType }.
End OrderType.
Definition OrderType : Type := OrderType.obj.

(** [cloid?: Cloid | null]: the value [None] is [null]. *)
Module OrderRequest.
Record obj : Type :=
  mk { coin : string; is_buy : bool; sz : number; limit_px : number;
       order_type : OrderType; reduce_only : bool;
       cloid : optional (option Cloid) }.
End OrderRequest.
Definition OrderRequest : Type := OrderRequest.obj.

Module OrderAction.
Record obj : Type :=
  mk { type : string; orders : list OrderWire; grouping : string }.
End OrderAction.
Definition OrderAction : Type := OrderAction.obj.

(** *** orderTypeToWire *)

Definition orderTypeToWire (orderType : OrderType) : result OrderTypeWire :=
  if has_key (OrderType.limit orderType) then
    Ok (OrderTypeWire.mk (property (get (OrderType.limit orderType))) Absent)
  else
    match OrderType.trigger orderType with
    | Present trigger =>
        px <- floatToWire (TriggerOrderType.triggerPx trigger) ;;
        Ok (OrderTypeWire.mk Absent
              (Present (TriggerOrderTypeWire.mk px
                          (TriggerOrderType.isMarket trigger)
                          (TriggerOrderType.tpsl trigger))))
    | _ => Throw "Invalid order type"
    end.

(** *** orderRequestToOrderWire *)

(** [if (order.cloid)]: a Cloid object is truthy, [null] and [undefined] are
    not. *)
Definition truthy_cloid (o : optional (option Cloid)) : option Cloid :=
  match o with
  | Present (Some cl) => Some cl
  | _ => None
  end.

Definition orderRequestToOrderWire (order : OrderRequest) (asset : number)
  : result OrderWire :=
  p <- floatToWire (OrderRequest.limit_px order) ;;
  s <- floatToWire (OrderRequest.sz order) ;;
  t <- orderTypeToWire (OrderRequest.order_type order) ;;
  let orderWire :=
    OrderWire.mk asset (OrderRequest.is_buy order) p s
      (OrderRequest.reduce_only order) t Absent in
  match truthy_cloid (OrderRequest.cloid order) with
  | Some cl =>
      Ok (OrderWire.mk (OrderWire.a orderWire) (OrderWire.b orderWire)
            (OrderWire.p orderWire) (OrderWire.s orderWire)
            (OrderWire.r orderWire) (OrderWire.t orderWire)
            (Present (toRaw cl)))
  | None => Ok orderWire
  end.

(** *** orderWiresToOrderAction *)

Definition orderWiresToOrderAction (orderWires : list OrderWire) : OrderAction :=
  OrderAction.mk "order" orderWires "na".

(** The names the specification gives the three failures. *)
Definition PrecisionLoss : string := "floatToWire causes rounding".
Definition InvalidOrderType : string := "Invalid order type".
Definition InvalidCloidFormat (msg : string) : Prop :=
  msg = "cloid is not a hex string" \/ msg = "cloid is not 16 bytes".

(** The request of the example ([orderRequest] and [assetId]). *)
Definition orderRequest : OrderRequest :=
  OrderRequest.mk "BTC" true (of_decimal false 1 (-3)) (of_decimal false 9 4)
    (OrderType.mk (Present (mkLimit Gtc)) Absent) false Absent.

Definition assetId : number := of_decimal false 0 0.

(** ** Statements *)

(** A variant of an order type is populated when its property holds a value. *)
Definition populated {A : Type} (o : optional A) : Prop := get o <> None.

(** The grouping modes of an action. *)
Definition grouping_modes : list string := ["na"; "normalTpsl"; "positionTpsl"].

Definition is_hex (c : ascii) : bool :=
  let n := nat_of_ascii c in
  is_digit c || ((97 <=? n)%nat && (n <=? 102)%nat)
  || ((65 <=? n)%nat && (n <=? 70)%nat).

Fixpoint all_hex (s : string) : bool :=
  match s with
  | EmptyString => true
  | String c r => is_hex c && all_hex r
  end.

(** The format the specification gives a Cloid: the prefix and a payload of
    exactly 32 hexadecimal characters. *)
Definition cloid_format (s : string) : bool :=
  startsWith "0x" s && (String.length (slice 2 s) =? 32)%nat && all_hex (slice 2 s).

(** The format the constructor validates: the prefix and a payload of 32
    characters. *)
Definition cloid_shape (s : string) : bool :=
  startsWith "0x" s && (String.length (slice 2 s) =? 32)%nat.

(** The part of a numeral before its exponent marker. *)
Fixpoint mantissa (s : string) : string :=
  match s with
  | EmptyString => EmptyString
  | String c r => if is_e c then EmptyString else String c (mantissa r)
  end.

Fixpoint has_char (a : ascii) (s : string) : bool :=
  match s with
  | EmptyString => false
  | String c r => Ascii.eqb c a || has_char a r
  end.



Fixpoint all_zero (s : string) : bool :=
  match s with
  | EmptyString => true
  | String c r => (Ascii.eqb c "0" || Ascii.eqb c ".") && all_zero r
  end.

(** A negative-zero artifact: a minus sign before a mantissa whose digits
    are all 0. *)
Definition neg_zero_artifact (s : string) : bool :=
  match s with
  | String "-" r => all_zero (mantissa r)
  | _ => false
  end.

(** A numeral in exponent notation. *)
Definition has_exponent (s : string) : bool := has_char "e" s.



(** The guard of [floatToWire]: the rounded text, parsed back, is 1e-12 or
    more away from the number. *)
Definition tolerance_exceeded (x : number) : bool :=
  Number.geb (Number.abs (Number.sub (parseFloat (toFixed8 x)) x))
             (of_decimal false 1 (-12)).

(** [x * 10^8] is an integer: the finite number [x] is written exactly with
    at most eight fractional decimal digits. *)
Definition exact8 (x : number) : bool :=
  match x with
  | Fin _ m e => if 0 <=? e then true else (m * 10 ^ 8) mod 2 ^ (- e) =? 0
  | _ => false
  end.

(** The Number [0]. *)
Definition zero : number := of_decimal false 0 0.

(** ** Auxiliary definitions *)

(** [l] is the binary order of magnitude of [p / q]. *)
Definition magnitude (p q l : Z) : Prop :=
  (0 <= l /\ q * 2 ^ l <= p < q * 2 ^ (l + 1))
  \/ (l < 0 /\ q <= p * 2 ^ (- l) /\ p * 2 ^ (- l - 1) < q).

Definition digit_ok (d : Z) : Prop := 0 <= d <= 9.

(** A string that does not go on with a digit. *)
Definition starts_nondigit (s : string) : Prop :=
  match s with
  | String c _ => is_digit c = false
  | EmptyString => True
  end.

Definition sign_string (neg : bool) : string := if neg then "-" else EmptyString.

Definition render_exponent (ex : option Z) : string :=
  match ex with
  | Some x => (if x <? 0 then "e" else "e+") ++ string_of_Z x
  | None => EmptyString
  end.

Definition render_fraction (fp : option (list Z)) : string :=
  match fp with
  | Some f => "." ++ string_of_digits f
  | None => EmptyString
  end.

(** The numeral of integer digits, optional fraction digits and an optional
    exponent. *)
Definition render (ip : list Z) (fp : option (list Z)) (ex : option Z) : string :=
  string_of_digits ip ++ render_fraction fp ++ render_exponent ex.

Definition fraction_digits (fp : option (list Z)) : list Z :=
  match fp with Some f => f | None => [] end.

Definition exponent_value (ex : option Z) : Z :=
  match ex with Some x => x | None => 0 end.

(** A fraction that does not end with a zero digit (and is not empty). *)
Definition fraction_trimmed (fp : option (list Z)) : Prop :=
  fp = None \/ exists body x, fp = Some (body ++ [x])%list /\ x <> 0.

(** [out] is the numeral [ip.fp e ex] with the sign [neg]; it denotes
    [c0 * 10^k0] up to a padding of [z] zeros. *)
Definition prints (out : string) (neg : bool) (c0 k0 : Z) : Prop :=
  exists (ip : list Z) (fp : option (list Z)) (ex : option Z) (z : Z),
    out = sign_string neg ++ render ip fp ex
    /\ ip <> [] /\ Forall digit_ok ip /\ Forall digit_ok (fraction_digits fp)
    /\ 0 <= z
    /\ value_of_digits (ip ++ fraction_digits fp) = c0 * 10 ^ z
    /\ exponent_value ex - Z.of_nat (List.length (fraction_digits fp)) + z = k0
    /\ fraction_trimmed fp.

(** [x] with the sign [neg]. *)
Definition with_sign (neg : bool) (x : number) : number :=
  match x with
  | NaN => NaN
  | Inf _ => Inf neg
  | Fin _ m e => Fin neg m e
  end.

(** What [shortest_from] keeps: [k] digits [s] and the exponent [n] of a
    decimal that rounds to [x]. *)
Definition shortest_ok (x : number) (d : Z) (r : Z * Z * Z) : Prop :=
  let '(s, k, n) := r in
  1 <= k /\ 0 <= s < 10 ^ k /\ k <= n <= d + 1
  /\ Number.eqb (fl false (s * 10 ^ (n - k)) 1) x = true.

(** The case [x >= 10^21] of [toFixed]. *)
Definition is_large (m e : Z) : bool := (0 <=? e) && (10 ^ 21 <=? m * 2 ^ e).

(** What [floatToWire] does with the finite number [x = Fin neg m e], whose
    [toFixed(8)] is a numeral of the decimal [c * 10^k] with the sign [sg]:
    it throws when the tolerance is exceeded and prints the decimal
    otherwise. *)
Definition encodes (neg : bool) (m e : Z) (sg : bool) (c k : Z) : Prop :=
  let x := Fin neg m e in
  exists (ip : list Z) (fp : option (list Z)) (ex : option Z),
    toFixed8 x = sign_string sg ++ render ip fp ex
    /\ ip <> [] /\ Forall digit_ok ip /\ Forall digit_ok (fraction_digits fp)
    /\ c = value_of_digits (ip ++ fraction_digits fp)
    /\ k = exponent_value ex - Z.of_nat (List.length (fraction_digits fp))
    /\ 0 <= c /\ sg = neg && (0 <? m)
    /\ (if is_large m e
        then Number.eqb (of_decimal false c k) (Fin false m e) = true
        else c = scaled8 m e /\ k = -8)
    /\ exists out c0 t,
         floatToWire x
         = (if tolerance_exceeded x then Throw PrecisionLoss else Ok out)
         /\ 0 <= c0 /\ 0 <= t /\ c = c0 * 10 ^ t
         /\ prints out (sg && negb (c =? 0)) c0 (k + t).

(** The value of a hexadecimal digit. *)
Definition hex_val (c : ascii) : Z :=
  let n := Z.of_nat (nat_of_ascii c) in
  if is_digit c then n - 48 else if 97 <=? n then n - 87 else n - 55.

(** The integer a hexadecimal numeral denotes, most significant digit
    first, after the value [acc] of the digits read so far. *)
Fixpoint hex_value_from (acc : Z) (s : string) : Z :=
  match s with
  | EmptyString => acc
  | String c r => hex_value_from (16 * acc + hex_val c) r
  end.

Definition hex_value (s : string) : Z := hex_value_from 0 s.


(** The order request [order] with the property [cloid] replaced. *)
Definition set_cloid (order : OrderRequest) (cl : optional (option Cloid))
  : OrderRequest :=
  OrderRequest.mk (OrderRequest.coin order) (OrderRequest.is_buy order)
    (OrderRequest.sz order) (OrderRequest.limit_px order)
    (OrderRequest.order_type order) (OrderRequest.reduce_only order) cl.

(** The wire record [w] with the property [c] replaced. *)
Definition set_c (w : OrderWire) (c : optional string) : OrderWire :=
  OrderWire.mk (OrderWire.a w) (OrderWire.b w) (OrderWire.p w) (OrderWire.s w)
    (OrderWire.r w) (OrderWire.t w) c.

(** The numbers of an order type are doubles. *)
Definition wf_order_type (orderType : OrderType) : Prop :=
  match OrderType.trigger orderType with
  | Present trigger => wf (TriggerOrderType.triggerPx trigger)
  | _ => True
  end.

(** The numbers of an order request are doubles. *)
Definition wf_order (order : OrderRequest) : Prop :=
  wf (OrderRequest.limit_px order) /\ wf (OrderRequest.sz order)
  /\ wf_order_type (OrderRequest.order_type order).

Example lit_0_001 : of_decimal false 1 (-3) = Fin false 4611686018427388 (-62).
Proof. vm_compute. reflexivity. Qed.

(** ** Rounding to nearest *)

Section Rounding.

Lemma pow2_pos (k : Z) : 0 <= k -> 0 < 2 ^ k.
Proof. intros. apply Z.pow_pos_nonneg; lia. Qed.

Lemma pow2_split (i j : Z) : 0 <= i -> 0 <= j -> 2 ^ (i + j) = 2 ^ i * 2 ^ j.
Proof. intros. apply Z.pow_add_r; lia. Qed.

Lemma pow2_succ (k : Z) : 0 <= k -> 2 ^ (k + 1) = 2 * 2 ^ k.
Proof. intros. rewrite pow2_split by lia. change (2 ^ 1) with 2. lia. Qed.

Lemma pow2_le_mono (i j : Z) : 0 <= i <= j -> 2 ^ i <= 2 ^ j.
Proof. intros. apply Z.pow_le_mono_r; lia. Qed.

Lemma pow2_lt_mono (i j : Z) : 0 <= i < j -> 2 ^ i < 2 ^ j.
Proof. intros. apply Z.pow_lt_mono_r; lia. Qed.

(** [rne_div a b] is within one half of [a / b]. *)
Lemma rne_div_bound (a b : Z) :
  0 < b -> - b <= 2 * (rne_div a b * b - a) <= b.
Proof.
  intros Hb. unfold rne_div.
  pose proof (Z.div_mod a b ltac:(lia)) as Hdm.
  pose proof (Z.mod_pos_bound a b Hb) as Hr.
  destruct (2 * (a mod b) <? b) eqn:H1; [apply Z.ltb_lt in H1; nia |].
  apply Z.ltb_ge in H1.
  destruct (b <? 2 * (a mod b)) eqn:H2; [apply Z.ltb_lt in H2; nia |].
  apply Z.ltb_ge in H2.
  destruct (Z.even (a / b)); nia.
Qed.

(** The only integer strictly within one half of [a / b] is [rne_div a b]. *)
Lemma rne_div_unique (a b m : Z) :
  0 < b -> - b < 2 * (m * b - a) < b -> rne_div a b = m.
Proof.
  intros Hb Hm. pose proof (rne_div_bound a b Hb) as Hr.
  assert (- 2 * b < 2 * ((rne_div a b - m) * b) < 2 * b) by lia.
  assert (-1 < rne_div a b - m < 1) by nia.
  lia.
Qed.

Lemma rne_div_exact (m b : Z) : 0 < b -> rne_div (m * b) b = m.
Proof. intros. apply rne_div_unique; lia. Qed.

Lemma rne_div_scale (a b t : Z) :
  0 < b -> 0 < t -> rne_div (a * t) (b * t) = rne_div a b.
Proof.
  intros Hb Ht. unfold rne_div.
  rewrite Z.div_mul_cancel_r by lia.
  rewrite Z.mul_mod_distr_r by lia.
  assert (E1 : (2 * (a mod b * t) <? b * t) = (2 * (a mod b) <? b)).
  { destruct (2 * (a mod b) <? b) eqn:E.
    - apply Z.ltb_lt in E. apply Z.ltb_lt. nia.
    - apply Z.ltb_ge in E. apply Z.ltb_ge. nia. }
  assert (E2 : (b * t <? 2 * (a mod b * t)) = (b <? 2 * (a mod b))).
  { destruct (b <? 2 * (a mod b)) eqn:E.
    - apply Z.ltb_lt in E. apply Z.ltb_lt. nia.
    - apply Z.ltb_ge in E. apply Z.ltb_ge. nia. }
  rewrite E1, E2. reflexivity.
Qed.

Lemma rne_div_nonneg (a b : Z) : 0 <= a -> 0 < b -> 0 <= rne_div a b.
Proof.
  intros Ha Hb. pose proof (rne_div_bound a b Hb). nia.
Qed.

Lemma rne_div_mono_ge (a b m : Z) :
  0 < b -> m * b <= a -> m <= rne_div a b.
Proof.
  intros Hb Hm. pose proof (rne_div_bound a b Hb) as Hr.
  assert (2 * ((m - rne_div a b) * b) <= b) by lia.
  assert (m - rne_div a b < 1) by nia. lia.
Qed.

Lemma rne_div_mono_le (a b m : Z) :
  0 < b -> a <= m * b -> rne_div a b <= m.
Proof.
  intros Hb Hm. pose proof (rne_div_bound a b Hb) as Hr.
  assert (2 * ((rne_div a b - m) * b) <= b) by lia.
  assert (rne_div a b - m < 1) by nia. lia.
Qed.

Lemma floor_log2_spec (p q : Z) :
  0 < p -> 0 < q -> magnitude p q (floor_log2 p q).
Proof.
  intros Hp Hq. unfold floor_log2, shift_ratio, magnitude.
  pose proof (Z.log2_spec p Hp) as [Hp1 Hp2].
  pose proof (Z.log2_spec q Hq) as [Hq1 Hq2].
  pose proof (Z.log2_nonneg p) as Hlp.
  pose proof (Z.log2_nonneg q) as Hlq.
  rewrite <- Z.add_1_r in Hp2, Hq2.
  set (lp := Z.log2 p) in *. set (lq := Z.log2 q) in *.
  rewrite pow2_succ in Hp2, Hq2 by lia.
  pose proof (pow2_pos lp Hlp) as Plp. pose proof (pow2_pos lq Hlq) as Plq.
  destruct (0 <=? lp - lq) eqn:Hd.
  - apply Z.leb_le in Hd.
    assert (Hs : 2 ^ lp = 2 ^ lq * 2 ^ (lp - lq)).
    { rewrite <- pow2_split by lia. f_equal. lia. }
    pose proof (pow2_pos (lp - lq) Hd) as Pd.
    destruct (q * 2 ^ (lp - lq) <=? p) eqn:Ht.
    + apply Z.leb_le in Ht. left. rewrite pow2_succ by lia. nia.
    + apply Z.leb_gt in Ht.
      destruct (Z.eq_dec (lp - lq) 0) as [E0 | E0].
      * right. rewrite E0 in *. change (2 ^ 0) with 1 in *.
        replace (- (0 - 1)) with 1 by lia. replace (- (0 - 1) - 1) with 0 by lia.
        change (2 ^ 1) with 2. change (2 ^ 0) with 1. nia.
      * left. replace (lp - lq - 1 + 1) with (lp - lq) by lia.
        assert (Hs' : 2 ^ (lp - lq) = 2 * 2 ^ (lp - lq - 1)).
        { rewrite <- pow2_succ by lia. f_equal. lia. }
        pose proof (pow2_pos (lp - lq - 1) ltac:(lia)). nia.
  - apply Z.leb_gt in Hd.
    assert (Hs : 2 ^ lq = 2 ^ lp * 2 ^ (- (lp - lq))).
    { rewrite <- pow2_split by lia. f_equal. lia. }
    pose proof (pow2_pos (- (lp - lq)) ltac:(lia)) as Pd.
    assert (Hs' : 2 ^ (- (lp - lq)) = 2 * 2 ^ (- (lp - lq) - 1)).
    { rewrite <- pow2_succ by lia. f_equal. lia. }
    pose proof (pow2_pos (- (lp - lq) - 1) ltac:(lia)).
    destruct (q <=? p * 2 ^ (- (lp - lq))) eqn:Ht.
    + apply Z.leb_le in Ht. right. nia.
    + apply Z.leb_gt in Ht. right.
      replace (- (lp - lq - 1)) with (- (lp - lq) + 1) by lia.
      replace (- (lp - lq) + 1 - 1) with (- (lp - lq)) by lia.
      rewrite pow2_succ by lia. nia.
Qed.

Lemma magnitude_lt (p q l1 l2 : Z) :
  0 < p -> 0 < q -> magnitude p q l1 -> magnitude p q l2 -> ~ l1 < l2.
Proof.
  intros Hp Hq [[H1 B1] | [H1 [B1 B1']]] [[H2 B2] | [H2 [B2 B2']]] Hlt; try lia.
  - pose proof (pow2_le_mono (l1 + 1) l2 ltac:(lia)).
    pose proof (pow2_pos (l1 + 1) ltac:(lia)). nia.
  - pose proof (pow2_pos l2 ltac:(lia)).
    pose proof (pow2_pos (- l1 - 1) ltac:(lia)). nia.
  - pose proof (pow2_le_mono (- l2) (- l1 - 1) ltac:(lia)).
    pose proof (pow2_pos (- l2) ltac:(lia)). nia.
Qed.

Lemma magnitude_unique (p q l1 l2 : Z) :
  0 < p -> 0 < q -> magnitude p q l1 -> magnitude p q l2 -> l1 = l2.
Proof.
  intros Hp Hq H1 H2.
  pose proof (magnitude_lt p q l1 l2 Hp Hq H1 H2).
  pose proof (magnitude_lt p q l2 l1 Hp Hq H2 H1).
  lia.
Qed.

Lemma floor_log2_unique (p q l : Z) :
  0 < p -> 0 < q -> magnitude p q l -> floor_log2 p q = l.
Proof.
  intros Hp Hq H.
  apply (magnitude_unique p q); auto using floor_log2_spec.
Qed.

Lemma magnitude_scale (p q t l : Z) :
  0 < t -> magnitude p q l -> magnitude (p * t) (q * t) l.
Proof.
  intros Ht [[H B] | [H [B B']]]; [left | right]; split; try lia; nia.
Qed.

Lemma floor_log2_scale (p q t : Z) :
  0 < p -> 0 < q -> 0 < t -> floor_log2 (p * t) (q * t) = floor_log2 p q.
Proof.
  intros Hp Hq Ht. apply floor_log2_unique; try nia.
  apply magnitude_scale; auto using floor_log2_spec.
Qed.

Lemma shift_ratio_scale (p q t e : Z) :
  shift_ratio (p * t) (q * t) e =
    (fst (shift_ratio p q e) * t, snd (shift_ratio p q e) * t).
Proof.
  unfold shift_ratio. destruct (0 <=? e); simpl; f_equal; ring.
Qed.

Lemma shift_ratio_pos (p q e : Z) :
  0 < p -> 0 < q -> 0 < fst (shift_ratio p q e) /\ 0 < snd (shift_ratio p q e).
Proof.
  intros Hp Hq. unfold shift_ratio.
  destruct (0 <=? e) eqn:He; simpl.
  - apply Z.leb_le in He. pose proof (pow2_pos e He). nia.
  - apply Z.leb_gt in He. pose proof (pow2_pos (- e) ltac:(lia)). nia.
Qed.

(** [fl] is a function of the rational [p / q]. *)
Lemma fl_scale (neg : bool) (p q t : Z) :
  0 <= p -> 0 < q -> 0 < t -> fl neg (p * t) (q * t) = fl neg p q.
Proof.
  intros Hp Hq Ht. unfold fl.
  destruct (p =? 0) eqn:E0.
  - apply Z.eqb_eq in E0. subst p. reflexivity.
  - apply Z.eqb_neq in E0.
    assert (Hpt : (p * t =? 0) = false) by (apply Z.eqb_neq; nia).
    rewrite Hpt, floor_log2_scale by lia.
    rewrite shift_ratio_scale.
    destruct (shift_ratio_pos p q (Z.max (floor_log2 p q - 52) emin)
                ltac:(lia) Hq) as [Ha Hb].
    destruct (shift_ratio p q (Z.max (floor_log2 p q - 52) emin)) as [a b].
    simpl in *. rewrite rne_div_scale by lia. reflexivity.
Qed.

(** The result of [fl] once the magnitude is known. *)
Lemma fl_at (neg : bool) (p q l m : Z) :
  0 < p -> 0 < q -> magnitude p q l ->
  rne_div (fst (shift_ratio p q (Z.max (l - 52) emin)))
          (snd (shift_ratio p q (Z.max (l - 52) emin))) = m ->
  m <> 2 ^ 53 -> Z.max (l - 52) emin <= emax ->
  fl neg p q = Fin neg m (Z.max (l - 52) emin).
Proof.
  intros Hp Hq Hl Hm H53 He. unfold fl.
  assert (Hp0 : (p =? 0) = false) by (apply Z.eqb_neq; lia).
  rewrite Hp0, (floor_log2_unique p q l) by assumption.
  destruct (shift_ratio p q (Z.max (l - 52) emin)) as [a b]. simpl in Hm.
  rewrite Hm.
  assert (E : (m =? 2 ^ 53) = false) by (apply Z.eqb_neq; assumption).
  rewrite E.
  assert (E' : (emax <? Z.max (l - 52) emin) = false)
    by (apply Z.ltb_ge; assumption).
  rewrite E'. reflexivity.
Qed.

Lemma canonical_iff (m e : Z) : canonicalb m e = true <-> canonical m e.
Proof.
  unfold canonicalb, canonical. rewrite Bool.orb_true_iff.
  rewrite !Bool.andb_true_iff, Z.eqb_eq, !Z.leb_le, !Z.ltb_lt. tauto.
Qed.

(** A double is the Number value of the dyadic it denotes. *)
Lemma of_dyadic_exact (neg : bool) (m e : Z) :
  canonical m e -> of_dyadic neg m e = Fin neg m e.
Proof.
  intros Hc. unfold of_dyadic.
  destruct (Z.eq_dec m 0) as [-> | Hm0].
  { assert (e = emin) by (destruct Hc as [[? ?] | [? ?]]; [assumption | lia]).
    subst e. reflexivity. }
  assert (Hm : 0 < m) by (destruct Hc as [[? ?] | [? ?]]; lia).
  assert (Hemin : emin <= e <= emax)
    by (destruct Hc as [[? ?] | [? ?]]; unfold emin, emax in *; lia).
  assert (Hm53 : m < 2 ^ 53) by (destruct Hc as [[? ?] | [? ?]]; lia).
  destruct Hc as [[He Hs] | [He Hn]].
  - (* subnormal *)
    subst e. change (0 <=? emin) with false. cbv iota.
    assert (Hq : 0 < 2 ^ (- emin)) by (apply pow2_pos; unfold emin; lia).
    pose proof (floor_log2_spec m (2 ^ (- emin)) Hm Hq) as Hl.
    set (l := floor_log2 m (2 ^ (- emin))) in *.
    assert (Hle : l - 52 <= emin).
    { destruct Hl as [[H B] | [H [B B']]].
      - pose proof (pow2_pos l H).
        pose proof (pow2_le_mono 52 (- emin) ltac:(unfold emin; lia)). nia.
      - destruct (Z_le_gt_dec (l - 52) emin) as [? | Hgt]; [assumption |].
        exfalso.
        assert (Hpw : 2 ^ (- emin) = 2 ^ 52 * 2 ^ (- l) * 2 ^ (- emin - 52 + l)).
        { rewrite <- !pow2_split; unfold emin in *; try lia. f_equal. lia. }
        pose proof (pow2_pos (- l) ltac:(lia)).
        pose proof (pow2_pos (- emin - 52 + l) ltac:(unfold emin in *; lia)).
        nia. }
    replace emin with (Z.max (l - 52) emin) at 2 by lia.
    apply fl_at; try assumption; try lia.
    replace (Z.max (l - 52) emin) with emin by lia.
    unfold shift_ratio. change (0 <=? emin) with false. cbn [fst snd].
    apply rne_div_exact. assumption.
  - (* normal *)
    assert (H53 : 2 ^ 53 = 2 * 2 ^ 52) by reflexivity.
    destruct (0 <=? e) eqn:Hse.
    + pose proof Hse as Hse'. apply Z.leb_le in Hse'.
      pose proof (pow2_pos e Hse') as Pe.
      replace e with (Z.max ((52 + e) - 52) emin) at 2
        by (unfold emin; lia).
      apply fl_at.
      * nia.
      * lia.
      * left. split; [lia |].
        rewrite pow2_succ, pow2_split by lia. nia.
      * replace (Z.max (52 + e - 52) emin) with e by (unfold emin; lia).
        unfold shift_ratio. rewrite Hse. cbn [fst snd].
        rewrite Z.mul_1_l. apply rne_div_exact. assumption.
      * lia.
      * unfold emin, emax in *; lia.
    + pose proof Hse as Hse'. apply Z.leb_gt in Hse'.
      pose proof (pow2_pos (- e) ltac:(lia)) as Pe.
      replace e with (Z.max ((52 + e) - 52) emin) at 2
        by (unfold emin in *; lia).
      apply fl_at.
      * lia.
      * lia.
      * destruct (Z_le_gt_dec 0 (52 + e)).
        -- left. split; [assumption |].
           rewrite pow2_succ by lia.
           assert (Hpw : 2 ^ 52 = 2 ^ (- e) * 2 ^ (52 + e)).
           { rewrite <- pow2_split by lia. f_equal. lia. }
           nia.
        -- right. split; [lia |].
           assert (Hpw : 2 ^ (- e) = 2 ^ 52 * 2 ^ (- (52 + e))).
           { rewrite <- pow2_split by lia. f_equal. lia. }
           assert (Hpw' : 2 ^ (- (52 + e)) = 2 * 2 ^ (- (52 + e) - 1)).
           { rewrite <- pow2_succ by lia. f_equal. lia. }
           pose proof (pow2_pos (- (52 + e) - 1) ltac:(lia)).
           nia.
      * replace (Z.max (52 + e - 52) emin) with e by (unfold emin in *; lia).
        unfold shift_ratio. rewrite Hse. cbn [fst snd].
        apply rne_div_exact. assumption.
      * lia.
      * unfold emin, emax in *; lia.
Qed.

Lemma magnitude_shift_num (p q l t : Z) :
  0 <= t -> magnitude p q l -> magnitude (p * 2 ^ t) q (l + t).
Proof.
  intros Ht [[H [B B']] | [H [B B']]].
  - left. split; [lia |].
    replace (l + t + 1) with (l + 1 + t) by lia.
    rewrite (pow2_split l t), (pow2_split (l + 1) t) by lia.
    pose proof (pow2_pos t Ht).
    set (T := 2 ^ t) in *. set (A := 2 ^ l) in *. set (A' := 2 ^ (l + 1)) in *.
    split; nia.
  - pose proof (pow2_pos t Ht) as Pt.
    pose proof (pow2_pos (- l - 1) ltac:(lia)) as Pl.
    assert (Hl : 2 ^ (- l) = 2 * 2 ^ (- l - 1)).
    { rewrite <- pow2_succ by lia. f_equal. lia. }
    destruct (Z_le_gt_dec 0 (l + t)).
    + left. split; [lia |].
      assert (Hs : 2 ^ t = 2 ^ (- l) * 2 ^ (l + t)).
      { rewrite <- pow2_split by lia. f_equal. lia. }
      rewrite pow2_succ by lia.
      pose proof (pow2_pos (l + t) ltac:(lia)). nia.
    + right. split; [lia |].
      assert (Hs : 2 ^ (- l) = 2 ^ t * 2 ^ (- (l + t))).
      { rewrite <- pow2_split by lia. f_equal. lia. }
      assert (Hs' : 2 ^ (- (l + t)) = 2 * 2 ^ (- (l + t) - 1)).
      { rewrite <- pow2_succ by lia. f_equal. lia. }
      pose proof (pow2_pos (- (l + t) - 1) ltac:(lia)). nia.
Qed.

Lemma magnitude_shift_den (p q l t : Z) :
  0 <= t -> magnitude p q l -> magnitude p (q * 2 ^ t) (l - t).
Proof.
  intros Ht [[H [B B']] | [H [B B']]].
  - pose proof (pow2_pos t Ht) as Pt.
    pose proof (pow2_pos l H) as Pl.
    rewrite pow2_succ in B' by lia.
    destruct (Z_le_gt_dec 0 (l - t)).
    + left. split; [lia |].
      assert (Hs : 2 ^ l = 2 ^ t * 2 ^ (l - t)).
      { rewrite <- pow2_split by lia. f_equal. lia. }
      rewrite pow2_succ by lia.
      pose proof (pow2_pos (l - t) ltac:(lia)). nia.
    + right. split; [lia |].
      assert (Hs : 2 ^ t = 2 ^ l * 2 ^ (- (l - t))).
      { rewrite <- pow2_split by lia. f_equal. lia. }
      assert (Hs' : 2 ^ (- (l - t)) = 2 * 2 ^ (- (l - t) - 1)).
      { rewrite <- pow2_succ by lia. f_equal. lia. }
      pose proof (pow2_pos (- (l - t) - 1) ltac:(lia)). nia.
  - right. split; [lia |].
    pose proof (pow2_pos t Ht) as Pt.
    pose proof (pow2_pos (- l - 1) ltac:(lia)) as Pl.
    assert (Hs : 2 ^ (- (l - t)) = 2 ^ (- l) * 2 ^ t).
    { rewrite <- pow2_split by lia. f_equal. lia. }
    assert (Hs' : 2 ^ (- (l - t) - 1) = 2 ^ (- l - 1) * 2 ^ t).
    { rewrite <- pow2_split by lia. f_equal. lia. }
    nia.
Qed.

(** Dividing by [2^e] lowers the magnitude by [e]. *)
Lemma magnitude_shift_ratio (p q l e : Z) :
  magnitude p q l ->
  magnitude (fst (shift_ratio p q e)) (snd (shift_ratio p q e)) (l - e).
Proof.
  intros H. unfold shift_ratio. destruct (0 <=? e) eqn:He; cbn [fst snd].
  - apply Z.leb_le in He. apply magnitude_shift_den; assumption.
  - apply Z.leb_gt in He. replace (l - e) with (l + - e) by lia.
    apply magnitude_shift_num; [lia | assumption].
Qed.

(** What [fl] returns for a positive fraction: the rounded significand at
    the exponent of the magnitude, renormalised when it rounds up to [2^53]. *)
Lemma fl_cases (neg : bool) (p q : Z) :
  0 < p -> 0 < q ->
  let e0 := Z.max (floor_log2 p q - 52) emin in
  let m0 := rne_div (fst (shift_ratio p q e0)) (snd (shift_ratio p q e0)) in
  (m0 <> 2 ^ 53 /\ fl neg p q = if emax <? e0 then Inf neg else Fin neg m0 e0)
  \/ (m0 = 2 ^ 53
      /\ fl neg p q = if emax <? e0 + 1 then Inf neg else Fin neg (2 ^ 52) (e0 + 1)).
Proof.
  intros Hp Hq e0 m0. unfold fl.
  assert (Hp0 : (p =? 0) = false) by (apply Z.eqb_neq; lia).
  rewrite Hp0. fold e0.
  destruct (shift_ratio p q e0) as [a b] eqn:Es. cbn [fst snd] in m0.
  fold m0. destruct (m0 =? 2 ^ 53) eqn:E.
  - right. apply Z.eqb_eq in E. split; [assumption | reflexivity].
  - left. apply Z.eqb_neq in E. split; [assumption | reflexivity].
Qed.

(** The significand [fl] rounds to lies in the range of its exponent. *)
Lemma fl_significand (p q : Z) :
  0 < p -> 0 < q ->
  let l := floor_log2 p q in
  let e0 := Z.max (l - 52) emin in
  let m0 := rne_div (fst (shift_ratio p q e0)) (snd (shift_ratio p q e0)) in
  0 <= m0 <= 2 ^ 53 /\ (emin <= l - 52 -> 2 ^ 52 <= m0)
  /\ (l - 52 < emin -> m0 <= 2 ^ 52).
Proof.
  intros Hp Hq l e0 m0.
  pose proof (floor_log2_spec p q Hp Hq) as Hl. fold l in Hl.
  pose proof (magnitude_shift_ratio p q l e0 Hl) as Hm.
  destruct (shift_ratio_pos p q e0 Hp Hq) as [Ha Hb].
  subst m0.
  destruct (shift_ratio p q e0) as [a b]. cbn [fst snd] in *.
  assert (H53 : 2 ^ 53 = 2 * 2 ^ 52) by reflexivity.
  destruct (Z_le_gt_dec emin (l - 52)) as [Hn | Hs].
  - replace (l - e0) with 52 in Hm by lia.
    destruct Hm as [[_ [B B']] | [? _]]; [| lia].
    change (2 ^ (52 + 1)) with (2 ^ 53) in B'.
    pose proof (rne_div_mono_ge a b (2 ^ 52) Hb ltac:(lia)).
    pose proof (rne_div_mono_le a b (2 ^ 53) Hb ltac:(lia)).
    lia.
  - assert (Hlt : l - e0 < 52) by lia.
    assert (Hab : a < b * 2 ^ 52).
    { destruct Hm as [[H0 [B B']] | [H0 [B B']]].
      - pose proof (pow2_le_mono (l - e0 + 1) 52 ltac:(lia)). nia.
      - pose proof (pow2_pos (- (l - e0) - 1) ltac:(lia)). nia. }
    pose proof (rne_div_mono_le a b (2 ^ 52) Hb ltac:(lia)).
    pose proof (rne_div_nonneg a b ltac:(lia) Hb).
    lia.
Qed.

(** [fl] returns a double in canonical form. *)
Lemma fl_wf (neg : bool) (p q : Z) : 0 <= p -> 0 < q -> wf (fl neg p q).
Proof.
  intros Hp Hq.
  destruct (Z.eq_dec p 0) as [-> | Hp0].
  { simpl. left. split; [reflexivity | lia]. }
  pose proof (fl_significand p q ltac:(lia) Hq) as [Hr [Hn Hs]].
  destruct (fl_cases neg p q ltac:(lia) Hq) as [[H53 ->] | [H53 ->]];
    cbv zeta in *.
  - destruct (emax <? _) eqn:E; [exact I |]. apply Z.ltb_ge in E.
    simpl. unfold canonical.
    destruct (Z_le_gt_dec emin (floor_log2 p q - 52)).
    + right. lia.
    + destruct (Z.eq_dec
        (rne_div (fst (shift_ratio p q (Z.max (floor_log2 p q - 52) emin)))
                 (snd (shift_ratio p q (Z.max (floor_log2 p q - 52) emin))))
        (2 ^ 52)) as [E52 | E52].
      * right. rewrite E52. unfold emin, emax in *. lia.
      * left. lia.
  - destruct (emax <? _) eqn:E; [exact I |]. apply Z.ltb_ge in E.
    simpl. right. unfold emin, emax in *. lia.
Qed.

Lemma of_decimal_wf (neg : bool) (c k : Z) : 0 <= c -> wf (of_decimal neg c k).
Proof.
  intros Hc. unfold of_decimal. destruct (0 <=? k) eqn:E.
  - apply Z.leb_le in E. apply fl_wf; [| lia].
    pose proof (Z.pow_pos_nonneg 10 k ltac:(lia) E). nia.
  - apply Z.leb_gt in E. apply fl_wf; [lia |].
    apply Z.pow_pos_nonneg; lia.
Qed.

(** The Number value of a decimal depends on its value only. *)
Lemma of_decimal_shift (neg : bool) (c k j : Z) :
  0 <= c -> 0 <= j -> of_decimal neg (c * 10 ^ j) k = of_decimal neg c (k + j).
Proof.
  intros Hc Hj. unfold of_decimal.
  pose proof (Z.pow_pos_nonneg 10 j ltac:(lia) Hj) as Pj.
  destruct (0 <=? k) eqn:Ek.
  - apply Z.leb_le in Ek.
    assert (E : (0 <=? k + j) = true) by (apply Z.leb_le; lia).
    rewrite E. f_equal. rewrite Z.pow_add_r by lia. ring.
  - apply Z.leb_gt in Ek. destruct (0 <=? k + j) eqn:E.
    + apply Z.leb_le in E.
      assert (Hs : 10 ^ j = 10 ^ (k + j) * 10 ^ (- k)).
      { rewrite <- Z.pow_add_r by lia. f_equal. lia. }
      rewrite Hs, Z.mul_assoc.
      rewrite <- (Z.mul_1_l (10 ^ (- k))) at 2.
      pose proof (Z.pow_pos_nonneg 10 (k + j) ltac:(lia) E).
      pose proof (Z.pow_pos_nonneg 10 (- k) ltac:(lia) ltac:(lia)).
      apply fl_scale; nia.
    + apply Z.leb_gt in E.
      assert (Hs : 10 ^ (- k) = 10 ^ (- (k + j)) * 10 ^ j).
      { rewrite <- Z.pow_add_r by lia. f_equal. lia. }
      pose proof (Z.pow_pos_nonneg 10 (- (k + j)) ltac:(lia) ltac:(lia)).
      rewrite Hs. apply fl_scale; lia.
Qed.

Lemma of_decimal_8 (neg : bool) (k : Z) :
  of_decimal neg k (-8) = fl neg k (10 ^ 8).
Proof. reflexivity. Qed.

(** Below [2^26] a double is nearer to the decimal it was rounded from than
    half a unit of the eighth place: [toFixed(8)] gives that decimal back. *)
Lemma scaled8_small (neg : bool) (k m e : Z) :
  0 <= k < 2 ^ 26 * 10 ^ 8 ->
  of_decimal neg k (-8) = Fin neg m e -> scaled8 m e = k.
Proof.
  intros Hk. rewrite of_decimal_8.
  destruct (Z.eq_dec k 0) as [-> | Hk0].
  { intros H. injection H as <- <-. reflexivity. }
  assert (Hp : 0 < k) by lia.
  assert (HQ : 0 < 10 ^ 8) by reflexivity.
  pose proof (floor_log2_spec k (10 ^ 8) Hp HQ) as Hl.
  pose proof (fl_cases neg k (10 ^ 8) Hp HQ) as Hc. cbv zeta in Hc.
  set (l := floor_log2 k (10 ^ 8)) in *.
  assert (Hl25 : l <= 25).
  { destruct Hl as [[H [B B']] | [H _]]; [| lia].
    destruct (Z_le_gt_dec l 25); [assumption | exfalso].
    pose proof (pow2_le_mono 26 l ltac:(lia)). nia. }
  set (e0 := Z.max (l - 52) emin) in *.
  assert (He0 : emin <= e0 <= -27) by (unfold emin in *; lia).
  assert (Hsr : shift_ratio k (10 ^ 8) e0 = (k * 2 ^ (- e0), 10 ^ 8)).
  { unfold shift_ratio.
    assert (E : (0 <=? e0) = false) by (apply Z.leb_gt; lia).
    rewrite E. reflexivity. }
  rewrite Hsr in Hc. cbn [fst snd] in Hc.
  pose proof (rne_div_bound (k * 2 ^ (- e0)) (10 ^ 8) HQ) as Hb.
  set (m0 := rne_div (k * 2 ^ (- e0)) (10 ^ 8)) in *.
  pose proof (pow2_le_mono 27 (- e0) ltac:(lia)) as HE.
  assert (E1 : (emax <? e0) = false) by (apply Z.ltb_ge; unfold emax; lia).
  assert (E2 : (emax <? e0 + 1) = false) by (apply Z.ltb_ge; unfold emax; lia).
  rewrite E1, E2 in Hc.
  change (10 ^ 8) with 100000000 in *. change (2 ^ 27) with 134217728 in HE.
  destruct Hc as [[H53 ->] | [H53 ->]]; intros H; injection H as <- <-.
  - unfold scaled8.
    assert (E : (0 <=? e0) = false) by (apply Z.leb_gt; lia).
    rewrite E. change (10 ^ 8) with 100000000.
    rewrite pow2_succ by lia.
    set (E0 := 2 ^ (- e0)) in *.
    symmetry. apply (Z.div_unique _ _ _ (2 * m0 * 100000000 + E0 - 2 * E0 * k)); lia.
  - unfold scaled8.
    assert (E : (0 <=? e0 + 1) = false) by (apply Z.leb_gt; lia).
    rewrite E. change (10 ^ 8) with 100000000.
    replace (- (e0 + 1) + 1) with (- e0) by lia.
    assert (Hs : 2 ^ (- e0) = 2 * 2 ^ (- (e0 + 1))).
    { rewrite <- pow2_succ by lia. f_equal. lia. }
    rewrite H53 in Hb. change (2 ^ 53) with 9007199254740992 in Hb.
    change (2 ^ 52) with 4503599627370496.
    set (E0 := 2 ^ (- e0)) in *. set (E0' := 2 ^ (- (e0 + 1))) in *.
    symmetry.
    apply (Z.div_unique _ _ _
             (2 * 4503599627370496 * 100000000 + E0' - E0 * k)); lia.
Qed.

(** From [2^26] on the doubles are further apart than a unit of the eighth
    place: the decimal [toFixed(8)] gives rounds back to the double. *)
Lemma scaled8_large (neg : bool) (m e : Z) :
  canonical m e -> 2 ^ 52 <= m -> -26 <= e ->
  of_decimal neg (scaled8 m e) (-8) = Fin neg m e.
Proof.
  intros Hc Hm He. rewrite of_decimal_8.
  assert (Hm53 : m < 2 ^ 53) by (destruct Hc as [[? ?] | [? ?]]; lia).
  assert (Hemax : e <= emax)
    by (destruct Hc as [[? ?] | [? ?]]; unfold emin, emax in *; lia).
  unfold scaled8. destruct (0 <=? e) eqn:Hse.
  - apply Z.leb_le in Hse.
    rewrite <- (Z.mul_1_l (10 ^ 8)) at 2.
    pose proof (pow2_pos e Hse).
    rewrite fl_scale by (try reflexivity; nia).
    pose proof (of_dyadic_exact neg m e Hc) as Hx. unfold of_dyadic in Hx.
    apply Z.leb_le in Hse. rewrite Hse in Hx. exact Hx.
  - apply Z.leb_gt in Hse.
    rewrite pow2_succ by lia.
    pose proof (pow2_le_mono (- e) 26 ltac:(lia)) as HE.
    pose proof (pow2_pos (- e) ltac:(lia)) as PE.
    assert (HT : 2 ^ 52 = 2 ^ (52 + e) * 2 ^ (- e)).
    { rewrite <- pow2_split by lia. f_equal. lia. }
    pose proof (pow2_pos (52 + e) ltac:(lia)) as PT.
    change (10 ^ 8) with 100000000. change (2 ^ 26) with 67108864 in HE.
    change (2 ^ 53) with 9007199254740992 in *.
    change (2 ^ 52) with 4503599627370496 in *.
    set (E0 := 2 ^ (- e)) in *. set (T := 2 ^ (52 + e)) in *.
    pose proof (Z.div_mod (2 * m * 100000000 + E0) (2 * E0) ltac:(lia)) as Hdm.
    pose proof (Z.mod_pos_bound (2 * m * 100000000 + E0) (2 * E0) ltac:(lia)) as Hr.
    set (n := (2 * m * 100000000 + E0) / (2 * E0)) in *.
    assert (Hn1 : 100000000 * T <= n) by nia.
    assert (Hn2 : n < 100000000 * (2 * T)) by nia.
    rewrite (fl_at neg n 100000000 (52 + e) m).
    + f_equal. unfold emin. lia.
    + nia.
    + reflexivity.
    + left. split; [lia |]. rewrite pow2_succ by lia. fold T. lia.
    + replace (Z.max (52 + e - 52) emin) with e by (unfold emin; lia).
      unfold shift_ratio.
      assert (E : (0 <=? e) = false) by (apply Z.leb_gt; lia).
      rewrite E. cbn [fst snd]. fold E0.
      apply rne_div_unique; lia.
    + lia.
    + unfold emin, emax in *. lia.
Qed.

End Rounding.

(** ** Digits *)

Lemma digit_ok_cases (d : Z) :
  digit_ok d ->
  d = 0 \/ d = 1 \/ d = 2 \/ d = 3 \/ d = 4 \/ d = 5 \/ d = 6 \/ d = 7
  \/ d = 8 \/ d = 9.
Proof. unfold digit_ok. lia. Qed.

Ltac each_digit H :=
  apply digit_ok_cases in H;
  repeat (destruct H as [H | H]; [subst |]); subst.

Section Digits.

Lemma digit_char_is_digit (d : Z) : digit_ok d -> is_digit (digit_char d) = true.
Proof. intros H. each_digit H; reflexivity. Qed.

Lemma digit_val_char (d : Z) : digit_ok d -> digit_val (digit_char d) = d.
Proof. intros H. each_digit H; reflexivity. Qed.

Lemma digit_char_not_e (d : Z) : digit_ok d -> is_e (digit_char d) = false.
Proof. intros H. each_digit H; reflexivity. Qed.

Lemma digit_char_not_point (d : Z) :
  digit_ok d -> Ascii.eqb (digit_char d) "." = false.
Proof. intros H. each_digit H; reflexivity. Qed.

Lemma digit_char_zero (d : Z) :
  digit_ok d -> Ascii.eqb (digit_char d) "0" = (d =? 0).
Proof. intros H. each_digit H; reflexivity. Qed.

Lemma is_digit_ok (c : ascii) : is_digit c = true -> digit_ok (digit_val c).
Proof.
  unfold is_digit, digit_val, digit_ok. intros H.
  apply Bool.andb_true_iff in H. destruct H as [H1 H2].
  apply Nat.leb_le in H1, H2. lia.
Qed.

Lemma value_fold (ds : list Z) (acc : Z) :
  fold_left (fun a d => 10 * a + d) ds acc
  = acc * 10 ^ Z.of_nat (List.length ds) + value_of_digits ds.
Proof.
  unfold value_of_digits. revert acc.
  induction ds as [| d ds IH]; intros acc.
  - simpl. lia.
  - cbn [fold_left List.length]. rewrite IH, (IH (10 * 0 + d)).
    rewrite Nat2Z.inj_succ, Z.pow_succ_r by lia. ring.
Qed.

Lemma value_cons (d : Z) (ds : list Z) :
  value_of_digits (d :: ds)
  = d * 10 ^ Z.of_nat (List.length ds) + value_of_digits ds.
Proof.
  unfold value_of_digits at 1. cbn [fold_left]. rewrite value_fold. ring.
Qed.

Lemma value_app (a b : list Z) :
  value_of_digits (a ++ b)
  = value_of_digits a * 10 ^ Z.of_nat (List.length b) + value_of_digits b.
Proof.
  unfold value_of_digits at 1. rewrite fold_left_app.
  rewrite value_fold. reflexivity.
Qed.

Lemma value_nil : value_of_digits [] = 0.
Proof. reflexivity. Qed.

Lemma value_zeros (k : nat) : value_of_digits (zeros k) = 0.
Proof.
  induction k as [| k IH]; [reflexivity |].
  change (zeros (S k)) with (0 :: zeros k). rewrite value_cons, IH. lia.
Qed.

Lemma zeros_length (k : nat) : List.length (zeros k) = k.
Proof. apply repeat_length. Qed.

Lemma value_zeros_app (k : nat) (ds : list Z) :
  value_of_digits (zeros k ++ ds) = value_of_digits ds.
Proof. rewrite value_app, value_zeros. lia. Qed.

Lemma value_app_zeros (k : nat) (ds : list Z) :
  value_of_digits (ds ++ zeros k) = value_of_digits ds * 10 ^ Z.of_nat k.
Proof. rewrite value_app, value_zeros, zeros_length. lia. Qed.

Lemma value_nonneg (ds : list Z) :
  Forall digit_ok ds -> 0 <= value_of_digits ds.
Proof.
  induction 1 as [| d ds Hd _ IH]; [reflexivity |].
  rewrite value_cons.
  pose proof (Z.pow_nonneg 10 (Z.of_nat (List.length ds)) ltac:(lia)).
  unfold digit_ok in Hd. nia.
Qed.

Lemma zeros_ok (k : nat) : Forall digit_ok (zeros k).
Proof.
  induction k; constructor; [unfold digit_ok; lia | assumption].
Qed.

Lemma fixed_digits_length (w : nat) (n : Z) : List.length (fixed_digits w n) = w.
Proof. induction w; simpl; congruence. Qed.

Lemma fixed_digits_ok (w : nat) (n : Z) : Forall digit_ok (fixed_digits w n).
Proof.
  induction w as [| w IH]; constructor; [| assumption].
  pose proof (Z.mod_pos_bound (n / 10 ^ Z.of_nat w) 10 ltac:(lia)).
  unfold digit_ok. lia.
Qed.

Lemma value_fixed_digits (w : nat) (n : Z) :
  value_of_digits (fixed_digits w n) = n mod 10 ^ Z.of_nat w.
Proof.
  induction w as [| w IH].
  - simpl. rewrite Z.mod_1_r. reflexivity.
  - cbn [fixed_digits]. rewrite value_cons, IH, fixed_digits_length.
    rewrite Nat2Z.inj_succ, Z.pow_succ_r by lia.
    pose proof (Z.pow_pos_nonneg 10 (Z.of_nat w) ltac:(lia) ltac:(lia)).
    rewrite (Z.mul_comm 10), Z.rem_mul_r by lia. ring.
Qed.

Lemma num_digits_fuel_spec (f : nat) (n : Z) :
  0 <= n < 10 ^ (Z.of_nat f + 1) ->
  n < 10 ^ Z.of_nat (num_digits_fuel f n)
  /\ (0 < n -> 10 ^ (Z.of_nat (num_digits_fuel f n) - 1) <= n)
  /\ (1 <= num_digits_fuel f n)%nat.
Proof.
  revert n. induction f as [| f IH]; intros n Hn.
  - simpl in *. change (10 ^ 1) with 10 in *. change (10 ^ 0) with 1. lia.
  - cbn [num_digits_fuel]. destruct (n <? 10) eqn:E.
    + apply Z.ltb_lt in E. change (10 ^ Z.of_nat 1) with 10.
      change (10 ^ (Z.of_nat 1 - 1)) with 1. lia.
    + apply Z.ltb_ge in E.
      rewrite Nat2Z.inj_succ in Hn.
      replace (Z.succ (Z.of_nat f) + 1) with (Z.succ (Z.of_nat f + 1)) in Hn by lia.
      rewrite Z.pow_succ_r in Hn by lia.
      pose proof (Z.div_mod n 10 ltac:(lia)) as Hdm.
      pose proof (Z.mod_pos_bound n 10 ltac:(lia)) as Hr.
      destruct (IH (n / 10) ltac:(lia)) as [H1 [H2 H3]].
      rewrite Nat2Z.inj_succ.
      replace (Z.succ (Z.of_nat (num_digits_fuel f (n / 10))) - 1)
        with (Z.succ (Z.of_nat (num_digits_fuel f (n / 10)) - 1)) by lia.
      rewrite !Z.pow_succ_r by lia.
      specialize (H2 ltac:(lia)). lia.
Qed.

Lemma num_digits_spec (n : Z) :
  0 <= n ->
  n < 10 ^ Z.of_nat (num_digits n)
  /\ (0 < n -> 10 ^ (Z.of_nat (num_digits n) - 1) <= n)
  /\ (1 <= num_digits n)%nat.
Proof.
  intros Hn. apply num_digits_fuel_spec.
  split; [assumption |].
  destruct (Z.eq_dec n 0) as [-> | Hn0]; [reflexivity |].
  pose proof (Z.log2_spec n ltac:(lia)) as [_ H].
  pose proof (Z.log2_nonneg n) as Hl.
  rewrite Z2Nat.id by assumption.
  rewrite <- Z.add_1_r in H.
  pose proof (Z.pow_le_mono_l 2 10 (Z.log2 n + 1) ltac:(lia)). lia.
Qed.

Lemma value_digits (n : Z) : 0 <= n -> value_of_digits (digits n) = n.
Proof.
  intros Hn. unfold digits. rewrite value_fixed_digits.
  destruct (num_digits_spec n Hn) as [H _]. apply Z.mod_small. lia.
Qed.

Lemma digits_ok (n : Z) : Forall digit_ok (digits n).
Proof. apply fixed_digits_ok. Qed.

Lemma digits_length (n : Z) : List.length (digits n) = num_digits n.
Proof. apply fixed_digits_length. Qed.

End Digits.

(** ** Numerals and their parsers *)

Section Parsing.

Lemma append_assoc (a b c : string) : (a ++ b) ++ c = a ++ (b ++ c).
Proof. induction a as [| x a IH]; simpl; congruence. Qed.

Lemma append_nil_r (a : string) : a ++ EmptyString = a.
Proof. induction a as [| x a IH]; simpl; congruence. Qed.

Lemma string_of_digits_app (a b : list Z) :
  string_of_digits (a ++ b) = string_of_digits a ++ string_of_digits b.
Proof. induction a as [| x a IH]; simpl; congruence. Qed.

Lemma span_digits_nondigit (rest : string) :
  starts_nondigit rest -> span_digits rest = ([], rest).
Proof.
  destruct rest as [| c r]; simpl; [reflexivity |].
  intros ->. reflexivity.
Qed.

Lemma span_digits_app (ds : list Z) (rest : string) :
  Forall digit_ok ds -> starts_nondigit rest ->
  span_digits (string_of_digits ds ++ rest) = (ds, rest).
Proof.
  intros Hds Hrest. induction Hds as [| d ds Hd _ IH].
  - simpl. apply span_digits_nondigit. assumption.
  - cbn [string_of_digits append span_digits].
    rewrite digit_char_is_digit, IH, digit_val_char by assumption.
    reflexivity.
Qed.

Lemma span_digits_ok (s : string) : Forall digit_ok (fst (span_digits s)).
Proof.
  induction s as [| c r IH]; simpl; [constructor |].
  destruct (is_digit c) eqn:E; [| constructor].
  destruct (span_digits r) as [ds r']. simpl in *.
  constructor; [apply is_digit_ok; assumption | assumption].
Qed.

Lemma digits_nonempty (n : Z) : 0 <= n -> digits n <> [].
Proof.
  intros Hn E. apply (f_equal (@List.length Z)) in E.
  rewrite digits_length in E.
  destruct (num_digits_spec n Hn) as [_ [_ H]]. simpl in E. lia.
Qed.

Lemma parse_exponent_nil : parse_exponent EmptyString = None.
Proof. reflexivity. Qed.

Lemma parse_exponent_render (x : Z) :
  parse_exponent (render_exponent (Some x)) = Some (x, EmptyString).
Proof.
  unfold render_exponent, string_of_Z. destruct (x <? 0) eqn:E.
  - apply Z.ltb_lt in E.
    cbn [append parse_exponent is_e parse_sign].
    rewrite <- (append_nil_r (string_of_digits (digits (- x)))).
    rewrite span_digits_app by (exact I || apply digits_ok).
    pose proof (digits_nonempty (- x) ltac:(lia)) as Hne.
    destruct (digits (- x)) as [| d ds] eqn:Ed; [congruence |].
    rewrite <- Ed, value_digits by lia. simpl. f_equal. f_equal. lia.
  - apply Z.ltb_ge in E.
    cbn [append parse_exponent is_e parse_sign].
    rewrite <- (append_nil_r (string_of_digits (digits x))).
    rewrite span_digits_app by (exact I || apply digits_ok).
    pose proof (digits_nonempty x E) as Hne.
    destruct (digits x) as [| d ds] eqn:Ed; [congruence |].
    rewrite <- Ed, value_digits by lia. reflexivity.
Qed.

Lemma render_exponent_nondigit (ex : option Z) :
  starts_nondigit (render_exponent ex).
Proof.
  destruct ex as [x |]; simpl; [| exact I]. destruct (x <? 0); reflexivity.
Qed.

Lemma render_tail_nondigit (fp : option (list Z)) (ex : option Z) :
  starts_nondigit (render_fraction fp ++ render_exponent ex).
Proof.
  destruct fp as [f |]; simpl; [reflexivity | apply render_exponent_nondigit].
Qed.

Lemma parse_exponent_rendered (ex : option Z) :
  parse_exponent (render_exponent ex)
  = match ex with Some x => Some (x, EmptyString) | None => None end.
Proof.
  destruct ex as [x |]; [apply parse_exponent_render | reflexivity].
Qed.

(** The fraction and the exponent of a rendered numeral, parsed. *)
Lemma parse_fraction_render (fp : option (list Z)) (ex : option Z) :
  Forall digit_ok (fraction_digits fp) ->
  parse_fraction (render_fraction fp ++ render_exponent ex)
  = match fp with
    | Some f => Some (f, render_exponent ex)
    | None => None
    end.
Proof.
  intros Hf. destruct fp as [f |]; simpl in *.
  - rewrite span_digits_app; [reflexivity | assumption |].
    apply render_exponent_nondigit.
  - destruct ex as [x |]; simpl; [| reflexivity].
    destruct (x <? 0); reflexivity.
Qed.

Lemma sign_string_render (neg : bool) (d : Z) (ds : list Z) (rest : string) :
  digit_ok d ->
  parse_sign (sign_string neg ++ string_of_digits (d :: ds) ++ rest)
  = (neg, string_of_digits (d :: ds) ++ rest).
Proof.
  intros Hd. destruct neg; [reflexivity |].
  simpl. each_digit Hd; reflexivity.
Qed.

Lemma digits_not_infinity (d : Z) (ds : list Z) (rest : string) :
  digit_ok d -> prefix "Infinity" (string_of_digits (d :: ds) ++ rest) = false.
Proof. intros Hd. each_digit Hd; reflexivity. Qed.

(** The literal a rendered numeral with at least one integer digit denotes. *)
Lemma StrDecimalLiteral_render (neg : bool) (ip : list Z)
    (fp : option (list Z)) (ex : option Z) :
  ip <> [] -> Forall digit_ok ip -> Forall digit_ok (fraction_digits fp) ->
  StrDecimalLiteral (sign_string neg ++ render ip fp ex)
  = DecimalLiteral neg (value_of_digits (ip ++ fraction_digits fp))
      (exponent_value ex - Z.of_nat (List.length (fraction_digits fp))).
Proof.
  intros Hne Hip Hfp. unfold StrDecimalLiteral, render.
  destruct ip as [| d ds]; [congruence |].
  inversion Hip as [| ? ? Hd Hds]; subst.
  rewrite sign_string_render, digits_not_infinity by assumption.
  rewrite span_digits_app by (assumption || apply render_tail_nondigit).
  rewrite parse_fraction_render by assumption.
  destruct fp as [f |]; cbn [fraction_digits render_fraction append];
    rewrite parse_exponent_rendered; destruct ex as [x |]; reflexivity.
Qed.

Lemma match_decimal_render (ip : list Z) (fp : option (list Z)) (ex : option Z) :
  ip <> [] -> Forall digit_ok ip -> Forall digit_ok (fraction_digits fp) ->
  DecimalJs.match_decimal (render ip fp ex) = Some (ip, fp, ex).
Proof.
  intros Hne Hip Hfp. unfold DecimalJs.match_decimal, render.
  rewrite span_digits_app by (assumption || apply render_tail_nondigit).
  rewrite parse_fraction_render by assumption.
  destruct ip as [| d ds]; [congruence |].
  destruct fp as [f |]; cbn [render_fraction append];
    rewrite parse_exponent_rendered; destruct ex as [x |]; reflexivity.
Qed.

Lemma new_render (neg : bool) (ip : list Z) (fp : option (list Z))
    (ex : option Z) :
  ip <> [] -> Forall digit_ok ip -> Forall digit_ok (fraction_digits fp) ->
  DecimalJs.new (sign_string neg ++ render ip fp ex)
  = Ok (DecimalJs.parseDecimal neg ip fp ex).
Proof.
  intros Hne Hip Hfp. unfold DecimalJs.new.
  destruct ip as [| d ds] eqn:Eip; [congruence |].
  inversion Hip as [| ? ? Hd Hds]; subst.
  unfold render at 1. rewrite sign_string_render by assumption.
  change (string_of_digits (d :: ds) ++ render_fraction fp ++ render_exponent ex)
    with (render (d :: ds) fp ex).
  rewrite match_decimal_render by (assumption || congruence). reflexivity.
Qed.

End Parsing.

(** ** decimal.js: parsing and printing *)

Section DecimalFacts.

Import DecimalJs.

Lemma strip_leading_app (ds : list Z) :
  ds = (zeros (List.length ds - List.length (strip_leading_zeros ds))
        ++ strip_leading_zeros ds)%list.
Proof.
  induction ds as [| d ds IH]; [reflexivity |].
  destruct d as [| q | q]; try (cbn [strip_leading_zeros];
    rewrite Nat.sub_diag; reflexivity).
  cbn [strip_leading_zeros List.length].
  assert (H : (List.length (strip_leading_zeros ds) <= List.length ds)%nat).
  { apply (f_equal (@List.length Z)) in IH.
    rewrite length_app in IH. lia. }
  rewrite Nat.sub_succ_l by assumption.
  change (zeros (S ?k)) with (0 :: zeros k). simpl. f_equal. exact IH.
Qed.

Lemma strip_leading_length (ds : list Z) :
  (List.length (strip_leading_zeros ds) <= List.length ds)%nat.
Proof.
  pose proof (strip_leading_app ds) as H.
  apply (f_equal (@List.length Z)) in H. rewrite length_app in H. lia.
Qed.

Lemma strip_leading_head (ds : list Z) :
  match strip_leading_zeros ds with
  | d :: _ => d <> 0
  | [] => True
  end.
Proof.
  induction ds as [| d ds IH]; [exact I |].
  destruct d; cbn [strip_leading_zeros]; [exact IH | discriminate | discriminate].
Qed.

Lemma strip_leading_ok (ds : list Z) :
  Forall digit_ok ds -> Forall digit_ok (strip_leading_zeros ds).
Proof.
  induction 1 as [| d ds Hd Hds IH]; [constructor |].
  destruct d; cbn [strip_leading_zeros]; try assumption; constructor; assumption.
Qed.

Lemma value_strip_leading (ds : list Z) :
  value_of_digits (strip_leading_zeros ds) = value_of_digits ds.
Proof.
  rewrite (strip_leading_app ds) at 2. rewrite value_zeros_app. reflexivity.
Qed.

Lemma strip_leading_nonzero (d : Z) (ds : list Z) :
  d <> 0 -> strip_leading_zeros (d :: ds) = d :: ds.
Proof. destruct d; [congruence | reflexivity | reflexivity]. Qed.

Lemma strip_trailing_app (ds : list Z) :
  ds = (strip_trailing_zeros ds
        ++ zeros (List.length ds - List.length (strip_trailing_zeros ds)))%list.
Proof.
  unfold strip_trailing_zeros.
  pose proof (strip_leading_app (rev ds)) as H.
  apply (f_equal (@rev Z)) in H. rewrite rev_involutive, rev_app_distr in H.
  rewrite !length_rev in *.
  assert (Hz : forall k, rev (zeros k) = zeros k).
  { intros k. induction k as [| k IH]; [reflexivity |].
    change (zeros (S k)) with (0 :: zeros k) at 1. cbn [rev]. rewrite IH.
    clear IH. induction k as [| k IH]; [reflexivity |].
    change (zeros (S k)) with (0 :: zeros k) at 1. simpl. rewrite IH.
    reflexivity. }
  rewrite Hz in H. exact H.
Qed.

Lemma strip_trailing_length (ds : list Z) :
  (List.length (strip_trailing_zeros ds) <= List.length ds)%nat.
Proof.
  pose proof (strip_trailing_app ds) as H.
  apply (f_equal (@List.length Z)) in H. rewrite length_app in H. lia.
Qed.

Lemma strip_trailing_ok (ds : list Z) :
  Forall digit_ok ds -> Forall digit_ok (strip_trailing_zeros ds).
Proof.
  intros H. unfold strip_trailing_zeros.
  apply Forall_rev, strip_leading_ok, Forall_rev. assumption.
Qed.

(** The last digit left by [strip_trailing_zeros] is not zero. *)
Lemma strip_trailing_last (ds : list Z) :
  strip_trailing_zeros ds = []
  \/ exists body x, strip_trailing_zeros ds = (body ++ [x])%list /\ x <> 0.
Proof.
  unfold strip_trailing_zeros.
  pose proof (strip_leading_head (rev ds)) as H.
  destruct (strip_leading_zeros (rev ds)) as [| x r]; [left; reflexivity |].
  right. exists (rev r), x. split; [reflexivity | assumption].
Qed.

(** A sequence that starts with a digit other than zero keeps it. *)
Lemma strip_trailing_head (d : Z) (ds : list Z) :
  d <> 0 -> exists r, strip_trailing_zeros (d :: ds) = d :: r.
Proof.
  intros Hd. unfold strip_trailing_zeros. cbn [rev].
  assert (H : forall l : list Z,
             exists r, rev (strip_leading_zeros (l ++ [d])) = d :: r).
  { induction l as [| x l IH].
    - cbn [app]. rewrite strip_leading_nonzero by assumption.
      exists []. reflexivity.
    - destruct x; cbn [app strip_leading_zeros]; [exact IH | |];
        (cbn [rev]; rewrite rev_app_distr; simpl; eexists; reflexivity). }
  apply H.
Qed.

Lemma value_strip_trailing (ds : list Z) :
  value_of_digits ds
  = value_of_digits (strip_trailing_zeros ds)
    * 10 ^ Z.of_nat (List.length ds - List.length (strip_trailing_zeros ds)).
Proof.
  rewrite (strip_trailing_app ds) at 1. apply value_app_zeros.
Qed.

(** A digit sequence with a leading digit other than zero is positive. *)
Lemma value_pos (d : Z) (ds : list Z) :
  digit_ok d -> d <> 0 -> Forall digit_ok ds -> 0 < value_of_digits (d :: ds).
Proof.
  intros Hd Hd0 Hds. rewrite value_cons.
  pose proof (value_nonneg ds Hds).
  pose proof (Z.pow_pos_nonneg 10 (Z.of_nat (List.length ds)) ltac:(lia) ltac:(lia)).
  unfold digit_ok in Hd. nia.
Qed.

Lemma last_of_tail (d : Z) (rest body : list Z) (x : Z) :
  rest <> [] -> d :: rest = (body ++ [x])%list ->
  exists body', rest = (body' ++ [x])%list.
Proof.
  intros Hne H. destruct body as [| b body].
  - simpl in H. injection H as _ H. congruence.
  - simpl in H. injection H as _ H. exists body. assumption.
Qed.

Lemma Forall_split (P : Z -> Prop) (n : nat) (l : list Z) :
  Forall P l -> Forall P (firstn n l) /\ Forall P (skipn n l).
Proof.
  intros H. rewrite <- (firstn_skipn n l) in H.
  apply Forall_app in H. exact H.
Qed.

Lemma skipn_last (j : nat) (body : list Z) (x : Z) :
  (j < List.length (body ++ [x]))%nat ->
  exists body', skipn j (body ++ [x]) = (body' ++ [x])%list.
Proof.
  intros H. rewrite length_app in H. simpl in H.
  rewrite skipn_app.
  replace (j - List.length body)%nat with O by lia.
  exists (skipn j body). reflexivity.
Qed.

(** [toString] of a finite non-zero Decimal whose digits are trimmed. *)
Lemma toString_finite (neg : bool) (d0 : Z) (rest : list Z) (e : Z)
    (body : list Z) (x : Z) :
  d0 <> 0 -> Forall digit_ok (d0 :: rest) ->
  d0 :: rest = (body ++ [x])%list -> x <> 0 ->
  prints (toString (DFin neg (d0 :: rest) e)) neg (value_of_digits (d0 :: rest))
         (e + 1 - Z.of_nat (List.length (d0 :: rest))).
Proof.
  intros Hd0 Hok Hlast Hx.
  assert (Hsign : toString (DFin neg (d0 :: rest) e)
                  = sign_string neg
                    ++ finiteToString (DFin neg (d0 :: rest) e)
                         ((e <=? toExpNeg) || (toExpPos <=? e))).
  { unfold toString. cbn [exponent isNeg isZero].
    destruct d0; [congruence | |]; rewrite Bool.andb_true_r;
      destruct neg; reflexivity. }
  rewrite Hsign. clear Hsign.
  unfold prints, finiteToString.
  remember (d0 :: rest) as d eqn:Ed.
  set (len := Z.of_nat (List.length d)).
  assert (Hlen : 1 <= len) by (subst len d; cbn [List.length]; lia).
  assert (Hne : d <> []) by (subst d; discriminate).
  destruct ((e <=? toExpNeg) || (toExpPos <=? e)) eqn:Hexp.
  - (* exponent notation *)
    destruct rest as [| d1 r] eqn:Er.
    + exists [d0], None, (Some e), 0. subst d.
      split; [reflexivity |]. split; [discriminate |].
      split; [assumption |]. split; [constructor |].
      split; [lia |]. split; [cbn [app fraction_digits]; lia |].
      split; [subst len; cbn [exponent_value fraction_digits List.length]; lia |].
      left. reflexivity.
    + exists [d0], (Some (d1 :: r)), (Some e), 0. subst d.
      split.
      { unfold render, render_fraction, render_exponent. reflexivity. }
      split; [discriminate |].
      split; [constructor; [inversion Hok; assumption | constructor] |].
      split; [cbn [fraction_digits]; inversion Hok; assumption |].
      split; [lia |]. split; [cbn [app fraction_digits]; lia |].
      split; [subst len; cbn [exponent_value fraction_digits List.length]; lia |].
      right.
      destruct (last_of_tail d0 (d1 :: r) body x ltac:(discriminate) Hlast)
        as [body' Hb].
      exists body', x. split; [rewrite Hb; reflexivity | assumption].
  - apply Bool.orb_false_iff in Hexp. destruct Hexp as [He1 He2].
    apply Z.leb_gt in He1. apply Z.leb_gt in He2.
    destruct (e <? 0) eqn:Hneg.
    + (* a fraction below one *)
      apply Z.ltb_lt in Hneg.
      exists [0], (Some (zeros (Z.to_nat (- e - 1)) ++ d)%list), None, 0.
      split.
      { unfold render, render_fraction, render_exponent.
        rewrite string_of_digits_app, append_nil_r. reflexivity. }
      split; [discriminate |].
      split; [constructor; [unfold digit_ok; lia | constructor] |].
      split.
      { cbn [fraction_digits]. apply Forall_app.
        split; [apply zeros_ok | assumption]. }
      split; [lia |].
      split; [cbn [fraction_digits app]; rewrite value_cons, value_zeros_app; lia |].
      split.
      { cbn [exponent_value fraction_digits]. rewrite length_app, zeros_length.
        fold len. lia. }
      right. exists (zeros (Z.to_nat (- e - 1)) ++ body)%list, x.
      split; [| assumption]. rewrite Hlast, app_assoc. reflexivity.
    + apply Z.ltb_ge in Hneg. fold len. destruct (len <=? e) eqn:Hle.
      * (* an integer padded with zeros *)
        apply Z.leb_le in Hle.
        exists (d ++ zeros (Z.to_nat (e + 1 - len)))%list, None, None, (e + 1 - len).
        split.
        { unfold render, render_fraction, render_exponent.
          rewrite string_of_digits_app. simpl. rewrite append_nil_r. reflexivity. }
        split; [destruct d; [congruence | discriminate] |].
        split; [apply Forall_app; split; [assumption | apply zeros_ok] |].
        split; [constructor |]. split; [lia |].
        split.
        { cbn [fraction_digits]. rewrite app_nil_r, value_app_zeros.
          rewrite Z2Nat.id by lia. reflexivity. }
        split; [cbn [exponent_value fraction_digits List.length]; lia |].
        left. reflexivity.
      * apply Z.leb_gt in Hle. destruct (e + 1 <? len) eqn:Hlt.
        -- (* the point inside the digits *)
           apply Z.ltb_lt in Hlt.
           exists (firstn (Z.to_nat (e + 1)) d),
                  (Some (skipn (Z.to_nat (e + 1)) d)), None, 0.
           split.
           { unfold render, render_fraction, render_exponent.
             rewrite append_nil_r. reflexivity. }
           split.
           { replace (Z.to_nat (e + 1)) with (S (Z.to_nat e)) by lia.
             destruct d; [congruence | discriminate]. }
           split; [apply Forall_split; assumption |].
           split; [cbn [fraction_digits]; apply Forall_split; assumption |].
           split; [lia |].
           split; [cbn [fraction_digits]; rewrite firstn_skipn; lia |].
           split.
           { cbn [exponent_value fraction_digits]. rewrite length_skipn.
             subst len. lia. }
           right. rewrite Hlast.
           destruct (skipn_last (Z.to_nat (e + 1)) body x) as [body' Hb].
           { rewrite <- Hlast. subst len. lia. }
           exists body', x. split; [rewrite Hb; reflexivity | assumption].
        -- (* an integer *)
           apply Z.ltb_ge in Hlt.
           exists d, None, None, 0.
           split.
           { unfold render, render_fraction, render_exponent.
             rewrite !append_nil_r. reflexivity. }
           split; [assumption |]. split; [assumption |].
           split; [constructor |]. split; [lia |].
           split; [cbn [fraction_digits]; rewrite app_nil_r; lia |].
           split; [cbn [exponent_value fraction_digits List.length]; lia |].
           left. reflexivity.
Qed.

Lemma zeros_head (k : nat) (d : Z) (r : list Z) : zeros k = d :: r -> d = 0.
Proof. destruct k; simpl; [discriminate |]. intros H. injection H. auto. Qed.

(** [new Decimal(v).toString()] for a numeral [v]: the numeral of the same
    number without its leading and trailing zeros. *)
Lemma toString_parseDecimal (neg : bool) (ip : list Z) (fp : option (list Z))
    (ex : option Z) :
  Forall digit_ok ip -> Forall digit_ok (fraction_digits fp) ->
  minE <= exponent_value ex - Z.of_nat (List.length (fraction_digits fp)) - 1 ->
  Z.of_nat (List.length ip) + exponent_value ex - 1 <= maxE ->
  let c := value_of_digits (ip ++ fraction_digits fp) in
  let k := exponent_value ex - Z.of_nat (List.length (fraction_digits fp)) in
  exists c0 t,
    0 <= c0 /\ 0 <= t /\ c = c0 * 10 ^ t
    /\ prints (toString (parseDecimal neg ip fp ex))
              (neg && negb (c =? 0)) c0 (k + t).
Proof.
  intros Hip Hfp Hmin Hmax c k.
  unfold parseDecimal.
  change (match fp with Some f => f | None => [] end) with (fraction_digits fp).
  change (match ex with Some x => x | None => 0 end) with (exponent_value ex).
  set (str := (ip ++ fraction_digits fp)%list) in *.
  assert (Hstr : Forall digit_ok str) by (apply Forall_app; split; assumption).
  set (str1 := strip_leading_zeros str).
  pose proof (strip_leading_length str) as Hl1. fold str1 in Hl1.
  pose proof (strip_leading_head str) as Hh1. fold str1 in Hh1.
  pose proof (strip_leading_ok str Hstr) as Hok1. fold str1 in Hok1.
  pose proof (value_strip_leading str) as Hv1. fold str1 in Hv1.
  pose proof (strip_trailing_app str1) as Ha2.
  pose proof (strip_trailing_length str1) as Hl2.
  pose proof (strip_trailing_ok str1 Hok1) as Hok2.
  pose proof (value_strip_trailing str1) as Hv2.
  pose proof (strip_trailing_last str1) as Hlast.
  assert (Hlen : List.length str = (List.length ip
                   + List.length (fraction_digits fp))%nat)
    by (subst str; apply length_app).
  destruct (strip_trailing_zeros str1) as [| d0 rest] eqn:E2.
  - (* zero *)
    simpl in Ha2.
    assert (Hs1 : str1 = []).
    { destruct str1 as [| y r]; [reflexivity |].
      apply eq_sym, zeros_head in Ha2. contradiction. }
    assert (Hc : c = 0) by (subst c; rewrite <- Hv1, Hs1; reflexivity).
    exists 0, (Z.max 0 (- k)).
    split; [lia |]. split; [lia |]. split; [lia |].
    rewrite Hc. rewrite Bool.andb_false_r.
    exists [0], None, None, (k + Z.max 0 (- k)).
    split; [destruct neg; reflexivity |].
    split; [discriminate |].
    split; [constructor; [unfold digit_ok; lia | constructor] |].
    split; [constructor |]. split; [lia |].
    split; [reflexivity |].
    split; [cbn [exponent_value fraction_digits List.length]; lia |].
    left. reflexivity.
  - (* a non-zero number *)
    assert (Hd0 : d0 <> 0).
    { destruct str1 as [| y r]; [discriminate |].
      destruct (strip_trailing_head y r Hh1) as [r' Hr'].
      rewrite Hr' in E2. injection E2 as <- _. assumption. }
    set (e := Z.of_nat (List.length ip) + exponent_value ex
              - (Z.of_nat (List.length str) - Z.of_nat (List.length str1)) - 1).
    assert (E1 : (maxE <? e) = false) by (apply Z.ltb_ge; subst e; lia).
    assert (E3 : (e <? minE) = false).
    { apply Z.ltb_ge. subst e. cbn [List.length] in Hl2. lia. }
    rewrite E1, E3.
    destruct Hlast as [Hnil | [body [x [Hb Hx]]]]; [discriminate |].
    pose proof (toString_finite neg d0 rest e body x Hd0 Hok2 Hb Hx) as Hp.
    pose proof (value_pos d0 rest ltac:(inversion Hok2; assumption) Hd0
                  ltac:(inversion Hok2; assumption)) as Hpos.
    set (t := Z.of_nat (List.length str1 - List.length (d0 :: rest))) in *.
    assert (Ht : 0 <= t) by lia.
    pose proof (Z.pow_pos_nonneg 10 t ltac:(lia) Ht) as Pt.
    assert (Hc : c = value_of_digits (d0 :: rest) * 10 ^ t)
      by (subst c; rewrite <- Hv1; exact Hv2).
    exists (value_of_digits (d0 :: rest)), t.
    split; [lia |]. split; [assumption |]. split; [assumption |].
    assert (Hcz : (c =? 0) = false) by (apply Z.eqb_neq; nia).
    rewrite Hcz, Bool.andb_true_r.
    replace (k + t) with (e + 1 - Z.of_nat (List.length (d0 :: rest))).
    + exact Hp.
    + subst k e t. lia.
Qed.

End DecimalFacts.

(** ** Printed numerals *)

Section Printed.

Lemma mantissa_digits (ds : list Z) (r : string) :
  Forall digit_ok ds ->
  mantissa (string_of_digits ds ++ r) = string_of_digits ds ++ mantissa r.
Proof.
  induction 1 as [| d ds Hd _ IH]; [reflexivity |].
  cbn [string_of_digits append mantissa].
  rewrite digit_char_not_e, IH by assumption. reflexivity.
Qed.

Lemma mantissa_exponent (ex : option Z) : mantissa (render_exponent ex) = EmptyString.
Proof. destruct ex as [x |]; [| reflexivity]. simpl. destruct (x <? 0); reflexivity. Qed.

Lemma mantissa_render (ip : list Z) (fp : option (list Z)) (ex : option Z) :
  Forall digit_ok ip -> Forall digit_ok (fraction_digits fp) ->
  mantissa (render ip fp ex) = string_of_digits ip ++ render_fraction fp.
Proof.
  intros Hip Hfp. unfold render. rewrite mantissa_digits by assumption.
  f_equal. destruct fp as [f |]; cbn [render_fraction fraction_digits] in *.
  - cbn [append mantissa is_e].
    rewrite mantissa_digits, mantissa_exponent by assumption.
    rewrite append_nil_r. reflexivity.
  - apply mantissa_exponent.
Qed.







Lemma all_zero_digits (ds : list Z) (r : string) :
  Forall digit_ok ds -> all_zero (string_of_digits ds ++ r) = true ->
  value_of_digits ds = 0 /\ all_zero r = true.
Proof.
  induction 1 as [| d ds Hd Hds IH]; intros H.
  - split; [reflexivity | exact H].
  - cbn [string_of_digits append all_zero] in H.
    rewrite digit_char_zero, digit_char_not_point in H by assumption.
    apply Bool.andb_true_iff in H. destruct H as [H1 H2].
    rewrite Bool.orb_false_r in H1. apply Z.eqb_eq in H1. subst d.
    destruct (IH H2) as [Hv Hr]. split; [| assumption].
    rewrite value_cons, Hv. lia.
Qed.

(** A printed numeral of a number other than zero, or without a sign, is no
    negative zero. *)
Lemma prints_no_negative_zero (out : string) (neg : bool) (c0 k0 : Z) :
  prints out neg c0 k0 -> c0 <> 0 \/ neg = false ->
  neg_zero_artifact out = false.
Proof.
  intros (ip & fp & ex & z & -> & Hne & Hip & Hfp & Hz & Hv & Hk & Ht) Hc.
  destruct neg.
  - destruct Hc as [Hc | Hc]; [| discriminate].
    cbn [sign_string append neg_zero_artifact].
    rewrite mantissa_render by assumption.
    destruct (all_zero (string_of_digits ip ++ render_fraction fp)) eqn:E;
      [| reflexivity].
    exfalso.
    destruct (all_zero_digits ip _ Hip E) as [Hvi Hr].
    assert (Hvf : value_of_digits (fraction_digits fp) = 0).
    { destruct fp as [f |]; [| reflexivity].
      cbn [render_fraction fraction_digits] in *.
      change ("." ++ string_of_digits f) with (String "." (string_of_digits f)) in Hr.
      cbn [all_zero Ascii.eqb] in Hr. simpl in Hr.
      rewrite <- (append_nil_r (string_of_digits f)) in Hr.
      apply (all_zero_digits f _ Hfp Hr). }
    rewrite value_app, Hvi, Hvf in Hv.
    pose proof (Z.pow_pos_nonneg 10 z ltac:(lia) Hz). nia.
  - destruct ip as [| d ds]; [congruence |].
    inversion Hip as [| ? ? Hd _]; subst.
    unfold render. cbn [sign_string string_of_digits append neg_zero_artifact].
    each_digit Hd; reflexivity.
Qed.

Lemma trimStart_numeral (neg : bool) (ip : list Z) (fp : option (list Z))
    (ex : option Z) :
  ip <> [] -> Forall digit_ok ip ->
  trimStart (sign_string neg ++ render ip fp ex)
  = sign_string neg ++ render ip fp ex.
Proof.
  intros Hne Hip. destruct neg; [reflexivity |].
  destruct ip as [| d ds]; [congruence |].
  inversion Hip as [| ? ? Hd _]; subst.
  unfold render. cbn [sign_string string_of_digits append trimStart].
  each_digit Hd; reflexivity.
Qed.

(** [parseFloat] of a rendered numeral. *)
Lemma parseFloat_render (neg : bool) (ip : list Z) (fp : option (list Z))
    (ex : option Z) :
  ip <> [] -> Forall digit_ok ip -> Forall digit_ok (fraction_digits fp) ->
  parseFloat (sign_string neg ++ render ip fp ex)
  = of_decimal neg (value_of_digits (ip ++ fraction_digits fp))
      (exponent_value ex - Z.of_nat (List.length (fraction_digits fp))).
Proof.
  intros Hne Hip Hfp. unfold parseFloat.
  rewrite trimStart_numeral, StrDecimalLiteral_render by assumption.
  reflexivity.
Qed.

(** [parseFloat] of a printed numeral: the Number of the decimal printed. *)
Lemma parseFloat_prints (out : string) (neg : bool) (c0 k0 : Z) :
  0 <= c0 -> prints out neg c0 k0 -> parseFloat out = of_decimal neg c0 k0.
Proof.
  intros Hc (ip & fp & ex & z & -> & Hne & Hip & Hfp & Hz & Hv & Hk & Ht).
  rewrite parseFloat_render by assumption.
  rewrite Hv, of_decimal_shift by assumption. f_equal. lia.
Qed.

End Printed.

(** ** Numbers: equality, subtraction, the tolerance *)

Section NumberFacts.

Lemma eqb_sub_zero (y x : number) :
  is_finite x = true -> Number.eqb y x = true ->
  exists s, Number.sub y x = Fin s 0 emin.
Proof.
  destruct x as [| sx | s2 m2 e2]; try discriminate. intros _.
  destruct y as [| sy | s1 m1 e1].
  - discriminate.
  - unfold Number.eqb, Number.compare. destruct sy; discriminate.
  - unfold Number.eqb, Number.compare, Number.sub.
    destruct (align (signed s1 m1) e1 (signed s2 m2) e2) as [[a b] e0].
    destruct (a ?= b) eqn:E; try discriminate. intros _.
    apply Z.compare_eq in E. subst b.
    rewrite Z.sub_diag. cbn. eexists. reflexivity.
Qed.

Lemma tolerance_value : of_decimal false 1 (-12) = Fin false 4951760157141521 (-92).
Proof. vm_compute. reflexivity. Qed.

Lemma zero_within_tolerance (s : bool) :
  Number.geb (Number.abs (Fin s 0 emin)) (of_decimal false 1 (-12)) = false.
Proof. rewrite tolerance_value. vm_compute. reflexivity. Qed.

(** A number that [toFixed(8)] and [parseFloat] give back is accepted. *)
Lemma accepted_when_equal (y x : number) :
  is_finite x = true -> Number.eqb y x = true ->
  Number.geb (Number.abs (Number.sub y x)) (of_decimal false 1 (-12)) = false.
Proof.
  intros Hx He. destruct (eqb_sub_zero y x Hx He) as [s ->].
  apply zero_within_tolerance.
Qed.

Lemma eqb_same (s : bool) (m e : Z) : Number.eqb (Fin s m e) (Fin s m e) = true.
Proof.
  unfold Number.eqb, Number.compare, align.
  rewrite Z.compare_refl. reflexivity.
Qed.

Lemma eqb_zeros (s1 s2 : bool) (e1 e2 : Z) :
  Number.eqb (Fin s1 0 e1) (Fin s2 0 e2) = true.
Proof.
  unfold Number.eqb, Number.compare, align, signed.
  destruct s1, s2; reflexivity.
Qed.

Lemma of_decimal_zero (neg : bool) (k : Z) : of_decimal neg 0 k = Fin neg 0 emin.
Proof.
  unfold of_decimal. destruct (0 <=? k); reflexivity.
Qed.

Lemma fl_sign (neg : bool) (p q : Z) : fl neg p q = with_sign neg (fl false p q).
Proof.
  unfold fl. destruct (p =? 0); [reflexivity |].
  destruct (shift_ratio p q (Z.max (floor_log2 p q - 52) emin)) as [a b].
  destruct (rne_div a b =? 2 ^ 53); destruct (emax <? _); reflexivity.
Qed.

Lemma of_decimal_sign (neg : bool) (c k : Z) :
  of_decimal neg c k = with_sign neg (of_decimal false c k).
Proof. unfold of_decimal. destruct (0 <=? k); apply fl_sign. Qed.

Lemma eqb_with_sign (neg : bool) (y : number) (m e : Z) :
  y = with_sign false y ->
  Number.eqb y (Fin false m e) = true ->
  Number.eqb (with_sign neg y) (Fin neg m e) = true.
Proof.
  destruct y as [| sy | s1 m1 e1]; try discriminate.
  - destruct sy; discriminate.
  - intros Hs. injection Hs as ->.
    unfold Number.eqb, Number.compare, align, with_sign.
    destruct (signed false m1 * 2 ^ (e1 - Z.min e1 e)
              ?= signed false m * 2 ^ (e - Z.min e1 e)) eqn:E; try discriminate.
    intros _. apply Z.compare_eq in E. cbn [signed] in E.
    destruct neg; cbn [signed].
    + replace (- m1 * 2 ^ (e1 - Z.min e1 e) ?= - m * 2 ^ (e - Z.min e1 e))
        with Eq; [reflexivity |].
      symmetry. apply Z.compare_eq_iff. lia.
    + rewrite E, Z.compare_refl. reflexivity.
Qed.

End NumberFacts.

(** ** The numerals of toFixed(8) *)

Section Fixed.

Lemma num_digits_bound (n N : Z) :
  0 <= n < 10 ^ N -> Z.of_nat (num_digits n) <= Z.max 1 N.
Proof.
  intros [Hn HN].
  destruct (num_digits_spec n Hn) as [_ [Hlo Hd]].
  destruct (Z.eq_dec n 0) as [-> | Hn0].
  { change (num_digits 0) with 1%nat. lia. }
  specialize (Hlo ltac:(lia)).
  destruct (Z_le_gt_dec (Z.of_nat (num_digits n)) N) as [? | Hgt]; [lia |].
  exfalso.
  assert (0 <= N).
  { destruct (Z_le_gt_dec 0 N); [assumption |].
    rewrite Z.pow_neg_r in HN by lia. lia. }
  pose proof (Z.pow_le_mono_r 10 N (Z.of_nat (num_digits n) - 1) ltac:(lia)
                ltac:(lia)).
  lia.
Qed.

Lemma fixed8_digits_spec (n : Z) :
  0 <= n ->
  let a := fst (fixed8_digits n) in
  let b := snd (fixed8_digits n) in
  a <> [] /\ List.length b = 8%nat /\ Forall digit_ok a /\ Forall digit_ok b
  /\ value_of_digits (a ++ b) = n
  /\ (List.length a <= num_digits n)%nat.
Proof.
  intros Hn. unfold fixed8_digits. cbn [fst snd].
  pose proof (digits_length n) as Hk.
  destruct (num_digits_spec n Hn) as [_ [_ Hd]].
  set (padded := if (List.length (digits n) <=? 8)%nat
                 then (zeros (8 + 1 - List.length (digits n)) ++ digits n)%list
                 else digits n).
  assert (Hlen : (9 <= List.length padded)%nat
                 /\ (List.length padded - 8 <= num_digits n)%nat).
  { subst padded. destruct (List.length (digits n) <=? 8)%nat eqn:E.
    - apply Nat.leb_le in E. rewrite length_app, zeros_length. lia.
    - apply Nat.leb_gt in E. lia. }
  assert (Hok : Forall digit_ok padded).
  { subst padded. destruct (List.length (digits n) <=? 8)%nat.
    - apply Forall_app. split; [apply zeros_ok | apply digits_ok].
    - apply digits_ok. }
  assert (Hv : value_of_digits padded = n).
  { subst padded. destruct (List.length (digits n) <=? 8)%nat.
    - rewrite value_zeros_app. apply value_digits. assumption.
    - apply value_digits. assumption. }
  destruct (Forall_split digit_ok (List.length padded - 8) padded Hok) as [Ha Hb].
  split.
  { intros E. apply (f_equal (@List.length Z)) in E.
    rewrite length_firstn in E. simpl in E. lia. }
  split; [rewrite length_skipn; lia |].
  split; [assumption |]. split; [assumption |].
  split; [rewrite firstn_skipn; assumption |].
  rewrite length_firstn. lia.
Qed.

Lemma shortest_from_ok (x : number) (X d : Z) (fuel : nat) (k : Z) :
  1 <= k <= d -> 0 <= X < 10 ^ d -> Z.of_nat fuel = d - k ->
  Number.eqb (fl false X 1) x = true ->
  shortest_ok x d (shortest_from x X d fuel k).
Proof.
  intros Hk HX Hf Hx. revert k Hk Hf.
  induction fuel as [| f IH]; intros k Hk Hf.
  - cbn [shortest_from shortest_ok].
    assert (k = d) by lia. subst k.
    rewrite Z.sub_diag, Z.pow_0_r, Z.mul_1_r. repeat split; try lia. assumption.
  - cbn [shortest_from].
    set (u := 10 ^ (d - k)).
    assert (Hu : 0 < u) by (apply Z.pow_pos_nonneg; lia).
    assert (Hd : 10 ^ d = 10 ^ k * u).
    { subst u. rewrite <- Z.pow_add_r by lia. f_equal. lia. }
    pose proof (Z.div_mod X u ltac:(lia)) as Hdm.
    pose proof (Z.mod_pos_bound X u Hu) as Hr.
    set (lo := X / u) in *.
    assert (Hlo : 0 <= lo < 10 ^ k) by nia.
    assert (Hup : Number.eqb (fl false ((lo + 1) * u) 1) x = true ->
                  shortest_ok x d (if lo + 1 =? 10 ^ k then (1, 1, d + 1)
                                   else (lo + 1, k, d))).
    { intros Hhi. destruct (lo + 1 =? 10 ^ k) eqn:E.
      - apply Z.eqb_eq in E. cbn [shortest_ok].
        replace (d + 1 - 1) with d by lia. rewrite Z.mul_1_l.
        change (10 ^ 1) with 10.
        rewrite E, <- Hd in Hhi. repeat split; try lia. assumption.
      - apply Z.eqb_neq in E. cbn [shortest_ok]. fold u.
        repeat split; try lia. assumption. }
    assert (Hdn : Number.eqb (fl false (lo * u) 1) x = true ->
                  shortest_ok x d (lo, k, d)).
    { intros Hl. cbn [shortest_ok]. fold u. repeat split; try lia. assumption. }
    destruct (Number.eqb (fl false (lo * u) 1) x) eqn:E1;
      destruct (Number.eqb (fl false ((lo + 1) * u) 1) x) eqn:E2;
      cbn [andb].
    + destruct (X - lo * u ?= (lo + 1) * u - X); auto.
      destruct (Z.even lo); auto.
    + auto.
    + auto.
    + apply IH; lia.
Qed.

Lemma shortest_spec (m e : Z) :
  canonical m e -> 0 <= e ->
  shortest_ok (Fin false m e) (Z.of_nat (num_digits (m * 2 ^ e))) (shortest m e).
Proof.
  intros Hc He. unfold shortest.
  assert (Hm : 0 <= m) by (destruct Hc as [[? ?] | [? ?]]; lia).
  pose proof (pow2_pos e He) as Pe.
  assert (HX : 0 <= m * 2 ^ e) by nia.
  destruct (num_digits_spec (m * 2 ^ e) HX) as [H1 [_ H3]].
  apply shortest_from_ok; try lia.
  pose proof (of_dyadic_exact false m e Hc) as Hx. unfold of_dyadic in Hx.
  apply Z.leb_le in He. rewrite He in Hx. rewrite Hx. apply eqb_same.
Qed.

(** The significand of a double times its exponent is below [10^400]. *)
Lemma double_bound (m e : Z) : canonical m e -> 0 <= e -> 0 <= m * 2 ^ e < 10 ^ 400.
Proof.
  intros Hc He.
  assert (Hm : 0 <= m < 2 ^ 53 /\ e <= 971)
    by (destruct Hc as [[? ?] | [? ?]]; unfold emin, emax in *; lia).
  pose proof (pow2_pos e He) as Pe.
  pose proof (pow2_le_mono e 971 ltac:(lia)) as Hle.
  assert (Hc1 : 2 ^ 53 * 2 ^ 971 < 10 ^ 400) by (vm_compute; reflexivity).
  split; [nia |].
  apply Z.le_lt_trans with (2 ^ 53 * 2 ^ 971); [| assumption].
  apply Z.mul_le_mono_nonneg; lia.
Qed.

End Fixed.

(** ** floatToWire on the numerals of toFixed(8) *)

Section Encoder.

Lemma floatToWire_guard (x : number) :
  floatToWire x
  = if tolerance_exceeded x then Throw PrecisionLoss
    else if (toFixed8 x =? "-0")%string then Ok "0"
    else d <- DecimalJs.new (toFixed8 x) ;; Ok (DecimalJs.toString d).
Proof. reflexivity. Qed.

Lemma has_char_app_r (a : ascii) (s1 s2 : string) :
  has_char a s2 = true -> has_char a (s1 ++ s2) = true.
Proof.
  intros H. induction s1 as [| c s1 IH]; [exact H |].
  cbn [append has_char]. rewrite IH. apply Bool.orb_true_r.
Qed.

Lemma has_char_app_l (a : ascii) (s1 s2 : string) :
  has_char a s1 = true -> has_char a (s1 ++ s2) = true.
Proof.
  induction s1 as [| c s1 IH]; [discriminate |].
  cbn [append has_char]. intros H. apply Bool.orb_true_iff in H.
  destruct H as [H | H]; rewrite ?H, ?IH by assumption;
    auto using Bool.orb_true_r.
Qed.

(** A numeral with a fraction or an exponent is not the text [-0]. *)
Lemma numeral_not_minus_zero (sg : bool) (ip : list Z) (fp : option (list Z))
    (ex : option Z) :
  fp <> None \/ ex <> None ->
  ((sign_string sg ++ render ip fp ex) =? "-0")%string = false.
Proof.
  intros H. destruct (String.eqb_spec (sign_string sg ++ render ip fp ex) "-0")
    as [E | E]; [exfalso | reflexivity].
  assert (Hc : has_char "." (sign_string sg ++ render ip fp ex)
               || has_char "e" (sign_string sg ++ render ip fp ex) = true).
  { unfold render. destruct H as [H | H].
    - destruct fp as [f |]; [| congruence].
      apply Bool.orb_true_iff. left.
      apply has_char_app_r, has_char_app_r, has_char_app_l. reflexivity.
    - destruct ex as [x |]; [| congruence].
      apply Bool.orb_true_iff. right.
      apply has_char_app_r, has_char_app_r, has_char_app_r.
      unfold render_exponent. apply has_char_app_l.
      destruct (x <? 0); reflexivity. }
  rewrite E in Hc. discriminate.
Qed.

(** [floatToWire] on a number whose [toFixed(8)] is a numeral: the guard, then
    the numeral through [Decimal]. *)
Lemma floatToWire_numeral (x : number) (sg : bool) (ip : list Z)
    (fp : option (list Z)) (ex : option Z) :
  toFixed8 x = sign_string sg ++ render ip fp ex ->
  ip <> [] -> Forall digit_ok ip -> Forall digit_ok (fraction_digits fp) ->
  fp <> None \/ ex <> None ->
  floatToWire x
  = if tolerance_exceeded x then Throw PrecisionLoss
    else Ok (DecimalJs.toString (DecimalJs.parseDecimal sg ip fp ex)).
Proof.
  intros Hr Hne Hip Hfp Hfe. rewrite floatToWire_guard, Hr.
  rewrite numeral_not_minus_zero, new_render by assumption. reflexivity.
Qed.

(** The large case of [toFixed(8)]: the shortest digits that round to the
    number, in exponent notation. *)
Lemma toString_large_numeral (m e : Z) :
  canonical m e -> 0 <= e ->
  exists (d0 : Z) (fp : option (list Z)) (n : Z),
    toString_large m e = render [d0] fp (Some n)
    /\ Forall digit_ok [d0] /\ Forall digit_ok (fraction_digits fp)
    /\ 0 <= n <= 400
    /\ 0 <= n - Z.of_nat (List.length (fraction_digits fp))
    /\ Number.eqb
         (of_decimal false (value_of_digits ([d0] ++ fraction_digits fp))
            (n - Z.of_nat (List.length (fraction_digits fp))))
         (Fin false m e) = true.
Proof.
  intros Hc He. unfold toString_large.
  pose proof (shortest_spec m e Hc He) as Hs.
  pose proof (double_bound m e Hc He) as HX.
  pose proof (num_digits_bound _ 400 HX) as Hd.
  destruct (shortest m e) as [[s k] n]. cbn [shortest_ok] in Hs.
  destruct Hs as (Hk & Hsk & Hn & Heq).
  pose proof (fixed_digits_length (Z.to_nat k) s) as Hlen.
  pose proof (fixed_digits_ok (Z.to_nat k) s) as Hok.
  pose proof (value_fixed_digits (Z.to_nat k) s) as Hv.
  rewrite Z2Nat.id, Z.mod_small in Hv by lia.
  destruct (fixed_digits (Z.to_nat k) s) as [| d0 rest] eqn:Ed.
  { simpl in Hlen. lia. }
  cbn [List.length] in Hlen.
  assert (Hexp : (n - 1 <? 0) = false) by (apply Z.ltb_ge; lia).
  exists d0, (match rest with [] => None | _ => Some rest end), (n - 1).
  assert (Hfd : fraction_digits (match rest with [] => None | _ => Some rest end)
                = rest) by (destruct rest; reflexivity).
  rewrite Hfd.
  split.
  { unfold render, render_exponent. rewrite Hexp.
    destruct rest; reflexivity. }
  split; [constructor; [inversion Hok; assumption | constructor] |].
  split; [inversion Hok; assumption |].
  split; [lia |]. split; [lia |].
  cbn [app]. rewrite Hv.
  replace (n - 1 - Z.of_nat (List.length rest)) with (n - k) by lia.
  unfold of_decimal.
  assert (E : (0 <=? n - k) = true) by (apply Z.leb_le; lia).
  rewrite E. exact Heq.
Qed.

Lemma scaled8_nonneg (m e : Z) : 0 <= m -> 0 <= scaled8 m e.
Proof.
  intros Hm. unfold scaled8. destruct (0 <=? e) eqn:E.
  - apply Z.leb_le in E. pose proof (pow2_pos e E). nia.
  - apply Z.leb_gt in E.
    pose proof (pow2_pos (- e) ltac:(lia)).
    pose proof (pow2_pos (- e + 1) ltac:(lia)).
    apply Z.div_pos; lia.
Qed.

Lemma scaled8_bound (m e : Z) : canonical m e -> scaled8 m e < 10 ^ 410.
Proof.
  intros Hc.
  assert (Hm : 0 <= m < 2 ^ 53)
    by (destruct Hc as [[? ?] | [? ?]]; lia).
  unfold scaled8. destruct (0 <=? e) eqn:E.
  - apply Z.leb_le in E. pose proof (double_bound m e Hc E) as HX.
    change (10 ^ 410) with (10 ^ 400 * 10 ^ 10). change (10 ^ 8) with 100000000.
    assert (0 < 10 ^ 400) by reflexivity.
    change (10 ^ 10) with 10000000000. nia.
  - apply Z.leb_gt in E.
    pose proof (pow2_pos (- e) ltac:(lia)) as Pe.
    rewrite pow2_succ by lia.
    apply Z.div_lt_upper_bound; [lia |].
    assert (H1 : 2 ^ 53 * 10 ^ 8 + 1 < 10 ^ 410) by (vm_compute; reflexivity).
    change (10 ^ 8) with 100000000 in *.
    assert (0 < 10 ^ 410) by reflexivity.
    nia.
Qed.

Lemma toFixed8_cases (neg : bool) (m e : Z) :
  toFixed8 (Fin neg m e)
  = sign_string (neg && (0 <? m))
    ++ (if is_large m e then toString_large m e
        else render (fst (fixed8_digits (scaled8 m e)))
                    (Some (snd (fixed8_digits (scaled8 m e)))) None).
Proof.
  unfold toFixed8, is_large, sign_string.
  destruct ((0 <=? e) && (10 ^ 21 <=? m * 2 ^ e)); [reflexivity |].
  destruct (fixed8_digits (scaled8 m e)) as [a b]. cbn [fst snd].
  unfold render, render_fraction, render_exponent.
  rewrite append_nil_r. reflexivity.
Qed.

(** Every finite double goes through [floatToWire] as a decimal numeral. *)
Lemma floatToWire_finite (neg : bool) (m e : Z) :
  canonical m e -> exists sg c k, encodes neg m e sg c k.
Proof.
  intros Hc.
  assert (Hm : 0 <= m) by (destruct Hc as [[? ?] | [? ?]]; lia).
  unfold encodes. cbv zeta.
  pose proof (toFixed8_cases neg m e) as Hfix.
  destruct (is_large m e) eqn:Hlarge.
  - (* 10^21 and above *)
    unfold is_large in Hlarge. apply Bool.andb_true_iff in Hlarge.
    destruct Hlarge as [He _]. apply Z.leb_le in He.
    destruct (toString_large_numeral m e Hc He)
      as (d0 & fp & n & Hr & Hd0 & Hfp & Hn & Hk & Heq).
    rewrite Hr in Hfix.
    set (c := value_of_digits ([d0] ++ fraction_digits fp)) in *.
    set (k := n - Z.of_nat (List.length (fraction_digits fp))) in *.
    assert (Hc0 : 0 <= c).
    { subst c. apply value_nonneg, Forall_app. split; assumption. }
    destruct (toString_parseDecimal (neg && (0 <? m)) [d0] fp (Some n) Hd0 Hfp)
      as (c0 & t & Hc0' & Ht & Hct & Hp).
    { cbn [exponent_value]. fold k. unfold DecimalJs.minE. lia. }
    { cbn [exponent_value List.length]. unfold DecimalJs.maxE. lia. }
    exists (neg && (0 <? m)), c, k, [d0], fp, (Some n).
    split; [assumption |]. split; [discriminate |].
    split; [assumption |]. split; [assumption |].
    split; [reflexivity |]. split; [reflexivity |].
    split; [assumption |]. split; [reflexivity |].
    split; [assumption |].
    exists (DecimalJs.toString
              (DecimalJs.parseDecimal (neg && (0 <? m)) [d0] fp (Some n))), c0, t.
    split.
    { apply floatToWire_numeral; try assumption; [discriminate |].
      right. discriminate. }
    cbn [exponent_value] in Hp. fold c k in Hp, Hct. auto.
  - (* below 10^21 *)
    pose proof (scaled8_nonneg m e Hm) as Hn.
    destruct (fixed8_digits_spec (scaled8 m e) Hn)
      as (Ha & Hb & Hoka & Hokb & Hv & Hla).
    set (a := fst (fixed8_digits (scaled8 m e))) in *.
    set (b := snd (fixed8_digits (scaled8 m e))) in *.
    pose proof (num_digits_bound (scaled8 m e) 410
                  (conj Hn (scaled8_bound m e Hc))) as Hnd.
    destruct (toString_parseDecimal (neg && (0 <? m)) a (Some b) None Hoka Hokb)
      as (c0 & t & Hc0' & Ht & Hct & Hp).
    { cbn [exponent_value fraction_digits]. rewrite Hb. unfold DecimalJs.minE. lia. }
    { cbn [exponent_value]. unfold DecimalJs.maxE. lia. }
    cbn [exponent_value fraction_digits] in Hp, Hct.
    rewrite Hv in Hp, Hct. rewrite Hb in Hp.
    exists (neg && (0 <? m)), (scaled8 m e), (-8), a, (Some b), None.
    split; [assumption |]. split; [assumption |].
    split; [assumption |]. split; [assumption |].
    split; [cbn [fraction_digits]; congruence |].
    split; [cbn [exponent_value fraction_digits]; rewrite Hb; reflexivity |].
    split; [assumption |]. split; [reflexivity |].
    split; [split; reflexivity |].
    exists (DecimalJs.toString
              (DecimalJs.parseDecimal (neg && (0 <? m)) a (Some b) None)), c0, t.
    split.
    { apply floatToWire_numeral; try assumption. left. discriminate. }
    auto.
Qed.

Lemma encodes_literal (neg : bool) (m e : Z) (sg : bool) (c k : Z) :
  encodes neg m e sg c k ->
  StrDecimalLiteral (toFixed8 (Fin neg m e)) = DecimalLiteral sg c k
  /\ parseFloat (toFixed8 (Fin neg m e)) = of_decimal sg c k.
Proof.
  intros (ip & fp & ex & Hr & Hne & Hip & Hfp & -> & -> & _).
  rewrite Hr. split.
  - apply StrDecimalLiteral_render; assumption.
  - apply parseFloat_render; assumption.
Qed.


End Encoder.

(** ** The canonical decimal encoder *)

Section RoundTrip.

(** [toFixed(8)] of the double nearest to a decimal of eight places is a
    decimal that rounds to the same double. *)
Lemma fixed_roundtrip (neg : bool) (k m e : Z) :
  0 <= k -> of_decimal neg k (-8) = Fin neg m e ->
  of_decimal neg (scaled8 m e) (-8) = Fin neg m e.
Proof.
  intros Hk Hx.
  destruct (Z_lt_ge_dec k (2 ^ 26 * 10 ^ 8)) as [Hs | Hl].
  - rewrite (scaled8_small neg k m e) by (assumption || lia). assumption.
  - pose proof (of_decimal_wf neg k (-8) Hk) as Hwf. rewrite Hx in Hwf.
    cbn [wf] in Hwf.
    assert (Hp : 0 < k) by (change (2 ^ 26 * 10 ^ 8) with 6710886400000000 in Hl; lia).
    assert (HQ : 0 < 10 ^ 8) by reflexivity.
    rewrite of_decimal_8 in Hx.
    pose proof (floor_log2_spec k (10 ^ 8) Hp HQ) as Hmag.
    pose proof (fl_significand k (10 ^ 8) Hp HQ) as Hsig.
    pose proof (fl_cases neg k (10 ^ 8) Hp HQ) as Hcs.
    cbv zeta in Hsig, Hcs.
    set (l := floor_log2 k (10 ^ 8)) in *.
    assert (Hl26 : 26 <= l).
    { destruct (Z_le_gt_dec 26 l) as [? | Hlt]; [assumption | exfalso].
      destruct Hmag as [[H0 [B B']] | [H0 [B B']]].
      - pose proof (pow2_le_mono (l + 1) 26 ltac:(lia)). nia.
      - pose proof (pow2_pos (- l - 1) ltac:(lia)).
        change (2 ^ 26 * 10 ^ 8) with 6710886400000000 in Hl.
        change (10 ^ 8) with 100000000 in *. nia. }
    assert (He0 : Z.max (l - 52) emin = l - 52) by (unfold emin; lia).
    rewrite He0 in Hsig, Hcs.
    destruct Hsig as [_ [Hn _]]. specialize (Hn ltac:(unfold emin; lia)).
    set (m0 := rne_div (fst (shift_ratio k (10 ^ 8) (l - 52)))
                       (snd (shift_ratio k (10 ^ 8) (l - 52)))) in *.
    clearbody m0.
    apply scaled8_large; [assumption | |].
    + destruct Hcs as [[H53 Hfl] | [H53 Hfl]]; rewrite Hfl in Hx;
        destruct (emax <? _); try discriminate; injection Hx as <- <-; lia.
    + destruct Hcs as [[H53 Hfl] | [H53 Hfl]]; rewrite Hfl in Hx;
        destruct (emax <? _); try discriminate; injection Hx as <- <-; lia.
Qed.

Lemma eqb_zero_left (s : bool) (e1 : Z) (sx : bool) (m e : Z) :
  Number.eqb (Fin s 0 e1) (Fin sx m e) = true -> m = 0.
Proof.
  unfold Number.eqb, Number.compare, align.
  replace (signed s 0) with 0 by (destruct s; reflexivity).
  rewrite Z.mul_0_l.
  destruct (0 ?= signed sx m * 2 ^ (e - Z.min e1 e)) eqn:E; try discriminate.
  intros _. apply Z.compare_eq in E.
  pose proof (pow2_pos (e - Z.min e1 e) ltac:(lia)).
  destruct sx; cbn [signed] in E; nia.
Qed.

(** A finite double that [toFixed(8)] and [parseFloat] give back is encoded,
    and the text parses back to it. *)
Lemma encodes_roundtrip (neg : bool) (m e : Z) (sg : bool) (c k : Z) :
  encodes neg m e sg c k ->
  Number.eqb (of_decimal sg c k) (Fin neg m e) = true ->
  exists s, floatToWire (Fin neg m e) = Ok s
            /\ Number.eqb (parseFloat s) (Fin neg m e) = true.
Proof.
  intros Henc Heq.
  destruct (encodes_literal _ _ _ _ _ _ Henc) as [_ Hpf].
  destruct Henc as (ip & fp & ex & Hr & Hne & Hip & Hfp & Hcv & Hkv & Hc0 & Hsg
                    & Hform & out & c0 & t & Hfw & Hc0' & Ht & Hct & Hp).
  assert (Htol : tolerance_exceeded (Fin neg m e) = false).
  { unfold tolerance_exceeded. rewrite Hpf.
    apply accepted_when_equal; [reflexivity | assumption]. }
  rewrite Htol in Hfw. exists out. split; [assumption |].
  rewrite (parseFloat_prints out _ c0 (k + t) Hc0' Hp).
  destruct (c =? 0) eqn:Ec.
  - apply Z.eqb_eq in Ec. rewrite Ec, of_decimal_zero in Heq.
    apply eqb_zero_left in Heq. subst m.
    pose proof (Z.pow_pos_nonneg 10 t ltac:(lia) Ht).
    assert (c0 = 0) by nia. subst c0.
    rewrite of_decimal_zero. apply eqb_zeros.
  - rewrite Bool.andb_true_r.
    rewrite <- of_decimal_shift, <- Hct by assumption. assumption.
Qed.

Lemma zero_value : zero = Fin false 0 emin.
Proof. reflexivity. Qed.

Lemma eqb_zero_right (s : bool) (m e : Z) (s' : bool) (e' : Z) :
  Number.eqb (Fin s m e) (Fin s' 0 e') = true -> m = 0.
Proof.
  unfold Number.eqb, Number.compare, align.
  replace (signed s' 0) with 0 by (destruct s'; reflexivity).
  rewrite Z.mul_0_l.
  destruct (signed s m * 2 ^ (e - Z.min e e') ?= 0) eqn:E; try discriminate.
  intros _. apply Z.compare_eq in E.
  pose proof (pow2_pos (e - Z.min e e') ltac:(lia)).
  destruct s; cbn [signed] in E; nia.
Qed.

(** A decimal of eight places other than zero does not round to zero. *)
Lemma of_decimal_8_nonzero (sg : bool) (c : Z) :
  0 <= c -> Number.eqb (of_decimal sg c (-8)) zero = true -> c = 0.
Proof.
  intros Hc Heq. destruct (Z.eq_dec c 0) as [? | Hc0]; [assumption | exfalso].
  assert (Hp : 0 < c) by lia.
  assert (HQ : 0 < 10 ^ 8) by reflexivity.
  rewrite of_decimal_8, zero_value in Heq.
  pose proof (floor_log2_spec c (10 ^ 8) Hp HQ) as Hmag.
  pose proof (fl_significand c (10 ^ 8) Hp HQ) as Hsig.
  pose proof (fl_cases sg c (10 ^ 8) Hp HQ) as Hcs.
  cbv zeta in Hsig, Hcs.
  set (l := floor_log2 c (10 ^ 8)) in *.
  assert (Hl : -27 <= l).
  { destruct (Z_le_gt_dec (-27) l) as [? | Hlt]; [assumption | exfalso].
    destruct Hmag as [[H0 _] | [H0 [B B']]]; [lia |].
    pose proof (pow2_le_mono 27 (- l - 1) ltac:(lia)).
    change (2 ^ 27) with 134217728 in *. change (10 ^ 8) with 100000000 in *.
    nia. }
  destruct Hsig as [_ [Hn _]]. specialize (Hn ltac:(unfold emin; lia)).
  set (m0 := rne_div _ _) in *. clearbody m0.
  destruct Hcs as [[H53 Hfl] | [H53 Hfl]]; rewrite Hfl in Heq;
    (destruct (emax <? _); [destruct sg; discriminate Heq |]);
    apply eqb_zero_right in Heq; lia.
Qed.

(** A number of [10^21] or more does not round-trip to zero. *)
Lemma large_nonzero (sg : bool) (c k m e : Z) :
  is_large m e = true ->
  Number.eqb (of_decimal false c k) (Fin false m e) = true ->
  Number.eqb (of_decimal sg c k) zero = false.
Proof.
  intros Hl Heq. rewrite of_decimal_sign.
  unfold is_large in Hl. apply Bool.andb_true_iff in Hl.
  destruct Hl as [He H21]. apply Z.leb_le in He, H21.
  destruct (of_decimal false c k) as [| s1 | s1 m1 e1].
  - discriminate.
  - destruct s1; discriminate.
  - cbn [with_sign].
    destruct (Number.eqb (Fin sg m1 e1) zero) eqn:E; [| reflexivity].
    rewrite zero_value in E. apply eqb_zero_right in E. subst m1.
    apply eqb_zero_left in Heq. subst m. rewrite Z.mul_0_l in H21.
    change (10 ^ 21) with 1000000000000000000000 in H21. lia.
Qed.

Lemma lit_1e_7 : of_decimal false 1 (-7) = Fin false 7555786372591432 (-76).
Proof. vm_compute. reflexivity. Qed.

(** Up to 1e-7 the eighth place is at most 10. *)
Lemma scaled8_upto_1e_7 (m e : Z) :
  canonical m e ->
  Number.geb (of_decimal false 1 (-7)) (Fin false m e) = true ->
  scaled8 m e <= 10 /\ is_large m e = false.
Proof.
  intros Hc. rewrite lit_1e_7. unfold Number.geb, Number.compare, align.
  cbn [signed].
  assert (Hm : 0 <= m) by (destruct Hc as [[? ?] | [? ?]]; lia).
  set (a := 7555786372591432 * 2 ^ (-76 - Z.min (-76) e)).
  set (b := m * 2 ^ (e - Z.min (-76) e)).
  intros H.
  assert (Hab : b <= a).
  { destruct (a ?= b) eqn:E; try discriminate.
    - apply Z.compare_eq in E. lia.
    - apply Z.compare_gt_iff in E. lia. }
  clear H. subst a b.
  destruct (Z_le_gt_dec (-76) e) as [He | He].
  - replace (Z.min (-76) e) with (-76) in Hab by lia.
    replace (-76 - -76) with 0 in Hab by lia. change (2 ^ 0) with 1 in Hab.
    pose proof (pow2_pos (e - -76) ltac:(lia)) as PS.
    unfold scaled8, is_large. destruct (0 <=? e) eqn:E0.
    + apply Z.leb_le in E0.
      pose proof (pow2_le_mono 76 (e - -76) ltac:(lia)) as H76.
      change (2 ^ 76) with 75557863725914323419136 in H76.
      assert (m = 0) by nia. subst m. rewrite !Z.mul_0_l.
      split; [lia | reflexivity].
    + split; [| reflexivity]. apply Z.leb_gt in E0.
      pose proof (pow2_pos (- e) ltac:(lia)) as PE.
      assert (HS : 2 ^ (- e) * 2 ^ (e - -76) = 2 ^ 76).
      { rewrite <- pow2_split by lia. f_equal. lia. }
      change (2 ^ 76) with 75557863725914323419136 in HS.
      rewrite pow2_succ by lia. change (10 ^ 8) with 100000000.
      set (E := 2 ^ (- e)) in *. set (S := 2 ^ (e - -76)) in *.
      assert (2 * m * 100000000 + E < 11 * (2 * E)) by nia.
      apply Z.lt_succ_r. apply Z.div_lt_upper_bound; lia.
  - replace (Z.min (-76) e) with e in Hab by lia.
    rewrite Z.sub_diag in Hab. change (2 ^ 0) with 1 in Hab.
    pose proof (pow2_pos (-76 - e) ltac:(lia)) as PJ.
    unfold scaled8, is_large.
    assert (E0 : (0 <=? e) = false) by (apply Z.leb_gt; lia).
    rewrite E0. split; [| reflexivity].
    assert (HS : 2 ^ (- e) = 2 ^ 76 * 2 ^ (-76 - e)).
    { rewrite <- pow2_split by lia. f_equal. lia. }
    change (2 ^ 76) with 75557863725914323419136 in HS.
    rewrite pow2_succ by lia. change (10 ^ 8) with 100000000.
    set (E := 2 ^ (- e)) in *. set (J := 2 ^ (-76 - e)) in *.
    assert (2 * m * 100000000 + E < 11 * (2 * E)) by nia.
    apply Z.lt_succ_r. apply Z.div_lt_upper_bound; lia.
Qed.

(** Below 1e-12 the eighth place is 0. *)
Lemma scaled8_below_tolerance (m e : Z) :
  canonical m e ->
  Number.geb (Fin false m e) (of_decimal false 1 (-12)) = false ->
  scaled8 m e = 0 /\ is_large m e = false.
Proof.
  intros Hc. rewrite tolerance_value. unfold Number.geb, Number.compare, align.
  cbn [signed].
  assert (Hm : 0 <= m) by (destruct Hc as [[? ?] | [? ?]]; lia).
  set (a := m * 2 ^ (e - Z.min e (-92))).
  set (b := 4951760157141521 * 2 ^ (-92 - Z.min e (-92))).
  intros H.
  assert (Hab : a < b).
  { destruct (a ?= b) eqn:E; try discriminate.
    apply Z.compare_lt_iff in E. exact E. }
  clear H. subst a b.
  destruct (Z_le_gt_dec (-92) e) as [He | He].
  - replace (Z.min e (-92)) with (-92) in Hab by lia.
    replace (-92 - -92) with 0 in Hab by lia. change (2 ^ 0) with 1 in Hab.
    pose proof (pow2_pos (e - -92) ltac:(lia)) as PS.
    unfold scaled8, is_large. destruct (0 <=? e) eqn:E0.
    + apply Z.leb_le in E0.
      pose proof (pow2_le_mono 92 (e - -92) ltac:(lia)) as H92.
      change (2 ^ 92) with 4951760157141521099596496896 in H92.
      assert (m = 0) by nia. subst m. rewrite !Z.mul_0_l.
      split; reflexivity.
    + split; [| reflexivity]. apply Z.leb_gt in E0.
      pose proof (pow2_pos (- e) ltac:(lia)) as PE.
      assert (HS : 2 ^ (- e) * 2 ^ (e - -92) = 2 ^ 92).
      { rewrite <- pow2_split by lia. f_equal. lia. }
      change (2 ^ 92) with 4951760157141521099596496896 in HS.
      rewrite pow2_succ by lia. change (10 ^ 8) with 100000000.
      set (E := 2 ^ (- e)) in *. set (S := 2 ^ (e - -92)) in *.
      assert (2 * m * 100000000 + E < 2 * E) by nia.
      apply Z.div_small. lia.
  - replace (Z.min e (-92)) with e in Hab by lia.
    rewrite Z.sub_diag in Hab. change (2 ^ 0) with 1 in Hab.
    pose proof (pow2_pos (-92 - e) ltac:(lia)) as PJ.
    unfold scaled8, is_large.
    assert (E0 : (0 <=? e) = false) by (apply Z.leb_gt; lia).
    rewrite E0. split; [| reflexivity].
    assert (HS : 2 ^ (- e) = 2 ^ 92 * 2 ^ (-92 - e)).
    { rewrite <- pow2_split by lia. f_equal. lia. }
    change (2 ^ 92) with 4951760157141521099596496896 in HS.
    rewrite pow2_succ by lia. change (10 ^ 8) with 100000000.
    set (E := 2 ^ (- e)) in *. set (J := 2 ^ (-92 - e)) in *.
    assert (2 * m * 100000000 + E < 2 * E) by nia.
    apply Z.div_small. lia.
Qed.

(** A double written over the least exponent is the same double. *)
Lemma of_dyadic_align (s : bool) (m e : Z) :
  canonical m e -> of_dyadic s (m * 2 ^ (e - emin)) emin = Fin s m e.
Proof.
  intros Hc. rewrite <- (of_dyadic_exact s m e Hc).
  assert (He : emin <= e)
    by (destruct Hc as [[? ?] | [? ?]]; unfold emin in *; lia).
  assert (Hm : 0 <= m) by (destruct Hc as [[? ?] | [? ?]]; lia).
  unfold of_dyadic. change (0 <=? emin) with false. cbv iota.
  pose proof (pow2_pos (e - emin) ltac:(lia)) as PJ.
  destruct (0 <=? e) eqn:E0.
  - apply Z.leb_le in E0.
    assert (Hs : 2 ^ (e - emin) = 2 ^ e * 2 ^ (- emin)).
    { rewrite <- pow2_split by (unfold emin; lia). f_equal; lia. }
    rewrite Hs, Z.mul_assoc. rewrite <- (Z.mul_1_l (2 ^ (- emin))) at 2.
    pose proof (pow2_pos e E0). pose proof (pow2_pos (- emin) ltac:(unfold emin; lia)).
    apply fl_scale; nia.
  - apply Z.leb_gt in E0.
    assert (Hs : 2 ^ (- emin) = 2 ^ (- e) * 2 ^ (e - emin)).
    { rewrite <- pow2_split by (unfold emin in *; lia). f_equal; lia. }
    rewrite Hs. pose proof (pow2_pos (- e) ltac:(lia)).
    apply fl_scale; lia.
Qed.

(** Zero minus a double is the double with the other sign. *)
Lemma sub_from_zero (sg neg : bool) (m e : Z) :
  canonical m e ->
  Number.abs (Number.sub (Fin sg 0 emin) (Fin neg m e)) = Fin false m e.
Proof.
  intros Hc.
  assert (He : emin <= e)
    by (destruct Hc as [[? ?] | [? ?]]; unfold emin in *; lia).
  assert (Hm : 0 <= m) by (destruct Hc as [[? ?] | [? ?]]; lia).
  unfold Number.sub, align.
  replace (signed sg 0) with 0 by (destruct sg; reflexivity).
  replace (Z.min emin e) with emin by lia.
  rewrite Z.mul_0_l. cbn [Z.sub Z.add].
  pose proof (pow2_pos (e - emin) ltac:(lia)) as PJ.
  destruct (Z.eq_dec m 0) as [-> | Hm0].
  - assert (e = emin) by (destruct Hc as [[? ?] | [? ?]]; lia). subst e.
    destruct neg; reflexivity.
  - set (d := Z.opp (signed neg m * 2 ^ (e - emin))).
    assert (Hd : Z.abs d = m * 2 ^ (e - emin)).
    { subst d. destruct neg; cbn [signed]; nia. }
    assert (Hd0 : (d =? 0) = false).
    { apply Z.eqb_neq. subst d. destruct neg; cbn [signed]; nia. }
    rewrite Hd0, Hd, of_dyadic_align by assumption. reflexivity.
Qed.

End RoundTrip.

(** C3. For every finite Number [x] that a decimal with at most eight
    fractional digits denotes (the double nearest to [k / 10^8], of either
    sign), [floatToWire x] succeeds and parsing the string it returns gives
    [x] back ([decode (encode x) == x]). *)
Theorem floatToWire_round_trip (neg : bool) (k : Z) :
  0 <= k -> is_finite (of_decimal neg k (-8)) = true ->
  exists s, floatToWire (of_decimal neg k (-8)) = Ok s
            /\ Number.eqb (parseFloat s) (of_decimal neg k (-8)) = true.
Proof.
  intros Hk Hfin.
  pose proof (of_decimal_wf neg k (-8) Hk) as Hwf.
  pose proof (of_decimal_sign neg k (-8)) as Hsign.
  destruct (of_decimal neg k (-8)) as [| sx | sx m e] eqn:Hx; try discriminate.
  assert (sx = neg).
  { destruct (of_decimal false k (-8)); try discriminate.
    injection Hsign as -> _ _. reflexivity. }
  subst sx. cbn [wf] in Hwf.
  destruct (floatToWire_finite neg m e Hwf) as (sg & c & kk & Henc).
  apply (encodes_roundtrip neg m e sg c kk Henc).
  destruct Henc as (ip & fp & ex & Hr & Hne & Hip & Hfp & Hcv & Hkv & Hc0 & Hsg
                    & Hform & _).
  assert (Hm : 0 <= m) by (destruct Hwf as [[? ?] | [? ?]]; lia).
  destruct (Z.eq_dec m 0) as [Hm0 | Hm0].
  - (* a zero *)
    subst m. rewrite Hsg, Bool.andb_false_r.
    destruct (is_large 0 e) eqn:El.
    + unfold is_large in El. rewrite Z.mul_0_l in El.
      rewrite Bool.andb_false_r in El. discriminate.
    + destruct Hform as [-> ->].
      assert (e = emin) by (destruct Hwf as [[? ?] | [? ?]]; lia). subst e.
      assert (Hz : scaled8 0 emin = 0) by (vm_compute; reflexivity).
      rewrite Hz, of_decimal_zero. apply eqb_zeros.
  - assert (Hsg' : sg = neg).
    { rewrite Hsg. assert (E : (0 <? m) = true) by (apply Z.ltb_lt; lia).
      rewrite E. apply Bool.andb_true_r. }
    subst sg. rewrite Hsg' in *.
    destruct (is_large m e).
    + rewrite of_decimal_sign. apply eqb_with_sign; [| assumption].
      apply of_decimal_sign.
    + destruct Hform as [-> ->].
      rewrite (fixed_roundtrip neg k m e Hk Hx). apply eqb_same.
Qed.

(** The double nearest to 0.001 has eight places and goes round. *)
Lemma floatToWire_round_trip_witness :
  exists s, floatToWire (of_decimal false 100000 (-8)) = Ok s
            /\ Number.eqb (parseFloat s) (of_decimal false 100000 (-8)) = true.
Proof.
  apply (floatToWire_round_trip false 100000); [lia | reflexivity].
Defined.

Section Claims.

Lemma floatToWire_throws (x : number) (msg : string) :
  floatToWire x = Throw msg ->
  msg = PrecisionLoss
  \/ msg = "[DecimalError] Invalid argument: " ++ toFixed8 x.
Proof.
  rewrite floatToWire_guard.
  destruct (tolerance_exceeded x); [intros H; injection H as <-; auto |].
  destruct (toFixed8 x =? "-0")%string; [discriminate |].
  unfold DecimalJs.new.
  destruct (parse_sign (toFixed8 x)) as [neg v'].
  destruct (DecimalJs.match_decimal v') as [[[ip fp] ex] |]; [discriminate |].
  destruct (v' =? "Infinity")%string; [discriminate |].
  destruct (v' =? "NaN")%string; [discriminate |].
  cbn [bind]. intros H. injection H as <-. auto.
Qed.

Lemma accepted_not_precision_loss (x : number) :
  tolerance_exceeded x = false -> floatToWire x <> Throw PrecisionLoss.
Proof.
  intros Htol. rewrite floatToWire_guard, Htol.
  destruct (toFixed8 x =? "-0")%string; [discriminate |].
  unfold DecimalJs.new.
  destruct (parse_sign (toFixed8 x)) as [neg v'].
  destruct (DecimalJs.match_decimal v') as [[[ip fp] ex] |]; [discriminate |].
  destruct (v' =? "Infinity")%string; [discriminate |].
  destruct (v' =? "NaN")%string; [discriminate |].
  cbn [bind]. intros H. injection H as H. discriminate H.
Qed.


End Claims.

(** C2 (the claim as stated fails). The double nearest to 1e-13 is finite and
    cannot be written exactly with eight fractional digits, yet [floatToWire]
    accepts it: its distance to its rounding 0.00000000 is below 1e-12. *)
Lemma tiny_value_is_accepted :
  is_finite (of_decimal false 1 (-13)) = true
  /\ exact8 (of_decimal false 1 (-13)) = false
  /\ floatToWire (of_decimal false 1 (-13)) = Ok "0"
  /\ floatToWire (of_decimal false 1 (-13)) <> Throw PrecisionLoss.
Proof.
  assert (H : floatToWire (of_decimal false 1 (-13)) = Ok "0")
    by (vm_compute; reflexivity).
  repeat split; try (vm_compute; reflexivity).
  rewrite H. discriminate.
Qed.

(** C2 (amended). [floatToWire x] fails with PrecisionLoss exactly when
    [x.toFixed(8)], parsed back to a Number, differs from [x] by 1e-12 or more
    in absolute value (the subtraction and the comparison are those of
    Numbers).  A finite [x] that needs more than eight fractional digits is
    rejected under that condition only: every [x] below 1e-12 in magnitude is
    accepted and encoded as ["0"], while 0.123456789 is rejected. *)
Theorem precision_loss_iff :
  (forall x : number,
      floatToWire x = Throw PrecisionLoss <-> tolerance_exceeded x = true)
  /\ (forall x : number,
      wf x -> is_finite x = true ->
      Number.geb (Number.abs x) (of_decimal false 1 (-12)) = false ->
      floatToWire x = Ok "0")
  /\ floatToWire (of_decimal false 123456789 (-9)) = Throw PrecisionLoss.
Proof.
  split; [| split].
  - intros x. split.
    + intros H. destruct (tolerance_exceeded x) eqn:E; [reflexivity |].
      exfalso. exact (accepted_not_precision_loss x E H).
    + intros H. rewrite floatToWire_guard, H. reflexivity.
  - intros x Hwf Hfin Hsmall.
    destruct x as [| sx | neg m e]; [discriminate Hfin | discriminate Hfin |].
    cbn [wf Number.abs] in Hwf, Hsmall.
    destruct (scaled8_below_tolerance m e Hwf Hsmall) as [Hz Hl].
    pose proof (toFixed8_cases neg m e) as Hfix. rewrite Hl, Hz in Hfix.
    assert (Htol : tolerance_exceeded (Fin neg m e) = false).
    { unfold tolerance_exceeded. rewrite Hfix.
      assert (Hp : parseFloat
                     (sign_string (neg && (0 <? m))
                      ++ render (fst (fixed8_digits 0))
                           (Some (snd (fixed8_digits 0))) None)
                   = Fin (neg && (0 <? m)) 0 emin)
        by (destruct (neg && (0 <? m)); vm_compute; reflexivity).
      rewrite Hp, sub_from_zero by assumption. exact Hsmall. }
    rewrite floatToWire_guard, Htol, Hfix.
    destruct (neg && (0 <? m)); vm_compute; reflexivity.
  - vm_compute. reflexivity.
Qed.

(** The double nearest to -1e-13 is a Number below 1e-12 in magnitude. *)
Lemma precision_loss_iff_witness :
  floatToWire (of_decimal true 1 (-13)) = Ok "0".
Proof.
  apply (proj1 (proj2 precision_loss_iff) (of_decimal true 1 (-13))).
  - apply of_decimal_wf. lia.
  - vm_compute. reflexivity.
  - vm_compute. reflexivity.
Defined.

(** C4. Encoding negative zero yields ["0"], as does encoding -1e-13 (whose
    [toFixed(8)] is [-0.00000000]); for every Number [floatToWire] accepts,
    the string is ["0"] whenever the rounded text parsed back is zero, and it
    is never a minus sign before a zero mantissa. *)
Theorem no_negative_zero :
  floatToWire (of_decimal true 0 0) = Ok "0"
  /\ floatToWire (of_decimal true 1 (-13)) = Ok "0"
  /\ (forall (x : number) (s : string),
      wf x -> floatToWire x = Ok s ->
      (Number.eqb (parseFloat (toFixed8 x)) zero = true -> s = "0")
      /\ neg_zero_artifact s = false).
Proof.
  split; [vm_compute; reflexivity |].
  split; [vm_compute; reflexivity |].
  intros x s Hwf Hs.
  destruct x as [| sx | neg m e].
  - assert (H : floatToWire NaN = Ok "NaN") by (vm_compute; reflexivity).
    rewrite H in Hs. injection Hs as <-.
    split; [intros Hz; vm_compute in Hz; discriminate Hz | reflexivity].
  - destruct sx.
    + assert (H : floatToWire (Inf true) = Ok "-Infinity")
        by (vm_compute; reflexivity).
      rewrite H in Hs. injection Hs as <-.
      split; [intros Hz; vm_compute in Hz; discriminate Hz | reflexivity].
    + assert (H : floatToWire (Inf false) = Ok "Infinity")
        by (vm_compute; reflexivity).
      rewrite H in Hs. injection Hs as <-.
      split; [intros Hz; vm_compute in Hz; discriminate Hz | reflexivity].
  - cbn [wf] in Hwf.
    destruct (floatToWire_finite neg m e Hwf) as (sg & c & k & Henc).
    destruct (encodes_literal _ _ _ _ _ _ Henc) as [_ Hpf].
    destruct Henc as (ip & fp & ex & Hr & Hne & Hip & Hfp & Hcv & Hkv & Hc0 & Hsg
                      & Hform & out & c0 & t & Hfw & Hc0' & Ht & Hct & Hp).
    destruct (tolerance_exceeded (Fin neg m e)) eqn:Htol;
      [rewrite Hfw in Hs; discriminate Hs |].
    assert (Hout : out = s) by (rewrite Hfw in Hs; injection Hs; auto).
    subst out. split.
    + intros Hz. rewrite Hpf in Hz.
      destruct (is_large m e) eqn:El.
      * rewrite (large_nonzero sg c k m e El Hform) in Hz. discriminate Hz.
      * destruct Hform as [Hc8 Hk8]. rewrite Hk8 in Hz.
        pose proof (of_decimal_8_nonzero sg c Hc0 Hz) as Hcz.
        pose proof (toFixed8_cases neg m e) as Hfix.
        rewrite El, <- Hc8, Hcz in Hfix.
        pose proof (floatToWire_guard (Fin neg m e)) as Hg.
        rewrite Htol, Hfix, Hs in Hg.
        destruct (neg && (0 <? m)); vm_compute in Hg; injection Hg as ->;
          reflexivity.
    + apply (prints_no_negative_zero s _ c0 (k + t) Hp).
      destruct (c =? 0) eqn:Ec.
      * right. apply Bool.andb_false_r.
      * left. apply Z.eqb_neq in Ec. intros ->. lia.
Qed.

(** The double nearest to -1e-13 is accepted and rounds to zero. *)
Lemma no_negative_zero_witness :
  (Number.eqb (parseFloat (toFixed8 (of_decimal true 1 (-13)))) zero = true ->
   "0" = "0")
  /\ neg_zero_artifact "0" = false.
Proof.
  apply (proj2 (proj2 no_negative_zero) (of_decimal true 1 (-13)) "0").
  - apply of_decimal_wf. lia.
  - vm_compute. reflexivity.
Defined.




(** C9 (the claim as stated fails). The double nearest to 1e-13 is not zero,
    is at most 1e-7 in magnitude and is accepted, yet its encoding ["0"] has no
    exponent marker. *)
Lemma tiny_value_without_exponent :
  Number.eqb (of_decimal false 1 (-13)) zero = false
  /\ Number.geb (of_decimal false 1 (-7))
                (Number.abs (of_decimal false 1 (-13))) = true
  /\ floatToWire (of_decimal false 1 (-13)) = Ok "0"
  /\ has_exponent "0" = false.
Proof. repeat split; vm_compute; reflexivity. Qed.

(** C9 (amended). For every finite Number of magnitude at most 1e-7 that
    [floatToWire] accepts and whose [toFixed(8)] is not zero, the string is in
    exponent notation; 1e-7 yields ["1e-7"]. *)
Theorem small_values_in_exponent_notation :
  (forall (x : number) (s : string),
      wf x -> is_finite x = true -> floatToWire x = Ok s ->
      Number.geb (of_decimal false 1 (-7)) (Number.abs x) = true ->
      Number.eqb (parseFloat (toFixed8 x)) zero = false ->
      has_exponent s = true)
  /\ floatToWire (of_decimal false 1 (-7)) = Ok "1e-7".
Proof.
  split; [| vm_compute; reflexivity].
  intros x s Hwf Hfin Hs Hle Hnz.
  destruct x as [| sx | neg m e]; [discriminate Hfin | discriminate Hfin |].
  cbn [wf Number.abs] in Hwf, Hle.
  destruct (scaled8_upto_1e_7 m e Hwf Hle) as [H10 El].
  assert (Hm : 0 <= m) by (destruct Hwf as [[? ?] | [? ?]]; lia).
  pose proof (scaled8_nonneg m e Hm) as H0.
  pose proof (toFixed8_cases neg m e) as Hfix. rewrite El in Hfix.
  pose proof (floatToWire_guard (Fin neg m e)) as Hg. rewrite Hs in Hg.
  destruct (tolerance_exceeded (Fin neg m e)); [discriminate Hg |].
  rewrite Hfix in Hg, Hnz.
  assert (Hc : scaled8 m e = 0 \/ scaled8 m e = 1 \/ scaled8 m e = 2
               \/ scaled8 m e = 3 \/ scaled8 m e = 4 \/ scaled8 m e = 5
               \/ scaled8 m e = 6 \/ scaled8 m e = 7 \/ scaled8 m e = 8
               \/ scaled8 m e = 9 \/ scaled8 m e = 10) by lia.
  destruct Hc as [Hc | Hc].
  { rewrite Hc in Hnz.
    destruct (neg && (0 <? m)); vm_compute in Hnz; discriminate Hnz. }
  repeat (destruct Hc as [Hc | Hc];
          [rewrite Hc in Hg;
           destruct (neg && (0 <? m)); vm_compute in Hg; injection Hg as ->;
           reflexivity |]).
  rewrite Hc in Hg.
  destruct (neg && (0 <? m)); vm_compute in Hg; injection Hg as ->; reflexivity.
Qed.

(** The double nearest to -3e-8 is at most 1e-7 in magnitude. *)
Lemma small_values_in_exponent_notation_witness : has_exponent "-3e-8" = true.
Proof.
  apply (proj1 small_values_in_exponent_notation (of_decimal true 3 (-8)) "-3e-8").
  - apply of_decimal_wf. lia.
  - vm_compute. reflexivity.
  - vm_compute. reflexivity.
  - vm_compute. reflexivity.
  - vm_compute. reflexivity.
Defined.

(** ** The order encoder *)

(** C1. For an order request that carries no Cloid the encoder yields the
    record of the instrument index, the buy flag, the encoded price and size,
    the reduce-only flag and the normalised order type, and the key [c] is
    absent; the request of the example with instrument index 0 yields
    [{a:0, b:true, p:"90000", s:"0.001", r:false, t:{limit:{tif:"Gtc"}}}]. *)
Theorem order_wire_without_cloid :
  (forall (order : OrderRequest) (asset : number),
      truthy_cloid (OrderRequest.cloid order) = None ->
      orderRequestToOrderWire order asset =
        (p <- floatToWire (OrderRequest.limit_px order) ;;
         s <- floatToWire (OrderRequest.sz order) ;;
         t <- orderTypeToWire (OrderRequest.order_type order) ;;
         Ok (OrderWire.mk asset (OrderRequest.is_buy order) p s
               (OrderRequest.reduce_only order) t Absent)))
  /\ (forall (order : OrderRequest) (asset : number) (w : OrderWire),
      truthy_cloid (OrderRequest.cloid order) = None ->
      orderRequestToOrderWire order asset = Ok w ->
      OrderWire.c w = Absent)
  /\ orderRequestToOrderWire orderRequest assetId =
       Ok (OrderWire.mk (of_decimal false 0 0) true "90000" "0.001" false
             (OrderTypeWire.mk (Present (mkLimit Gtc)) Absent) Absent).
Proof.
  split; [| split].
  - intros order asset Hc. unfold orderRequestToOrderWire.
    rewrite Hc. reflexivity.
  - intros order asset w Hc. unfold orderRequestToOrderWire.
    rewrite Hc.
    destruct (floatToWire (OrderRequest.limit_px order)); simpl; [| discriminate].
    destruct (floatToWire (OrderRequest.sz order)); simpl; [| discriminate].
    destruct (orderTypeToWire (OrderRequest.order_type order)); simpl;
      [| discriminate].
    intros H. injection H as <-. reflexivity.
  - vm_compute. reflexivity.
Qed.

(** ** The order type normaliser *)

(** C6 (the code diverges from the claim). With the key [limit] present and
    holding [undefined], and no trigger, neither variant is populated, yet
    the normaliser returns the wire variant [{ limit: undefined }] instead of
    failing with InvalidOrderType: the limit branch tests the key only.  The
    trigger branch beside it tests the value too, and rejects the same
    unpopulated shape, [{ trigger: undefined }]. *)
Lemma limit_key_without_value :
  ~ populated (OrderType.limit (OrderType.mk Undefined Absent))
  /\ ~ populated (OrderType.trigger (OrderType.mk Undefined Absent))
  /\ orderTypeToWire (OrderType.mk Undefined Absent)
     = Ok (OrderTypeWire.mk Undefined Absent)
  /\ orderTypeToWire (OrderType.mk Absent Undefined) = Throw InvalidOrderType.
Proof.
  unfold populated. simpl. repeat split; try reflexivity; intros H; apply H;
    reflexivity.
Qed.

(** The failures of the normaliser as the code has them: it fails with
    InvalidOrderType exactly when the key [limit] is absent and the trigger
    variant is not populated, so a failure always means that neither variant
    is populated; the order encoder then returns no wire record (it throws,
    and throws InvalidOrderType when price and size encode); InvalidOrderType
    is not PrecisionLoss. *)
Theorem invalid_order_type_iff :
  (forall orderType : OrderType,
      orderTypeToWire orderType = Throw InvalidOrderType
      <-> has_key (OrderType.limit orderType) = false
          /\ get (OrderType.trigger orderType) = None)
  /\ (forall (order : OrderRequest) (asset : number),
      orderTypeToWire (OrderRequest.order_type order) = Throw InvalidOrderType ->
      (exists msg, orderRequestToOrderWire order asset = Throw msg)
      /\ (forall p s,
            floatToWire (OrderRequest.limit_px order) = Ok p ->
            floatToWire (OrderRequest.sz order) = Ok s ->
            orderRequestToOrderWire order asset = Throw InvalidOrderType))
  /\ InvalidOrderType <> PrecisionLoss.
Proof.
  split; [| split].
  - intros orderType. unfold orderTypeToWire.
    destruct (OrderType.limit orderType) as [| | l]; cbn [has_key].
    + destruct (OrderType.trigger orderType) as [| | trigger]; cbn [get].
      * split; auto.
      * split; auto.
      * split; [| intros [_ H]; discriminate H].
        destruct (floatToWire (TriggerOrderType.triggerPx trigger)) as [px | msg]
          eqn:E; cbn [bind]; [discriminate |].
        intros H. injection H as ->.
        destruct (floatToWire_throws _ _ E) as [H | H]; discriminate H.
    + split; [discriminate | intros [H _]; discriminate H].
    + split; [discriminate | intros [H _]; discriminate H].
  - intros order asset Ht. unfold orderRequestToOrderWire. rewrite Ht. split.
    + destruct (floatToWire (OrderRequest.limit_px order)) as [p | m1];
        cbn [bind]; [| eexists; reflexivity].
      destruct (floatToWire (OrderRequest.sz order)) as [s | m2];
        cbn [bind]; eexists; reflexivity.
    + intros p s -> ->. reflexivity.
  - discriminate.
Qed.

(** An order without an order type, whose price and size encode. *)
Lemma invalid_order_type_iff_witness :
  orderRequestToOrderWire
    (OrderRequest.mk "BTC" true (of_decimal false 1 (-3)) (of_decimal false 9 4)
       (OrderType.mk Absent Undefined) false Absent)
    (of_decimal false 0 0)
  = Throw InvalidOrderType.
Proof.
  apply (proj2 (proj1 (proj2 invalid_order_type_iff)
                  (OrderRequest.mk "BTC" true (of_decimal false 1 (-3))
                     (of_decimal false 9 4) (OrderType.mk Absent Undefined)
                     false Absent)
                  (of_decimal false 0 0)
                  (proj2 (proj1 invalid_order_type_iff
                            (OrderType.mk Absent Undefined))
                         (conj eq_refl eq_refl)))
           "90000" "0.001");
    vm_compute; reflexivity.
Defined.

(** C10. When the key [limit] is present, whether it holds a value or
    [undefined] and whatever the trigger, the normaliser returns the wire
    variant with that limit property unchanged and no trigger: never the
    trigger variant, never InvalidOrderType. *)
Theorem limit_key_selects_limit (orderType : OrderType) :
  has_key (OrderType.limit orderType) = true ->
  orderTypeToWire orderType
  = Ok (OrderTypeWire.mk (OrderType.limit orderType) Absent).
Proof.
  intros H. unfold orderTypeToWire. rewrite H.
  destruct (OrderType.limit orderType); [discriminate H | reflexivity ..].
Qed.

(** The key [limit] holding [undefined] beside a populated trigger. *)
Lemma limit_key_selects_limit_witness :
  orderTypeToWire
    (OrderType.mk Undefined
       (Present (TriggerOrderType.mk (of_decimal false 9 4) true tp)))
  = Ok (OrderTypeWire.mk Undefined Absent).
Proof.
  apply (limit_key_selects_limit
           (OrderType.mk Undefined
              (Present (TriggerOrderType.mk (of_decimal false 9 4) true tp)))).
  reflexivity.
Defined.

(** ** The client order id *)

Section CloidFacts.

Lemma slice_prefix (payload : string) : slice 2 ("0x" ++ payload) = payload.
Proof. reflexivity. Qed.

Lemma startsWith_prefix (payload : string) :
  startsWith "0x" ("0x" ++ payload) = true.
Proof. destruct payload; vm_compute; reflexivity. Qed.

Lemma length_append (a b : string) :
  String.length (a ++ b) = (String.length a + String.length b)%nat.
Proof. induction a as [| c a IH]; simpl; congruence. Qed.

Lemma string_of_digits_length (ds : list Z) :
  String.length (string_of_digits ds) = List.length ds.
Proof. induction ds as [| d ds IH]; simpl; congruence. Qed.

Lemma padStart0_length (n : nat) (s : string) :
  String.length (padStart0 n s) = Nat.max n (String.length s).
Proof.
  unfold padStart0.
  rewrite length_append, string_of_digits_length, zeros_length. lia.
Qed.

Lemma newCloid_shape (s : string) :
  newCloid s
  = if startsWith "0x" s
    then if (String.length (slice 2 s) =? 32)%nat then Ok (mkCloid s)
         else Throw "cloid is not 16 bytes"
    else Throw "cloid is not a hex string".
Proof.
  unfold newCloid, _validate. cbn [_rawCloid].
  destruct (startsWith "0x" s); [| reflexivity].
  destruct (String.length (slice 2 s) =? 32)%nat; reflexivity.
Qed.

End CloidFacts.

(** C7 (the claim as stated fails). A payload of 32 characters that are not
    hexadecimal digits does not have the Cloid format, yet [fromStr] accepts
    it. *)
Lemma non_hex_cloid_is_accepted :
  cloid_format "0xzzzzzzzzzzzzzzzzzzzzzzzzzzzzzzzz" = false
  /\ fromStr "0xzzzzzzzzzzzzzzzzzzzzzzzzzzzzzzzz"
     = Ok (mkCloid "0xzzzzzzzzzzzzzzzzzzzzzzzzzzzzzzzz").
Proof. split; reflexivity. Qed.

(** C7 (amended). [fromStr] succeeds exactly on the strings that start with
    [0x] and have 32 characters after it, whatever these are, and fails with
    InvalidCloidFormat on the others; [fromInt] validates the padded
    hexadecimal numeral the same way, so it succeeds when the numeral has at
    most 32 characters and fails otherwise; [fromInt 1] is [0x], 31 zeros and
    1; a payload of 31 characters fails. *)
Theorem cloid_validation :
  (forall s : string, cloid_shape s = true -> fromStr s = Ok (mkCloid s))
  /\ (forall s : string, cloid_shape s = false ->
        exists msg, fromStr s = Throw msg /\ InvalidCloidFormat msg)
  /\ (forall n : Z,
        (String.length (toString16 n) <= 32)%nat ->
        fromInt n = Ok (mkCloid ("0x" ++ padStart0 32 (toString16 n))))
  /\ (forall n : Z,
        (32 < String.length (toString16 n))%nat ->
        fromInt n = Throw "cloid is not 16 bytes")
  /\ fromInt 1 = Ok (mkCloid "0x00000000000000000000000000000001")
  /\ (forall payload : string,
        String.length payload = 31%nat ->
        fromStr ("0x" ++ payload) = Throw "cloid is not 16 bytes").
Proof.
  unfold fromStr, fromInt, cloid_shape, InvalidCloidFormat.
  repeat split.
  - intros s H. rewrite newCloid_shape.
    apply Bool.andb_true_iff in H. destruct H as [-> ->]. reflexivity.
  - intros s H. rewrite newCloid_shape.
    destruct (startsWith "0x" s); [| eexists; split; [reflexivity | auto]].
    cbn [andb] in H. rewrite H. eexists; split; [reflexivity | auto].
  - intros n H.
    rewrite newCloid_shape, startsWith_prefix, slice_prefix, padStart0_length.
    replace (Nat.max 32 (String.length (toString16 n))) with 32%nat by lia.
    reflexivity.
  - intros n H.
    rewrite newCloid_shape, startsWith_prefix, slice_prefix, padStart0_length.
    destruct (Nat.max 32 (String.length (toString16 n)) =? 32)%nat eqn:E;
      [apply Nat.eqb_eq in E; lia | reflexivity].
  - intros payload H.
    rewrite newCloid_shape, startsWith_prefix, slice_prefix, H. reflexivity.
Qed.

(** The largest integer of 32 hexadecimal digits. *)
Lemma cloid_validation_witness :
  fromInt (2 ^ 128 - 1) = Ok (mkCloid "0xffffffffffffffffffffffffffffffff").
Proof.
  apply (proj1 (proj2 (proj2 cloid_validation)) (2 ^ 128 - 1)).
  vm_compute. apply le_n.
Defined.

(** ** The action assembler *)

(** C8 (the claim as stated fails). The assembler takes the wire records only:
    the grouping of the action is not a mode the caller supplies, such as
    [normalTpsl]. *)
Lemma grouping_is_not_supplied :
  In "normalTpsl" grouping_modes
  /\ OrderAction.grouping (orderWiresToOrderAction []) <> "normalTpsl".
Proof.
  split; [right; left; reflexivity | discriminate].
Qed.

(** C8 (amended). For every sequence of wire records the action has the
    discriminator ["order"], the records in their input order, nothing added
    or removed, and the grouping mode ["na"]. *)
Theorem order_action_structure (orderWires : list OrderWire) :
  OrderAction.type (orderWiresToOrderAction orderWires) = "order"
  /\ OrderAction.orders (orderWiresToOrderAction orderWires) = orderWires
  /\ OrderAction.grouping (orderWiresToOrderAction orderWires) = "na"
  /\ In (OrderAction.grouping (orderWiresToOrderAction orderWires))
        grouping_modes.
Proof.
  repeat split. left. reflexivity.
Qed.

(** ** Further properties of the encoders *)

Section CloidRaw.

Lemma startsWith_inv (s : string) :
  startsWith "0x" s = true -> s = "0x" ++ slice 2 s.
Proof.
  unfold startsWith. destruct s as [| a [| b r]]; cbn [prefix]; try discriminate.
  - destruct (ascii_dec "0" a); discriminate.
  - destruct (ascii_dec "0" a) as [<- |]; [| discriminate].
    destruct (ascii_dec "x" b) as [<- |]; [| discriminate].
    intros _. reflexivity.
Qed.

End CloidRaw.

(** X1. A Cloid that [fromStr] returns holds the given string unchanged:
    [toRaw] gives it back, it is 34 characters long and starts with [0x], and
    [fromStr] of its raw form returns the same Cloid. *)
Theorem cloid_raw_round_trip (s : string) (c : Cloid) :
  fromStr s = Ok c ->
  toRaw c = s /\ fromStr (toRaw c) = Ok c
  /\ String.length (toRaw c) = 34%nat /\ startsWith "0x" (toRaw c) = true.
Proof.
  unfold fromStr. intros H. pose proof H as H0. rewrite newCloid_shape in H0.
  destruct (startsWith "0x" s) eqn:Hp; [| discriminate H0].
  destruct (String.length (slice 2 s) =? 32)%nat eqn:Hl; [| discriminate H0].
  injection H0 as <-. cbn [toRaw _rawCloid].
  split; [reflexivity |]. split; [assumption |].
  split; [| assumption].
  apply Nat.eqb_eq in Hl. rewrite (startsWith_inv s Hp), length_append, Hl.
  reflexivity.
Qed.

(** A raw Cloid of 32 zeros. *)
Lemma cloid_raw_round_trip_witness :
  toRaw (mkCloid "0x00000000000000000000000000000000")
  = "0x00000000000000000000000000000000"
  /\ fromStr (toRaw (mkCloid "0x00000000000000000000000000000000"))
     = Ok (mkCloid "0x00000000000000000000000000000000")
  /\ String.length (toRaw (mkCloid "0x00000000000000000000000000000000")) = 34%nat
  /\ startsWith "0x" (toRaw (mkCloid "0x00000000000000000000000000000000")) = true.
Proof.
  apply (cloid_raw_round_trip "0x00000000000000000000000000000000").
  reflexivity.
Defined.

(** X2. A Cloid on the request sets the key [c] to its raw string and
    changes nothing else: the same failures, the same other fields; a [null]
    or [undefined] cloid is treated as an absent one. *)
Theorem cloid_only_sets_c (order : OrderRequest) (asset : number) (cl : Cloid) :
  orderRequestToOrderWire (set_cloid order (Present (Some cl))) asset
  = (w <- orderRequestToOrderWire (set_cloid order Absent) asset ;;
     Ok (set_c w (Present (toRaw cl))))
  /\ orderRequestToOrderWire (set_cloid order (Present None)) asset
     = orderRequestToOrderWire (set_cloid order Absent) asset
  /\ orderRequestToOrderWire (set_cloid order Undefined) asset
     = orderRequestToOrderWire (set_cloid order Absent) asset.
Proof.
  unfold orderRequestToOrderWire, set_cloid. cbn.
  destruct (floatToWire (OrderRequest.limit_px order)); cbn; [| auto].
  destruct (floatToWire (OrderRequest.sz order)); cbn; [| auto].
  destruct (orderTypeToWire (OrderRequest.order_type order)); cbn; auto.
Qed.

(** X3. The order encoder returns a record exactly when price, size and
    order type all encode; otherwise it throws the first failure, in the order
    price, size, order type, whatever the cloid. *)
Theorem encoder_failure_order (order : OrderRequest) (asset : number) :
  (forall msg, floatToWire (OrderRequest.limit_px order) = Throw msg ->
               orderRequestToOrderWire order asset = Throw msg)
  /\ (forall p msg,
        floatToWire (OrderRequest.limit_px order) = Ok p ->
        floatToWire (OrderRequest.sz order) = Throw msg ->
        orderRequestToOrderWire order asset = Throw msg)
  /\ (forall p s msg,
        floatToWire (OrderRequest.limit_px order) = Ok p ->
        floatToWire (OrderRequest.sz order) = Ok s ->
        orderTypeToWire (OrderRequest.order_type order) = Throw msg ->
        orderRequestToOrderWire order asset = Throw msg)
  /\ ((exists w, orderRequestToOrderWire order asset = Ok w)
      <-> (exists p s t,
             floatToWire (OrderRequest.limit_px order) = Ok p
             /\ floatToWire (OrderRequest.sz order) = Ok s
             /\ orderTypeToWire (OrderRequest.order_type order) = Ok t)).
Proof.
  unfold orderRequestToOrderWire.
  split; [intros msg ->; reflexivity |].
  split; [intros p msg -> ->; reflexivity |].
  split; [intros p s msg -> -> ->; reflexivity |].
  split.
  - intros [w H].
    destruct (floatToWire (OrderRequest.limit_px order)) as [p |];
      [| discriminate H].
    destruct (floatToWire (OrderRequest.sz order)) as [s |]; [| discriminate H].
    destruct (orderTypeToWire (OrderRequest.order_type order)) as [t |];
      [| discriminate H].
    exists p, s, t. auto.
  - intros (p & s & t & -> & -> & ->). cbn [bind].
    destruct (truthy_cloid (OrderRequest.cloid order)); eexists; reflexivity.
Qed.

(** A request whose price needs more than eight digits, without order type. *)
Lemma encoder_failure_order_witness :
  orderRequestToOrderWire
    (OrderRequest.mk "BTC" true (of_decimal false 1 (-3))
       (of_decimal false 123456789 (-9)) (OrderType.mk Absent Absent) false Absent)
    (of_decimal false 0 0)
  = Throw PrecisionLoss.
Proof.
  apply (proj1 (encoder_failure_order
                  (OrderRequest.mk "BTC" true (of_decimal false 1 (-3))
                     (of_decimal false 123456789 (-9))
                     (OrderType.mk Absent Absent) false Absent)
                  (of_decimal false 0 0))).
  vm_compute. reflexivity.
Defined.

(** X4. A wire variant the normaliser returns has exactly one of the keys:
    either [limit], with the property of the request unchanged, and no
    [trigger]; or no [limit] and the trigger of the request with its price
    encoded by [floatToWire] and its market flag and purpose unchanged. *)
Theorem wire_variant_is_one (orderType : OrderType) (w : OrderTypeWire) :
  orderTypeToWire orderType = Ok w ->
  (has_key (OrderTypeWire.limit w) = true
   /\ OrderTypeWire.limit w = OrderType.limit orderType
   /\ OrderTypeWire.trigger w = Absent)
  \/ (OrderTypeWire.limit w = Absent
      /\ OrderType.limit orderType = Absent
      /\ exists trigger px,
           OrderType.trigger orderType = Present trigger
           /\ floatToWire (TriggerOrderType.triggerPx trigger) = Ok px
           /\ OrderTypeWire.trigger w
              = Present (TriggerOrderTypeWire.mk px
                           (TriggerOrderType.isMarket trigger)
                           (TriggerOrderType.tpsl trigger))).
Proof.
  unfold orderTypeToWire.
  destruct (OrderType.limit orderType) as [| | l] eqn:El; cbn [has_key get property].
  - destruct (OrderType.trigger orderType) as [| | trigger]; try discriminate.
    destruct (floatToWire (TriggerOrderType.triggerPx trigger)) as [px |] eqn:E;
      cbn [bind]; [| discriminate].
    intros H. injection H as <-. right. cbn.
    split; [reflexivity |]. split; [reflexivity |].
    exists trigger, px. auto.
  - intros H. injection H as <-. left. cbn. auto.
  - intros H. injection H as <-. left. cbn. auto.
Qed.

(** A stop-loss trigger at 89000.5. *)
Lemma wire_variant_is_one_witness :
  (has_key (OrderTypeWire.limit
              (OrderTypeWire.mk Absent
                 (Present (TriggerOrderTypeWire.mk "89000.5" true sl)))) = true
   /\ OrderTypeWire.limit
        (OrderTypeWire.mk Absent
           (Present (TriggerOrderTypeWire.mk "89000.5" true sl)))
      = OrderType.limit
          (OrderType.mk Absent
             (Present (TriggerOrderType.mk (of_decimal false 890005 (-1)) true sl)))
   /\ OrderTypeWire.trigger
        (OrderTypeWire.mk Absent
           (Present (TriggerOrderTypeWire.mk "89000.5" true sl))) = Absent)
  \/ (OrderTypeWire.limit
        (OrderTypeWire.mk Absent
           (Present (TriggerOrderTypeWire.mk "89000.5" true sl))) = Absent
      /\ OrderType.limit
           (OrderType.mk Absent
              (Present (TriggerOrderType.mk (of_decimal false 890005 (-1)) true sl)))
         = Absent
      /\ exists trigger px,
           OrderType.trigger
             (OrderType.mk Absent
                (Present (TriggerOrderType.mk (of_decimal false 890005 (-1))
                            true sl)))
           = Present trigger
           /\ floatToWire (TriggerOrderType.triggerPx trigger) = Ok px
           /\ OrderTypeWire.trigger
                (OrderTypeWire.mk Absent
                   (Present (TriggerOrderTypeWire.mk "89000.5" true sl)))
              = Present (TriggerOrderTypeWire.mk px
                           (TriggerOrderType.isMarket trigger)
                           (TriggerOrderType.tpsl trigger))).
Proof.
  apply (wire_variant_is_one
           (OrderType.mk Absent
              (Present (TriggerOrderType.mk (of_decimal false 890005 (-1)) true sl)))).
  vm_compute. reflexivity.
Defined.

Section OnlyFailure.

Lemma floatToWire_failure (x : number) (msg : string) :
  wf x -> floatToWire x = Throw msg ->
  msg = PrecisionLoss /\ tolerance_exceeded x = true.
Proof.
  intros Hwf H. destruct x as [| sx | neg m e].
  - vm_compute in H. discriminate H.
  - destruct sx; vm_compute in H; discriminate H.
  - cbn [wf] in Hwf.
    destruct (floatToWire_finite neg m e Hwf) as (sg & c & k & Henc).
    destruct Henc as (ip & fp & ex & _ & _ & _ & _ & _ & _ & _ & _ & _
                      & out & c0 & t & Hfw & _).
    rewrite Hfw in H.
    destruct (tolerance_exceeded (Fin neg m e)); [| discriminate H].
    injection H as <-. auto.
Qed.

End OnlyFailure.

(** X5. On a double [floatToWire] throws nothing but PrecisionLoss, and only
    when the tolerance is exceeded: the text of [toFixed(8)] is always one
    that [Decimal] accepts. *)
Theorem floatToWire_only_precision_loss (x : number) (msg : string) :
  wf x -> floatToWire x = Throw msg ->
  msg = PrecisionLoss /\ tolerance_exceeded x = true.
Proof. apply floatToWire_failure. Qed.

(** The double nearest to 0.123456789 is rejected. *)
Lemma floatToWire_only_precision_loss_witness :
  PrecisionLoss = PrecisionLoss
  /\ tolerance_exceeded (of_decimal false 123456789 (-9)) = true.
Proof.
  apply (floatToWire_only_precision_loss (of_decimal false 123456789 (-9))).
  - apply of_decimal_wf. lia.
  - vm_compute. reflexivity.
Defined.

(** X6. The order encoder, on a request whose numbers are doubles, throws
    nothing but PrecisionLoss or InvalidOrderType. *)
Theorem encoder_only_two_failures (order : OrderRequest) (asset : number)
    (msg : string) :
  wf_order order -> orderRequestToOrderWire order asset = Throw msg ->
  msg = PrecisionLoss \/ msg = InvalidOrderType.
Proof.
  intros (Hpx & Hsz & Hot) H. unfold orderRequestToOrderWire in H.
  destruct (floatToWire (OrderRequest.limit_px order)) as [p | m1] eqn:E1;
    cbn [bind] in H.
  2: { injection H as <-. left. apply (floatToWire_failure _ _ Hpx E1). }
  destruct (floatToWire (OrderRequest.sz order)) as [s | m2] eqn:E2;
    cbn [bind] in H.
  2: { injection H as <-. left. apply (floatToWire_failure _ _ Hsz E2). }
  destruct (orderTypeToWire (OrderRequest.order_type order)) as [t | m3] eqn:E3;
    cbn [bind] in H.
  { destruct (truthy_cloid (OrderRequest.cloid order)); discriminate H. }
  injection H as <-. unfold orderTypeToWire in E3. unfold wf_order_type in Hot.
  destruct (has_key (OrderType.limit (OrderRequest.order_type order)));
    [discriminate E3 |].
  destruct (OrderType.trigger (OrderRequest.order_type order)) as [| | trigger].
  - injection E3 as <-. right. reflexivity.
  - injection E3 as <-. right. reflexivity.
  - destruct (floatToWire (TriggerOrderType.triggerPx trigger)) as [px | m4]
      eqn:E4; cbn [bind] in E3; [discriminate E3 |].
    injection E3 as <-. left. apply (floatToWire_failure _ _ Hot E4).
Qed.

(** A trigger order whose trigger price needs nine digits. *)
Lemma encoder_only_two_failures_witness :
  PrecisionLoss = PrecisionLoss \/ PrecisionLoss = InvalidOrderType.
Proof.
  apply (encoder_only_two_failures
           (OrderRequest.mk "BTC" true (of_decimal false 1 (-3))
              (of_decimal false 9 4)
              (OrderType.mk Absent
                 (Present (TriggerOrderType.mk
                             (of_decimal false 123456789 (-9)) false tp)))
              false Absent)
           (of_decimal false 0 0) PrecisionLoss).
  - split; [| split]; apply of_decimal_wf; lia.
  - vm_compute. reflexivity.
Defined.

Section LargeValues.

(** The doubles of magnitude [2^26] or more: a 53-bit significand at an
    exponent of -26 or more. *)
Lemma at_least_2_26 (m e : Z) :
  canonical m e ->
  Number.geb (Fin false m e) (of_decimal false 67108864 0) = true ->
  2 ^ 52 <= m /\ -26 <= e.
Proof.
  intros Hc.
  assert (Hv : of_decimal false 67108864 0 = Fin false (2 ^ 52) (-26))
    by (vm_compute; reflexivity).
  rewrite Hv. unfold Number.geb, Number.compare, align. cbn [signed].
  set (a := m * 2 ^ (e - Z.min e (-26))).
  set (b := 2 ^ 52 * 2 ^ (-26 - Z.min e (-26))).
  intros H.
  assert (Hab : b <= a).
  { destruct (a ?= b) eqn:E; try discriminate H.
    - apply Z.compare_eq in E. rewrite E. apply Z.le_refl.
    - apply Z.compare_gt_iff in E. apply Z.lt_le_incl. exact E. }
  clear H. subst a b.
  assert (He : -26 <= e).
  { destruct (Z_le_gt_dec (-26) e) as [? | Hlt]; [assumption | exfalso].
    replace (Z.min e (-26)) with e in Hab by lia.
    rewrite Z.sub_diag in Hab. change (2 ^ 0) with 1 in Hab.
    pose proof (pow2_le_mono 1 (-26 - e) ltac:(lia)) as H1.
    change (2 ^ 1) with 2 in H1.
    assert (m < 2 ^ 53) by (destruct Hc as [[? ?] | [? ?]]; lia).
    change (2 ^ 53) with (2 * 2 ^ 52) in *.
    assert (0 < 2 ^ 52) by reflexivity. nia. }
  split; [| assumption].
  destruct Hc as [[Hemin _] | [_ ?]]; [unfold emin in Hemin; lia | lia].
Qed.

End LargeValues.

(** X7. Every finite double of magnitude [2^26] (67108864) or more is
    accepted, whatever its digits: from there on the doubles are further
    apart than a unit of the eighth place, so the text of [toFixed(8)] parses
    back to the same double; the string returned parses back to it too. *)
Theorem large_values_are_accepted (x : number) :
  wf x -> is_finite x = true ->
  Number.geb (Number.abs x) (of_decimal false 67108864 0) = true ->
  exists s, floatToWire x = Ok s /\ Number.eqb (parseFloat s) x = true.
Proof.
  intros Hwf Hfin Hge.
  destruct x as [| sx | neg m e]; [discriminate Hfin | discriminate Hfin |].
  cbn [wf Number.abs] in Hwf, Hge.
  destruct (at_least_2_26 m e Hwf Hge) as [Hm He].
  destruct (floatToWire_finite neg m e Hwf) as (sg & c & k & Henc).
  apply (encodes_roundtrip neg m e sg c k Henc).
  destruct Henc as (ip & fp & ex & Hr & Hne & Hip & Hfp & Hcv & Hkv & Hc0 & Hsg
                    & Hform & _).
  assert (Hsg' : sg = neg).
  { rewrite Hsg. assert (E : (0 <? m) = true).
    { apply Z.ltb_lt. assert (0 < 2 ^ 52) by reflexivity. lia. }
    rewrite E. apply Bool.andb_true_r. }
  rewrite Hsg'.
  destruct (is_large m e).
  - rewrite of_decimal_sign. apply eqb_with_sign; [| assumption].
    apply of_decimal_sign.
  - destruct Hform as [-> ->].
    rewrite (scaled8_large neg m e Hwf Hm He). apply eqb_same.
Qed.

(** The double nearest to -12345678901234.5678 needs more than eight digits
    and is accepted. *)
Lemma large_values_are_accepted_witness :
  exists s, floatToWire (of_decimal true 123456789012345678 (-4)) = Ok s
            /\ Number.eqb (parseFloat s)
                 (of_decimal true 123456789012345678 (-4)) = true.
Proof.
  apply (large_values_are_accepted (of_decimal true 123456789012345678 (-4))).
  - apply of_decimal_wf. lia.
  - vm_compute. reflexivity.
  - vm_compute. reflexivity.
Defined.

Section Hexadecimal.

Lemma all_hex_app (a b : string) :
  all_hex (a ++ b) = all_hex a && all_hex b.
Proof.
  induction a as [| c a IH]; [reflexivity |].
  cbn [append all_hex]. rewrite IH. apply Bool.andb_assoc.
Qed.

Lemma hex_char_is_hex (d : Z) : 0 <= d < 16 -> is_hex (hex_char d) = true.
Proof.
  intros H.
  assert (E : d = 0 \/ d = 1 \/ d = 2 \/ d = 3 \/ d = 4 \/ d = 5 \/ d = 6
              \/ d = 7 \/ d = 8 \/ d = 9 \/ d = 10 \/ d = 11 \/ d = 12
              \/ d = 13 \/ d = 14 \/ d = 15) by lia.
  repeat (destruct E as [-> | E]; [vm_compute; reflexivity |]).
  subst d. vm_compute. reflexivity.
Qed.

Lemma zeros_all_hex (k : nat) : all_hex (string_of_digits (zeros k)) = true.
Proof. induction k as [| k IH]; [reflexivity | exact IH]. Qed.

Lemma hex_digits_step (f : nat) (n : Z) (acc : string) :
  hex_digits (S f) n acc
  = if n <? 16 then String (hex_char (n mod 16)) acc
    else hex_digits f (n / 16) (String (hex_char (n mod 16)) acc).
Proof. reflexivity. Qed.

Lemma hex_val_hex_char (d : Z) : 0 <= d < 16 -> hex_val (hex_char d) = d.
Proof.
  intros H.
  assert (E : d = 0 \/ d = 1 \/ d = 2 \/ d = 3 \/ d = 4 \/ d = 5 \/ d = 6
              \/ d = 7 \/ d = 8 \/ d = 9 \/ d = 10 \/ d = 11 \/ d = 12
              \/ d = 13 \/ d = 14 \/ d = 15) by lia.
  repeat (destruct E as [-> | E]; [vm_compute; reflexivity |]).
  subst d. vm_compute. reflexivity.
Qed.

Lemma hex_value_from_app (v : Z) (a b : string) :
  hex_value_from v (a ++ b) = hex_value_from (hex_value_from v a) b.
Proof.
  revert v. induction a as [| c a IH]; intros v; [reflexivity |].
  cbn [append hex_value_from]. apply IH.
Qed.


(** One hexadecimal digit. *)
Lemma hex_digit_spec (n : Z) :
  0 <= n < 16 ->
  let h := String (hex_char (n mod 16)) EmptyString in
  all_hex h = true
  /\ (1 <= String.length h)%nat
  /\ n < 16 ^ Z.of_nat (String.length h)
  /\ (n < 16 -> String.length h = 1%nat)
  /\ (16 <= n -> 16 ^ (Z.of_nat (String.length h) - 1) <= n)
  /\ hex_value h = n.
Proof.
  intros Hn h. subst h. unfold hex_value. cbn [all_hex String.length hex_value_from].
  rewrite Z.mod_small by lia.
  rewrite hex_char_is_hex, hex_val_hex_char by lia.
  change (16 ^ Z.of_nat 1) with 16.
  split; [reflexivity |]. split; [apply le_n |]. split; [lia |].
  split; [reflexivity |]. split; lia.
Qed.

(** The numeral [hex_digits] writes in front of [acc]: hexadecimal digits,
    as many as the integer needs, that denote the integer. *)
Lemma hex_digits_spec (f : nat) :
  forall (n : Z) (acc : string),
    0 <= n < 16 ^ Z.of_nat (S f) ->
    exists h : string,
      hex_digits (S f) n acc = h ++ acc
      /\ all_hex h = true
      /\ (1 <= String.length h)%nat
      /\ n < 16 ^ Z.of_nat (String.length h)
      /\ (n < 16 -> String.length h = 1%nat)
      /\ (16 <= n -> 16 ^ (Z.of_nat (String.length h) - 1) <= n)
      /\ hex_value h = n.
Proof.
  induction f as [| f IH]; intros n acc Hn.
  - change (16 ^ Z.of_nat 1) with 16 in Hn.
    exists (String (hex_char (n mod 16)) EmptyString).
    split; [| apply hex_digit_spec; assumption].
    rewrite hex_digits_step. destruct (n <? 16); reflexivity.
  - rewrite hex_digits_step. destruct (n <? 16) eqn:E.
    + apply Z.ltb_lt in E.
      exists (String (hex_char (n mod 16)) EmptyString).
      split; [reflexivity | apply hex_digit_spec; lia].
    + apply Z.ltb_ge in E.
      assert (Hq : 0 <= n / 16 < 16 ^ Z.of_nat (S f)).
      { split; [apply Z.div_pos; lia |].
        apply Z.div_lt_upper_bound; [lia |].
        replace (Z.of_nat (S (S f))) with (Z.of_nat (S f) + 1) in Hn by lia.
        rewrite Z.pow_add_r, Z.pow_1_r in Hn by lia. lia. }
      destruct (IH (n / 16) (String (hex_char (n mod 16)) acc) Hq)
        as (h & Hh & Hall & Hlen & Hup & Hone & Hlow & Hval).
      exists (h ++ String (hex_char (n mod 16)) EmptyString).
      pose proof (Z.div_mod n 16 ltac:(lia)) as Hdm.
      pose proof (Z.mod_pos_bound n 16 ltac:(lia)) as Hmod.
      assert (Hl : Z.of_nat (String.length (h ++ String (hex_char (n mod 16)) EmptyString))
                   = Z.of_nat (String.length h) + 1).
      { rewrite length_append. cbn [String.length]. lia. }
      rewrite Hl.
      split; [rewrite Hh, append_assoc; reflexivity |].
      split.
      { rewrite all_hex_app, Hall. cbn [all_hex andb].
        rewrite hex_char_is_hex by assumption. reflexivity. }
      split; [rewrite length_append; cbn [String.length]; lia |].
      split; [rewrite Z.pow_add_r, Z.pow_1_r by lia; lia |].
      split; [intros; lia |].
      split.
      { intros _.
        replace (Z.of_nat (String.length h) + 1 - 1) with (Z.of_nat (String.length h))
          by lia.
        destruct (Z_lt_ge_dec (n / 16) 16) as [Hs | Hb].
        - rewrite (Hone Hs). change (16 ^ Z.of_nat 1) with 16. lia.
        - specialize (Hlow ltac:(lia)).
          replace (Z.of_nat (String.length h))
            with (Z.of_nat (String.length h) - 1 + 1) by lia.
          rewrite Z.pow_add_r, Z.pow_1_r by lia. lia. }
      unfold hex_value in *. rewrite hex_value_from_app, Hval.
      cbn [hex_value_from]. rewrite hex_val_hex_char by assumption. lia.
Qed.

Lemma log2_fuel (n : Z) :
  0 <= n -> n < 16 ^ Z.of_nat (S (Z.to_nat (Z.log2 n))).
Proof.
  intros Hn. pose proof (Z.log2_nonneg n) as Hl.
  replace (Z.of_nat (S (Z.to_nat (Z.log2 n)))) with (Z.log2 n + 1) by lia.
  destruct (Z.eq_dec n 0) as [-> | Hnz]; [reflexivity |].
  pose proof (Z.log2_spec n ltac:(lia)) as [_ Hup].
  replace (Z.succ (Z.log2 n)) with (Z.log2 n + 1) in Hup by lia.
  apply Z.lt_le_trans with (1 := Hup).
  apply Z.pow_le_mono_l. lia.
Qed.

(** The hexadecimal numeral of a non-negative integer. *)
Lemma toString16_nonneg (n : Z) :
  0 <= n ->
  exists h : string,
    toString16 n = h
    /\ all_hex h = true
    /\ (1 <= String.length h)%nat
    /\ n < 16 ^ Z.of_nat (String.length h)
    /\ (n < 16 -> String.length h = 1%nat)
    /\ (16 <= n -> 16 ^ (Z.of_nat (String.length h) - 1) <= n)
    /\ hex_value h = n.
Proof.
  intros Hn. unfold toString16.
  replace (n <? 0) with false by (symmetry; apply Z.ltb_ge; lia).
  destruct (hex_digits_spec (Z.to_nat (Z.log2 n)) n EmptyString
              (conj Hn (log2_fuel n Hn))) as (h & Hh & Hrest).
  exists h. rewrite Hh, append_nil_r. split; [reflexivity | exact Hrest].
Qed.

(** The length of the numeral against a power of 16. *)
Lemma hex_length_le (n : Z) (h : string) (k : nat) :
  (1 <= k)%nat ->
  (1 <= String.length h)%nat ->
  (n < 16 -> String.length h = 1%nat) ->
  (16 <= n -> 16 ^ (Z.of_nat (String.length h) - 1) <= n) ->
  n < 16 ^ Z.of_nat k -> (String.length h <= k)%nat.
Proof.
  intros Hk Hlen Hone Hlow Hup.
  destruct (Z_lt_ge_dec n 16) as [Hs | Hb]; [rewrite (Hone Hs); exact Hk |].
  specialize (Hlow ltac:(lia)).
  destruct (le_lt_dec (String.length h) k) as [? | Hgt]; [assumption | exfalso].
  assert (16 ^ Z.of_nat k <= 16 ^ (Z.of_nat (String.length h) - 1))
    by (apply Z.pow_le_mono_r; lia).
  lia.
Qed.

Lemma hex_length_gt (n : Z) (h : string) (k : nat) :
  n < 16 ^ Z.of_nat (String.length h) ->
  16 ^ Z.of_nat k <= n -> (k < String.length h)%nat.
Proof.
  intros Hup Hlow.
  destruct (le_lt_dec (String.length h) k) as [Hle | ?]; [exfalso | assumption].
  assert (16 ^ Z.of_nat (String.length h) <= 16 ^ Z.of_nat k)
    by (apply Z.pow_le_mono_r; lia).
  lia.
Qed.

Lemma fromInt_shape (n : Z) :
  fromInt n
  = if (Nat.max 32 (String.length (toString16 n)) =? 32)%nat
    then Ok (mkCloid ("0x" ++ padStart0 32 (toString16 n)))
    else Throw "cloid is not 16 bytes".
Proof.
  unfold fromInt.
  rewrite newCloid_shape, startsWith_prefix, slice_prefix, padStart0_length.
  reflexivity.
Qed.

Lemma minus_not_hex (a b : string) : all_hex (a ++ "-" ++ b) = false.
Proof.
  rewrite all_hex_app. cbn [append all_hex].
  change (is_hex "-"%char) with false. cbn [andb]. apply Bool.andb_false_r.
Qed.


End Hexadecimal.

(** X8. [fromInt] on a non-negative integer: below [2^128] it returns a Cloid
    of the specified format, the prefix and 32 hexadecimal digits; from
    [2^128] on the numeral has more than 32 digits and the constructor throws
    the 16-bytes message. *)
Theorem fromInt_range (n : Z) :
  0 <= n ->
  (n < 2 ^ 128 ->
   exists c : Cloid, fromInt n = Ok c /\ cloid_format (toRaw c) = true)
  /\ (2 ^ 128 <= n -> fromInt n = Throw "cloid is not 16 bytes").
Proof.
  intros Hn. rewrite fromInt_shape.
  destruct (toString16_nonneg n Hn)
    as (h & Hh & Hall & Hlen & Hup & Hone & Hlow & _).
  rewrite Hh. change (2 ^ 128) with (16 ^ Z.of_nat 32). split; intros Hr.
  - pose proof (hex_length_le n h 32 ltac:(lia) Hlen Hone Hlow Hr) as Hle.
    replace (Nat.max 32 (String.length h)) with 32%nat by lia.
    cbn [Nat.eqb]. eexists. split; [reflexivity |].
    unfold toRaw, cloid_format. cbn [_rawCloid].
    rewrite startsWith_prefix, slice_prefix, padStart0_length.
    replace (Nat.max 32 (String.length h)) with 32%nat by lia.
    cbn [Nat.eqb andb]. unfold padStart0.
    rewrite all_hex_app, zeros_all_hex, Hall. reflexivity.
  - pose proof (hex_length_gt n h 32 Hup Hr) as Hgt.
    destruct (Nat.max 32 (String.length h) =? 32)%nat eqn:E;
      [apply Nat.eqb_eq in E; lia | reflexivity].
Qed.

(** The first integer out of range. *)
Lemma fromInt_range_witness : fromInt (2 ^ 128) = Throw "cloid is not 16 bytes".
Proof.
  apply (proj2 (fromInt_range (2 ^ 128) ltac:(lia))). lia.
Defined.

(** X9. [fromInt] on a negative integer: the numeral carries a minus sign,
    which the constructor does not look at; above [-16^31] the padded
    numeral has 32 characters and a Cloid is returned that does not have the
    specified format, from [-16^31] down the 16-bytes message is thrown. *)
Theorem fromInt_negative (n : Z) :
  n < 0 ->
  (- 16 ^ 31 < n ->
   exists c : Cloid, fromInt n = Ok c /\ cloid_format (toRaw c) = false)
  /\ (n <= - 16 ^ 31 -> fromInt n = Throw "cloid is not 16 bytes").
Proof.
  intros Hn. rewrite fromInt_shape.
  assert (Hs : toString16 n = "-" ++ toString16 (- n)).
  { unfold toString16.
    replace (n <? 0) with true by (symmetry; apply Z.ltb_lt; lia).
    replace (- n <? 0) with false by (symmetry; apply Z.ltb_ge; lia).
    reflexivity. }
  destruct (toString16_nonneg (- n) ltac:(lia))
    as (h & Hh & Hall & Hlen & Hup & Hone & Hlow & _).
  rewrite Hs, Hh.
  change (String.length ("-" ++ h)) with (S (String.length h)).
  change (16 ^ 31) with (16 ^ Z.of_nat 31). split; intros Hr.
  - pose proof (hex_length_le (- n) h 31 ltac:(lia) Hlen Hone Hlow ltac:(lia))
      as Hle.
    replace (Nat.max 32 (S (String.length h))) with 32%nat by lia.
    cbn [Nat.eqb]. eexists. split; [reflexivity |].
    unfold toRaw, cloid_format. cbn [_rawCloid].
    rewrite slice_prefix. unfold padStart0.
    rewrite minus_not_hex. apply Bool.andb_false_r.
  - pose proof (hex_length_gt (- n) h 31 Hup ltac:(lia)) as Hgt.
    destruct (Nat.max 32 (S (String.length h)) =? 32)%nat eqn:E;
      [apply Nat.eqb_eq in E; lia | reflexivity].
Qed.

(** [fromInt (-1)] is a Cloid ending in [-1]. *)
Lemma fromInt_negative_witness :
  exists c : Cloid, fromInt (-1) = Ok c /\ cloid_format (toRaw c) = false.
Proof.
  apply (proj1 (fromInt_negative (-1) ltac:(lia))). lia.
Defined.

Section Reencoding.

(** What an accepted finite double gives: the decimal of its [toFixed(8)]
    text, within the tolerance, and a string that parses to that decimal
    (with the sign of a zero dropped). *)
Lemma accepted_output (neg : bool) (m e : Z) (s : string) :
  canonical m e -> floatToWire (Fin neg m e) = Ok s ->
  exists sg c k,
    encodes neg m e sg c k
    /\ tolerance_exceeded (Fin neg m e) = false
    /\ parseFloat (toFixed8 (Fin neg m e)) = of_decimal sg c k
    /\ parseFloat s = of_decimal (sg && negb (c =? 0)) c k.
Proof.
  intros Hc H.
  destruct (floatToWire_finite neg m e Hc) as (sg & c & k & Henc).
  exists sg, c, k.
  destruct (encodes_literal _ _ _ _ _ _ Henc) as [_ Hpf].
  pose proof Henc as Henc'.
  destruct Henc' as (ip & fp & ex & _ & _ & _ & _ & _ & _ & _ & _ & _
                     & out & c0 & t & Hfw & Hc0 & Ht & Hct & Hp).
  rewrite Hfw in H.
  destruct (tolerance_exceeded (Fin neg m e)) eqn:Htol; [discriminate H |].
  injection H as <-.
  split; [exact Henc | split; [reflexivity | split; [exact Hpf |]]].
  rewrite (parseFloat_prints out _ c0 (k + t) Hc0 Hp).
  rewrite <- of_decimal_shift by assumption. rewrite <- Hct. reflexivity.
Qed.

Lemma output_within_tolerance (x : number) (s : string) :
  wf x -> floatToWire x = Ok s ->
  Number.geb (Number.abs (Number.sub (parseFloat s) x))
             (of_decimal false 1 (-12)) = false.
Proof.
  intros Hwf H. destruct x as [| sx | neg m e].
  - vm_compute in H. injection H as <-. vm_compute. reflexivity.
  - destruct sx; vm_compute in H; injection H as <-; vm_compute; reflexivity.
  - cbn [wf] in Hwf.
    destruct (accepted_output neg m e s Hwf H)
      as (sg & c & k & _ & Htol & Hpf & Hps).
    unfold tolerance_exceeded in Htol. rewrite Hpf in Htol. rewrite Hps.
    destruct (c =? 0) eqn:Ec.
    + apply Z.eqb_eq in Ec. subst c. rewrite of_decimal_zero in *.
      rewrite sub_from_zero in * by assumption. exact Htol.
    + rewrite Bool.andb_true_r. exact Htol.
Qed.

Lemma fl_not_nan (neg : bool) (p q : Z) : fl neg p q <> NaN.
Proof.
  unfold fl. destruct (p =? 0); [discriminate |].
  destruct (shift_ratio p q (Z.max (floor_log2 p q - 52) emin)) as [a b].
  destruct (rne_div a b =? 2 ^ 53); destruct (emax <? _); discriminate.
Qed.

Lemma of_decimal_not_nan (neg : bool) (c k : Z) : of_decimal neg c k <> NaN.
Proof. unfold of_decimal. destruct (0 <=? k); apply fl_not_nan. Qed.

(** The string of a finite double parses to a finite double. *)
Lemma output_finite (x : number) (s : string) :
  wf x -> is_finite x = true -> floatToWire x = Ok s ->
  is_finite (parseFloat s) = true.
Proof.
  intros Hwf Hfin H. pose proof (output_within_tolerance x s Hwf H) as Htol.
  destruct x as [| sx | neg m e]; [discriminate Hfin | discriminate Hfin |].
  cbn [wf] in Hwf.
  destruct (accepted_output neg m e s Hwf H) as (sg & c & k & _ & _ & _ & Hps).
  pose proof (of_decimal_not_nan (sg && negb (c =? 0)) c k) as Hnn.
  rewrite <- Hps in Hnn.
  destruct (parseFloat s) as [| sy | sy my ey];
    [contradiction | | reflexivity].
  rewrite tolerance_value in Htol.
  cbn [Number.sub Number.abs Number.geb Number.compare] in Htol.
  discriminate Htol.
Qed.

(** Two canonical forms of one non-zero value are the same form. *)
Lemma eqb_canonical (s s' : bool) (m e m' e' : Z) :
  canonical m e -> canonical m' e' -> m' <> 0 ->
  Number.eqb (Fin s m e) (Fin s' m' e') = true ->
  Fin s m e = Fin s' m' e'.
Proof.
  intros Hc Hc' Hm'. unfold Number.eqb, Number.compare, align.
  destruct (signed s m * 2 ^ (e - Z.min e e')
            ?= signed s' m' * 2 ^ (e' - Z.min e e')) eqn:E; try discriminate.
  intros _. apply Z.compare_eq in E.
  assert (H0 : 0 <= m) by (destruct Hc as [[? ?] | [? ?]]; lia).
  assert (H0' : 0 < m') by (destruct Hc' as [[? ?] | [? ?]]; lia).
  assert (Hb : m < 2 ^ 53).
  { destruct Hc as [[? ?] | [? ?]]; [| lia].
    assert (2 ^ 52 < 2 ^ 53) by reflexivity. lia. }
  assert (Hb' : m' < 2 ^ 53).
  { destruct Hc' as [[? ?] | [? ?]]; [| lia].
    assert (2 ^ 52 < 2 ^ 53) by reflexivity. lia. }
  pose proof (pow2_pos (e - Z.min e e') ltac:(lia)) as HA.
  pose proof (pow2_pos (e' - Z.min e e') ltac:(lia)) as HB.
  assert (Hs : s = s').
  { destruct s, s'; cbn [signed] in E; try reflexivity; exfalso; nia. }
  subst s'.
  assert (E' : m * 2 ^ (e - Z.min e e') = m' * 2 ^ (e' - Z.min e e'))
    by (destruct s; cbn [signed] in E; lia).
  clear E.
  assert (H53 : 2 ^ 53 = 2 * 2 ^ 52) by reflexivity.
  destruct (Z.lt_trichotomy e e') as [Hlt | [Heq | Hgt]].
  - exfalso. replace (Z.min e e') with e in * by lia.
    rewrite Z.sub_diag in E'. change (2 ^ 0) with 1 in E'.
    pose proof (pow2_le_mono 1 (e' - e) ltac:(lia)) as H1.
    change (2 ^ 1) with 2 in H1.
    assert (2 ^ 52 <= m')
      by (destruct Hc as [[? ?] | [[? ?] ?]]; destruct Hc' as [[? ?] | [? ?]]; lia).
    nia.
  - subst e'. replace (Z.min e e) with e in * by lia.
    rewrite Z.sub_diag in E'. change (2 ^ 0) with 1 in E'.
    f_equal. lia.
  - exfalso. replace (Z.min e e') with e' in * by lia.
    rewrite Z.sub_diag in E'. change (2 ^ 0) with 1 in E'.
    pose proof (pow2_le_mono 1 (e - e') ltac:(lia)) as H1.
    change (2 ^ 1) with 2 in H1.
    assert (2 ^ 52 <= m)
      by (destruct Hc' as [[? ?] | [[? ?] ?]]; destruct Hc as [[? ?] | [? ?]]; lia).
    nia.
Qed.

(** A decimal of eight places below [2^26] rounds to a double that is not an
    integer multiple of a power of two above one. *)
Lemma of_decimal_8_small (neg : bool) (k : Z) :
  0 < k < 2 ^ 26 * 10 ^ 8 ->
  exists m e, of_decimal neg k (-8) = Fin neg m e /\ e < 0.
Proof.
  intros Hk. rewrite of_decimal_8.
  assert (Hp : 0 < k) by lia.
  assert (HQ : 0 < 10 ^ 8) by reflexivity.
  pose proof (floor_log2_spec k (10 ^ 8) Hp HQ) as Hl.
  pose proof (fl_cases neg k (10 ^ 8) Hp HQ) as Hc. cbv zeta in Hc.
  set (l := floor_log2 k (10 ^ 8)) in *.
  assert (Hl25 : l <= 25).
  { destruct Hl as [[H [B B']] | [H _]]; [| lia].
    destruct (Z_le_gt_dec l 25); [assumption | exfalso].
    pose proof (pow2_le_mono 26 l ltac:(lia)). nia. }
  set (e0 := Z.max (l - 52) emin) in *.
  assert (He0 : emin <= e0 <= -27) by (unfold emin in *; lia).
  assert (E1 : (emax <? e0) = false) by (apply Z.ltb_ge; unfold emax; lia).
  assert (E2 : (emax <? e0 + 1) = false) by (apply Z.ltb_ge; unfold emax; lia).
  rewrite E1, E2 in Hc.
  destruct Hc as [[_ ->] | [_ ->]]; eexists; eexists; (split; [reflexivity | lia]).
Qed.

(** Below [2^26] the eighth-place rounding is at most [2^26 * 10^8]. *)
Lemma scaled8_below_2_26 (m e : Z) :
  canonical m e -> e < -26 -> 0 <= scaled8 m e <= 2 ^ 26 * 10 ^ 8.
Proof.
  intros Hc He.
  assert (H0 : 0 <= m) by (destruct Hc as [[? ?] | [? ?]]; lia).
  assert (Hb : m < 2 ^ 53).
  { destruct Hc as [[? ?] | [? ?]]; [| lia].
    assert (2 ^ 52 < 2 ^ 53) by reflexivity. lia. }
  split; [apply scaled8_nonneg; assumption |].
  unfold scaled8.
  assert (E : (0 <=? e) = false) by (apply Z.leb_gt; lia).
  rewrite E. apply Z.lt_succ_r. apply Z.div_lt_upper_bound.
  { apply pow2_pos. lia. }
  rewrite pow2_succ by lia.
  pose proof (pow2_le_mono 27 (- e) ltac:(lia)) as HE.
  set (E0 := 2 ^ (- e)) in *.
  change (2 ^ 27) with 134217728 in HE.
  change (2 ^ 53) with 9007199254740992 in Hb.
  change (2 ^ 26 * 10 ^ 8) with 6710886400000000.
  change (10 ^ 8) with 100000000.
  lia.
Qed.

Lemma floatToWire_same_text (x y : number) :
  toFixed8 y = toFixed8 x ->
  tolerance_exceeded x = false -> tolerance_exceeded y = false ->
  floatToWire y = floatToWire x.
Proof.
  intros Ht Hx Hy. rewrite !floatToWire_guard, Hx, Hy, Ht. reflexivity.
Qed.

End Reencoding.

(** X10. The string [floatToWire] returns for a finite double denotes a
    number within the tolerance of the input: parsed back, it is a finite
    Number that differs from [x] by less than 1e-12 (the subtraction and the
    comparison are those of Numbers). *)
Theorem output_is_within_tolerance (x : number) (s : string) :
  wf x -> is_finite x = true -> floatToWire x = Ok s ->
  is_finite (parseFloat s) = true
  /\ Number.geb (Number.abs (Number.sub (parseFloat s) x))
                 (of_decimal false 1 (-12)) = false.
Proof.
  intros Hwf Hfin H. split.
  - apply (output_finite x s Hwf Hfin H).
  - apply (output_within_tolerance x s Hwf H).
Qed.

(** The double nearest to 1e-13 is encoded as 0, which is within 1e-12. *)
Lemma output_is_within_tolerance_witness :
  is_finite (parseFloat "0") = true
  /\ Number.geb
       (Number.abs (Number.sub (parseFloat "0") (of_decimal false 1 (-13))))
       (of_decimal false 1 (-12)) = false.
Proof.
  apply (output_is_within_tolerance (of_decimal false 1 (-13)) "0").
  - apply of_decimal_wf. lia.
  - vm_compute. reflexivity.
  - vm_compute. reflexivity.
Defined.

(** X11. Encoding is idempotent through the wire: the string [floatToWire]
    returns, parsed back to a Number and encoded again, gives the same
    string. *)
Theorem floatToWire_idempotent (x : number) (s : string) :
  wf x -> floatToWire x = Ok s -> floatToWire (parseFloat s) = Ok s.
Proof.
  intros Hwf H. destruct x as [| sx | neg m e].
  - vm_compute in H. injection H as <-. vm_compute. reflexivity.
  - destruct sx; vm_compute in H; injection H as <-; vm_compute; reflexivity.
  - cbn [wf] in Hwf.
    destruct (accepted_output neg m e s Hwf H)
      as (sg & c & k & Henc & Htol & Hpf & Hps).
    destruct Henc as (ip & fp & ex & _ & _ & _ & _ & _ & _ & Hc0 & Hsg
                      & Hform & _).
    rewrite Hps.
    assert (Hm : 0 <= m) by (destruct Hwf as [[? ?] | [? ?]]; lia).
    assert (Hsame : forall y, y = Fin neg m e -> floatToWire y = Ok s)
      by (intros y ->; exact H).
    subst sg.
    destruct (is_large m e) eqn:El.
    + (* exponent notation: the same double comes back *)
      apply Hsame.
      assert (Hm0 : m <> 0).
      { intros ->. unfold is_large in El. rewrite Z.mul_0_l in El.
        rewrite Bool.andb_false_r in El. discriminate El. }
      assert (Ec : (c =? 0) = false).
      { apply Z.eqb_neq. intros ->. rewrite of_decimal_zero in Hform.
        apply eqb_zero_left in Hform. contradiction. }
      rewrite Ec.
      replace (0 <? m) with true by (symmetry; apply Z.ltb_lt; lia).
      rewrite !Bool.andb_true_r. rewrite of_decimal_sign.
      pose proof (of_decimal_wf false c k Hc0) as Hwfy.
      destruct (of_decimal false c k) as [| sy | sy my ey].
      * discriminate Hform.
      * destruct sy; discriminate Hform.
      * cbn [wf] in Hwfy. cbn [with_sign].
        pose proof (eqb_canonical sy false my ey m e Hwfy Hwf Hm0 Hform) as Hy.
        injection Hy as _ -> ->. reflexivity.
    + destruct Hform as [-> ->].
      destruct (Z_lt_ge_dec e (-26)) as [Hsmall | Hbig].
      2: { (* from 2^26 on the same double comes back *)
        assert (H52 : 2 ^ 52 <= m)
          by (destruct Hwf as [[He _] | [_ ?]]; [unfold emin in He; lia | lia]).
        pose proof (scaled8_large neg m e Hwf H52 ltac:(lia)) as Hrt.
        apply Hsame.
        replace (0 <? m) with true
          by (symmetry; apply Z.ltb_lt; assert (0 < 2 ^ 52) by reflexivity; lia).
        destruct (scaled8 m e =? 0) eqn:Ec.
        - apply Z.eqb_eq in Ec. rewrite Ec, of_decimal_zero in Hrt.
          injection Hrt as Hrt _. exfalso.
          assert (0 < 2 ^ 52) by reflexivity. lia.
        - rewrite !Bool.andb_true_r. exact Hrt. }
      pose proof (scaled8_below_2_26 m e Hwf Hsmall) as [Hlo Hhi].
      pose proof (toFixed8_cases neg m e) as Hfix. rewrite El in Hfix.
      set (c := scaled8 m e) in *.
      destruct (Z.eq_dec c 0) as [Ec | Ec].
      * (* the text is a zero *)
        rewrite Ec in *.
        rewrite floatToWire_guard, Htol, Hfix in H.
        assert (Hs : s = "0")
          by (destruct (neg && (0 <? m)); vm_compute in H; injection H as <-;
              reflexivity).
        subst s. change (negb (0 =? 0)) with false.
        rewrite Bool.andb_false_r. vm_compute. reflexivity.
      * assert (Hm0 : 0 < m).
        { destruct (Z.eq_dec m 0) as [Hz | ?]; [exfalso | lia].
          apply Ec. subst c. rewrite Hz in *.
          assert (e = emin).
          { destruct Hwf as [[? ?] | [_ [? _]]]; [assumption |].
            assert (0 < 2 ^ 52) by reflexivity. lia. }
          subst e. vm_compute. reflexivity. }
        replace (0 <? m) with true in * by (symmetry; apply Z.ltb_lt; lia).
        replace (c =? 0) with false by (symmetry; apply Z.eqb_neq; assumption).
        rewrite !Bool.andb_true_r in *.
        destruct (Z.eq_dec c (2 ^ 26 * 10 ^ 8)) as [Etop | Hnt].
        -- (* the rounding is 2^26 itself *)
           rewrite Etop in *.
           assert (Hy : of_decimal neg (2 ^ 26 * 10 ^ 8) (-8)
                        = Fin neg (2 ^ 52) (-26))
             by (destruct neg; vm_compute; reflexivity).
           rewrite Hy, <- H. apply floatToWire_same_text; [| exact Htol |].
           ++ rewrite Hfix. destruct neg; vm_compute; reflexivity.
           ++ destruct neg; vm_compute; reflexivity.
        -- assert (Hc : 0 < c < 2 ^ 26 * 10 ^ 8) by lia.
           destruct (of_decimal_8_small neg c Hc) as (m' & e' & Hy & He').
           pose proof (scaled8_small neg c m' e' ltac:(lia) Hy) as Hs'.
           pose proof (of_decimal_wf neg c (-8) ltac:(lia)) as Hwfy.
           rewrite Hy in *. cbn [wf] in Hwfy.
           assert (Hm' : 0 < m').
           { destruct (Z.eq_dec m' 0) as [Hz | ?];
               [exfalso | destruct Hwfy as [[? ?] | [? ?]]; lia].
             apply Ec. apply (of_decimal_8_nonzero neg c); [lia |].
             rewrite Hy, Hz, zero_value. apply eqb_zeros. }
           assert (El' : is_large m' e' = false).
           { unfold is_large.
             replace (0 <=? e') with false by (symmetry; apply Z.leb_gt; lia).
             reflexivity. }
           assert (Htxt : toFixed8 (Fin neg m' e') = toFixed8 (Fin neg m e)).
           { rewrite Hfix, toFixed8_cases, El', Hs'.
             replace (0 <? m') with true by (symmetry; apply Z.ltb_lt; lia).
             rewrite Bool.andb_true_r. reflexivity. }
           rewrite <- H. apply floatToWire_same_text; [exact Htxt | exact Htol |].
           unfold tolerance_exceeded. rewrite Htxt, Hpf.
           apply accepted_when_equal; [reflexivity | apply eqb_same].
Qed.

(** 1e-7 is written in exponent notation and encoded again the same way. *)
Lemma floatToWire_idempotent_witness : floatToWire (parseFloat "1e-7") = Ok "1e-7".
Proof.
  apply (floatToWire_idempotent (of_decimal false 1 (-7)) "1e-7").
  - apply of_decimal_wf. lia.
  - vm_compute. reflexivity.
Defined.

Section IntegerNumbers.



End IntegerNumbers.



Section WireFields.

Lemma encoder_fields (order : OrderRequest) (asset : number) (w : OrderWire) :
  orderRequestToOrderWire order asset = Ok w ->
  OrderWire.a w = asset
  /\ OrderWire.b w = OrderRequest.is_buy order
  /\ OrderWire.r w = OrderRequest.reduce_only order
  /\ floatToWire (OrderRequest.limit_px order) = Ok (OrderWire.p w)
  /\ floatToWire (OrderRequest.sz order) = Ok (OrderWire.s w)
  /\ orderTypeToWire (OrderRequest.order_type order) = Ok (OrderWire.t w).
Proof.
  unfold orderRequestToOrderWire. intros H.
  destruct (floatToWire (OrderRequest.limit_px order)) as [p |];
    [| discriminate H].
  destruct (floatToWire (OrderRequest.sz order)) as [s |]; [| discriminate H].
  destruct (orderTypeToWire (OrderRequest.order_type order)) as [t |];
    [| discriminate H].
  cbn [bind] in H.
  destruct (truthy_cloid (OrderRequest.cloid order)); injection H as <-;
    cbn; auto 10.
Qed.

End WireFields.

(** X13. The wire record carries the request: asset, side and reduce-only
    flag unchanged, and a price and a size that, parsed back, are within
    1e-12 of the numbers of the request. *)
Theorem wire_carries_request (order : OrderRequest) (asset : number)
    (w : OrderWire) :
  wf_order order -> orderRequestToOrderWire order asset = Ok w ->
  OrderWire.a w = asset
  /\ OrderWire.b w = OrderRequest.is_buy order
  /\ OrderWire.r w = OrderRequest.reduce_only order
  /\ Number.geb (Number.abs (Number.sub (parseFloat (OrderWire.p w))
                                         (OrderRequest.limit_px order)))
                 (of_decimal false 1 (-12)) = false
  /\ Number.geb (Number.abs (Number.sub (parseFloat (OrderWire.s w))
                                         (OrderRequest.sz order)))
                 (of_decimal false 1 (-12)) = false.
Proof.
  intros (Hpx & Hsz & _) H.
  destruct (encoder_fields order asset w H) as (Ha & Hb & Hr & Hp & Hs & _).
  repeat (split; [assumption |]).
  split; apply output_within_tolerance; assumption.
Qed.

(** The request of the example. *)
Lemma wire_carries_request_witness :
  OrderWire.a (OrderWire.mk assetId true "90000" "0.001" false
                 (OrderTypeWire.mk (Present (mkLimit Gtc)) Absent) Absent)
  = assetId
  /\ OrderWire.b (OrderWire.mk assetId true "90000" "0.001" false
                    (OrderTypeWire.mk (Present (mkLimit Gtc)) Absent) Absent)
     = OrderRequest.is_buy orderRequest
  /\ OrderWire.r (OrderWire.mk assetId true "90000" "0.001" false
                    (OrderTypeWire.mk (Present (mkLimit Gtc)) Absent) Absent)
     = OrderRequest.reduce_only orderRequest
  /\ Number.geb
       (Number.abs
          (Number.sub
             (parseFloat
                (OrderWire.p (OrderWire.mk assetId true "90000" "0.001" false
                                (OrderTypeWire.mk (Present (mkLimit Gtc)) Absent)
                                Absent)))
             (OrderRequest.limit_px orderRequest)))
       (of_decimal false 1 (-12)) = false
  /\ Number.geb
       (Number.abs
          (Number.sub
             (parseFloat
                (OrderWire.s (OrderWire.mk assetId true "90000" "0.001" false
                                (OrderTypeWire.mk (Present (mkLimit Gtc)) Absent)
                                Absent)))
             (OrderRequest.sz orderRequest)))
       (of_decimal false 1 (-12)) = false.
Proof.
  apply (wire_carries_request orderRequest assetId).
  - split; [| split]; [apply of_decimal_wf; lia | apply of_decimal_wf; lia |].
    vm_compute. exact I.
  - vm_compute. reflexivity.
Defined.

(** X14. The coin name is not sent: the wire record of a request does not
    depend on [coin]; the market is the asset index the caller passes. *)
Theorem coin_is_not_encoded (order : OrderRequest) (asset : number)
    (coin : string) :
  orderRequestToOrderWire
    (OrderRequest.mk coin (OrderRequest.is_buy order) (OrderRequest.sz order)
       (OrderRequest.limit_px order) (OrderRequest.order_type order)
       (OrderRequest.reduce_only order) (OrderRequest.cloid order))
    asset
  = orderRequestToOrderWire order asset.
Proof. reflexivity. Qed.

Section Mirror.

(** The text of [toFixed(8)] of a finite double: a numeral with a fraction
    or an exponent, after the sign of a negative non-zero double. *)
Lemma toFixed8_numeral (m e : Z) :
  canonical m e ->
  exists ip fp ex,
    (forall neg,
        toFixed8 (Fin neg m e) = sign_string (neg && (0 <? m)) ++ render ip fp ex)
    /\ ip <> [] /\ Forall digit_ok ip /\ Forall digit_ok (fraction_digits fp)
    /\ (fp <> None \/ ex <> None).
Proof.
  intros Hc.
  assert (Hm : 0 <= m) by (destruct Hc as [[? ?] | [? ?]]; lia).
  destruct (is_large m e) eqn:Hlarge.
  - pose proof Hlarge as Hl. unfold is_large in Hl.
    apply Bool.andb_true_iff in Hl. destruct Hl as [He _]. apply Z.leb_le in He.
    destruct (toString_large_numeral m e Hc He)
      as (d0 & fp & n & Hr & Hd0 & Hfp & _).
    exists [d0], fp, (Some n).
    split; [intros neg; rewrite toFixed8_cases, Hlarge, Hr; reflexivity |].
    split; [discriminate |]. split; [assumption |]. split; [assumption |].
    right. discriminate.
  - pose proof (scaled8_nonneg m e Hm) as Hn.
    destruct (fixed8_digits_spec (scaled8 m e) Hn)
      as (Ha & Hb & Hoka & Hokb & _).
    exists (fst (fixed8_digits (scaled8 m e))),
           (Some (snd (fixed8_digits (scaled8 m e)))), None.
    split; [intros neg; rewrite toFixed8_cases, Hlarge; reflexivity |].
    split; [assumption |]. split; [assumption |]. split; [assumption |].
    left. discriminate.
Qed.

Lemma of_dyadic_sign (s : bool) (p k : Z) :
  of_dyadic s p k = with_sign s (of_dyadic false p k).
Proof. unfold of_dyadic. destruct (0 <=? k); apply fl_sign. Qed.

Lemma abs_with_sign (s : bool) (y : number) :
  Number.abs (with_sign s y) = Number.abs y.
Proof. destruct y; reflexivity. Qed.

(** The distance of two negative Numbers is that of their magnitudes. *)
Lemma sub_mirror (y : number) (m e : Z) :
  y = with_sign false y ->
  Number.abs (Number.sub (with_sign true y) (Fin true m e))
  = Number.abs (Number.sub y (Fin false m e)).
Proof.
  intros Hy. destruct y as [| s | s my ey]; [reflexivity | |].
  - cbn [with_sign] in Hy. injection Hy as ->. reflexivity.
  - cbn [with_sign] in Hy. injection Hy as ->. cbn [with_sign].
    unfold Number.sub, align. cbn [signed andb negb].
    set (A := 2 ^ (ey - Z.min ey e)). set (B := 2 ^ (e - Z.min ey e)).
    replace (- my * A - - m * B) with (- (my * A - m * B)) by lia.
    set (d := my * A - m * B).
    destruct (Z.eq_dec d 0) as [Hd | Hd].
    + rewrite Hd. reflexivity.
    + replace (- d =? 0) with false by (symmetry; apply Z.eqb_neq; lia).
      replace (d =? 0) with false by (symmetry; apply Z.eqb_neq; lia).
      rewrite Z.abs_opp.
      rewrite (of_dyadic_sign (- d <? 0)), (of_dyadic_sign (d <? 0)).
      rewrite !abs_with_sign. reflexivity.
Qed.

Lemma toString_negated (d : list Z) (e : Z) :
  DecimalJs.toString (DecimalJs.DFin true d e)
  = if DecimalJs.isZero (DecimalJs.DFin false d e)
    then DecimalJs.toString (DecimalJs.DFin false d e)
    else "-" ++ DecimalJs.toString (DecimalJs.DFin false d e).
Proof. destruct d as [| z r]; [reflexivity |]. destruct z; reflexivity. Qed.

Lemma parseDecimal_negated (ip : list Z) (fp : option (list Z)) (ex : option Z) :
  DecimalJs.toString (DecimalJs.parseDecimal true ip fp ex)
  = if DecimalJs.isZero (DecimalJs.parseDecimal false ip fp ex)
    then DecimalJs.toString (DecimalJs.parseDecimal false ip fp ex)
    else "-" ++ DecimalJs.toString (DecimalJs.parseDecimal false ip fp ex).
Proof.
  unfold DecimalJs.parseDecimal. cbv zeta.
  destruct (DecimalJs.strip_trailing_zeros _) as [| d r]; [reflexivity |].
  destruct (DecimalJs.maxE <? _); [reflexivity |].
  destruct (_ <? DecimalJs.minE); [reflexivity |].
  apply toString_negated.
Qed.

Lemma digit_char_nonzero (d : Z) :
  digit_ok d -> d <> 0 -> digit_char d <> "0"%char.
Proof.
  unfold digit_ok. intros H Hd.
  assert (E : d = 1 \/ d = 2 \/ d = 3 \/ d = 4 \/ d = 5 \/ d = 6
              \/ d = 7 \/ d = 8 \/ d = 9) by lia.
  repeat (destruct E as [-> | E]; [discriminate |]).
  subst d. discriminate.
Qed.

Lemma not_the_zero_string (c : ascii) (rest : string) :
  c <> "0"%char -> (String c rest =? "0")%string = false.
Proof.
  intros Hc. cbn [String.eqb].
  destruct (Ascii.eqb_spec c "0"); [contradiction | reflexivity].
Qed.

(** The string of a non-zero [Decimal] is not ["0"]. *)
Lemma toString_nonzero (d : Z) (r : list Z) (e : Z) :
  digit_ok d -> d <> 0 ->
  (DecimalJs.toString (DecimalJs.DFin false (d :: r) e) =? "0")%string = false.
Proof.
  intros Hok Hd. pose proof (digit_char_nonzero d Hok Hd) as Hch.
  unfold DecimalJs.toString.
  cbn [DecimalJs.isNeg DecimalJs.exponent andb DecimalJs.finiteToString].
  destruct ((e <=? DecimalJs.toExpNeg) || (DecimalJs.toExpPos <=? e)).
  { destruct r; cbn [string_of_digits append]; apply not_the_zero_string;
      assumption. }
  destruct (e <? 0) eqn:E0; [reflexivity |].
  apply Z.ltb_ge in E0.
  destruct (Z.of_nat (List.length (d :: r)) <=? e).
  { cbn [string_of_digits append]. apply not_the_zero_string. assumption. }
  destruct (e + 1 <? Z.of_nat (List.length (d :: r))).
  { replace (Z.to_nat (e + 1)) with (S (Z.to_nat e)) by lia.
    cbn [firstn string_of_digits append]. apply not_the_zero_string.
    assumption. }
  cbn [string_of_digits]. apply not_the_zero_string. assumption.
Qed.

Lemma parseDecimal_zero_string (ip : list Z) (fp : option (list Z))
    (ex : option Z) :
  Forall digit_ok ip -> Forall digit_ok (fraction_digits fp) ->
  DecimalJs.isZero (DecimalJs.parseDecimal false ip fp ex)
  = (DecimalJs.toString (DecimalJs.parseDecimal false ip fp ex) =? "0")%string.
Proof.
  intros Hip Hfp. unfold DecimalJs.parseDecimal. cbv zeta.
  change (match fp with Some f => f | None => [] end) with (fraction_digits fp).
  set (str := (ip ++ fraction_digits fp)%list).
  assert (Hstr : Forall digit_ok str) by (apply Forall_app; split; assumption).
  pose proof (strip_leading_ok str Hstr) as Hok1.
  destruct (DecimalJs.strip_trailing_zeros (DecimalJs.strip_leading_zeros str))
    as [| d r] eqn:E2; [reflexivity |].
  destruct (DecimalJs.maxE <? _); [reflexivity |].
  destruct (_ <? DecimalJs.minE); [reflexivity |].
  destruct (DecimalJs.strip_leading_zeros str) as [| d1 r1] eqn:E1;
    [discriminate E2 |].
  pose proof (strip_leading_head str) as Hd1. rewrite E1 in Hd1.
  destruct (strip_trailing_head d1 r1 Hd1) as [r' Hr'].
  rewrite Hr' in E2. injection E2 as <- <-.
  assert (Hokd : digit_ok d1) by (inversion Hok1; assumption).
  rewrite (toString_nonzero d1 r' _ Hokd Hd1).
  destruct d1; [contradiction | reflexivity | reflexivity].
Qed.

Lemma tolerance_mirror (m e : Z) :
  canonical m e -> 0 < m ->
  tolerance_exceeded (Fin true m e) = tolerance_exceeded (Fin false m e).
Proof.
  intros Hc Hm.
  destruct (toFixed8_numeral m e Hc) as (ip & fp & ex & Hr & Hne & Hip & Hfp & _).
  assert (E : (0 <? m) = true) by (apply Z.ltb_lt; lia).
  unfold tolerance_exceeded. rewrite !Hr, E, !parseFloat_render by assumption.
  cbn [andb]. rewrite (of_decimal_sign true).
  rewrite sub_mirror by apply of_decimal_sign. reflexivity.
Qed.

End Mirror.

(** X15. Negative numbers are encoded as their magnitudes are: for a finite
    double [x >= 0], [floatToWire (-x)] fails when [floatToWire x] fails, and
    returns the string of [x] after a minus sign otherwise, except that a
    ["0"] stays ["0"]. *)
Theorem negative_values_mirror (m e : Z) :
  canonical m e ->
  (forall s : string,
      floatToWire (Fin false m e) = Ok s ->
      floatToWire (Fin true m e)
      = Ok (if (s =? "0")%string then "0" else "-" ++ s))
  /\ (forall msg : string,
        floatToWire (Fin false m e) = Throw msg ->
        floatToWire (Fin true m e) = Throw msg).
Proof.
  intros Hc.
  destruct (Z.eq_dec m 0) as [Hz | Hnz].
  { subst m.
    assert (e = emin).
    { destruct Hc as [[? ?] | [_ [? _]]]; [assumption |].
      assert (0 < 2 ^ 52) by reflexivity. lia. }
    subst e.
    assert (Hp : floatToWire (Fin false 0 emin) = Ok "0") by (vm_compute; reflexivity).
    assert (Hn : floatToWire (Fin true 0 emin) = Ok "0") by (vm_compute; reflexivity).
    rewrite Hp, Hn. split; [| discriminate].
    intros s H. injection H as <-. reflexivity. }
  assert (Hm : 0 < m) by (destruct Hc as [[? ?] | [? ?]]; lia).
  destruct (toFixed8_numeral m e Hc)
    as (ip & fp & ex & Hr & Hne & Hip & Hfp & Hsh).
  assert (E : (0 <? m) = true) by (apply Z.ltb_lt; lia).
  pose proof (Hr false) as Hpos. pose proof (Hr true) as Hneg.
  rewrite E in Hpos, Hneg. cbn [andb] in Hpos, Hneg.
  rewrite (floatToWire_numeral _ true ip fp ex Hneg Hne Hip Hfp Hsh).
  rewrite (floatToWire_numeral _ false ip fp ex Hpos Hne Hip Hfp Hsh).
  rewrite (tolerance_mirror m e Hc Hm).
  destruct (tolerance_exceeded (Fin false m e)).
  { split; [discriminate | auto]. }
  split; [| discriminate].
  intros s H. injection H as <-.
  rewrite parseDecimal_negated, (parseDecimal_zero_string ip fp ex Hip Hfp).
  destruct (_ =? "0")%string eqn:Ez; [| reflexivity].
  apply String.eqb_eq in Ez. rewrite Ez. reflexivity.
Qed.

(** The double nearest to 0.001, as [lit_0_001] gives it. *)
Lemma negative_values_mirror_witness :
  floatToWire (Fin true 4611686018427388 (-62)) = Ok "-0.001".
Proof.
  apply (proj1 (negative_values_mirror 4611686018427388 (-62)
                  ltac:(right; vm_compute; repeat split; discriminate))
               "0.001").
  vm_compute. reflexivity.
Defined.
